(** * pymbar: the MBAR solvers of [pymbar/mbar_solvers.py]

    A shallow embedding of the solver module over exact real arithmetic.
    Arrays are lists ([vec] for a 1-D array, [mat] for a 2-D array stored by
    rows), [np.exp] and [np.log] are [exp] and [ln] of the real numbers, and
    [math.fsum] / [np.sum] are the exact sum [Rsum].  Rounding, overflow and
    underflow of IEEE doubles are outside the model.  Python exceptions are
    the left injection of [result].

    Two operations of the source have no real value on part of their
    domain: the maximum or minimum of an empty array (numpy raises
    [ValueError]) and the logarithm of a sum that is zero or negative (numpy
    gives an infinity or NaN, which [np.linalg.lstsq] rejects later).
    [amax], [amin] and [ln] are total functions here, so the embedding
    stands for the source only where every reduced axis is non-empty and
    every logarithm is of a positive number: at least one state, at least
    one sample, no negative count and a count that is positive
    ([valid_inputs] below).  The statements about what the numerical
    functions and [adaptive] return, or raise, are made on such inputs. *)

From Stdlib Require Import String Reals List Lra Lia ZArith Bool.
Import ListNotations.
Open Scope R_scope.

Set Implicit Arguments.

(** ** Arrays *)

Definition vec := list R.
Definition mat := list vec.

(** [np.sum] / [math.fsum] of a 1-D array. *)
Fixpoint Rsum (l : vec) : R :=
  match l with
  | [] => 0
  | x :: t => x + Rsum t
  end.

(** [np.amax] of a non-empty 1-D array.  On the empty array, where numpy
    raises [ValueError], this total function gives 0: it stands for the
    source on non-empty arrays only.  Consistent shapes alone do not make
    the reduced axes non-empty (there may be no state, or no sample); the
    statements below that depend on it assume at least one state and one
    sample. *)
Fixpoint amax (l : vec) : R :=
  match l with
  | [] => 0
  | x :: t => match t with [] => x | _ => Rmax x (amax t) end
  end.

(** [np.amin] of a non-empty array, used by [u_kn.min(0)]; total in the
    same way as [amax]. *)
Fixpoint amin (l : vec) : R :=
  match l with
  | [] => 0
  | x :: t => match t with [] => x | _ => Rmin x (amin t) end
  end.

(** Elementwise binary operation on two arrays of the same length. *)
Fixpoint zipWith {A B C : Type} (g : A -> B -> C) (a : list A) (b : list B) : list C :=
  match a, b with
  | x :: a', y :: b' => g x y :: zipWith g a' b'
  | _, _ => []
  end.

(** [a - b] on 1-D arrays. *)
Definition vsub (a b : vec) : vec := zipWith Rminus a b.

(** [a + c] with a scalar [c]. *)
Definition vshift (a : vec) (c : R) : vec := map (fun x => x + c) a.

(** [np.dot] of two 1-D arrays. *)
Definition dot (a b : vec) : R := Rsum (zipWith Rmult a b).

(** Row [n] of [u_kn.T]: the column [n] of [u_kn]. *)
Definition col (n : nat) (u : mat) : vec := map (fun uk => nth n uk 0) u.

(** [u_kn.shape]. *)
Definition n_states (u : mat) : nat := length u.
Definition n_samples (u : mat) : nat :=
  match u with
  | [] => 0%nat
  | r :: _ => length r
  end.

(** Boolean indexing [x[mask]]. *)
Fixpoint select {A : Type} (mask : list bool) (x : list A) : list A :=
  match mask, x with
  | b :: mask', y :: x' => if b then y :: select mask' x' else select mask' x'
  | _, _ => []
  end.

(** The comparison [x > 0] of a float. *)
Definition positive (x : R) : bool := if Rlt_dec 0 x then true else false.

(** ** Exceptions *)

Inductive exn : Type :=
| ShapeError            (* ensure_type: wrong rank or mismatched dimensions *)
| AttributeError        (* attribute lookup on None *)
| UnboundLocalError     (* a local read before assignment *)
| ValueError            (* e.g. the maximum of an empty array *)
| IndexError
| PreconditionError     (* the spec's precondition-violation kind *)
| ExternalError.        (* raised inside scipy / check_w_normalized *)

Inductive result (A : Type) : Type :=
| Ok (a : A)
| Raise (e : exn).
Arguments Ok {A} a.
Arguments Raise {A} e.

Definition rbind {A B : Type} (r : result A) (k : A -> result B) : result B :=
  match r with
  | Ok a => k a
  | Raise e => Raise e
  end.

Notation "x <- r ;; k" := (rbind r (fun x => k))
  (at level 61, r at next level, right associativity).
Notation "' p <- r ;; k" := (rbind r (fun x => let p := x in k))
  (at level 61, p pattern, r at next level, right associativity).

(** ** Reductions from [pymbar.utils] *)

(** Modelled from the spec: [logsumexp] of [pymbar.utils] is not part of the
    sources.  The spec gives [log(sum_i weights[i] * exp(x[i]))] computed with
    a max-subtraction shift, the weights defaulting to 1.  It has a real
    value when the array is not empty and the weighted sum is positive;
    elsewhere (an empty reduction, a sum that is zero or negative) this
    total function still returns a number, through [amax [] = 0] and the
    value [ln] has outside its domain, where the library raises or returns
    an infinity or NaN. *)
Definition logsumexp (a : vec) (b : option vec) : R :=
  let a_max := amax a in
  match b with
  | Some w => ln (Rsum (zipWith (fun wi ai => wi * exp (ai - a_max)) w a)) + a_max
  | None => ln (Rsum (map (fun ai => exp (ai - a_max)) a)) + a_max
  end.

(** Modelled from the spec: [ensure_type] of [pymbar.utils] is not part of the
    sources.  The spec has the inputs shape-checked before use: [u_kn] is a
    2-D array, [N_k] and [f_k] are 1-D arrays of length [n_states]. *)
Definition rectangular (u : mat) : bool :=
  forallb (fun r => Nat.eqb (length r) (n_samples u)) u.

Definition shapes_ok (u : mat) (N f : vec) : bool :=
  rectangular u && Nat.eqb (length N) (n_states u) && Nat.eqb (length f) (n_states u).

Definition validate_inputs (u : mat) (N f : vec) : result (mat * vec * vec) :=
  if shapes_ok u N f then Ok (u, N, f) else Raise ShapeError.

(** ** Core MBAR functions *)

(** [logsumexp(f_k - u_kn.T, b=N_k, axis=1)]: one value per sample. *)
Definition log_denominator_n (u : mat) (N f : vec) : vec :=
  map (fun n => logsumexp (vsub f (col n u)) (Some N)) (seq 0 (n_samples u)).

(** [logsumexp(-log_denominator_n - u_kn, axis=1)]: one value per state. *)
Definition log_numerator_k (u : mat) (ld : vec) : vec :=
  map (fun uk => logsumexp (zipWith (fun l x => - l - x) ld uk) None) u.

(** [-1 * N_k * (1.0 - np.exp(f_k + log_numerator_k))]. *)
Definition gradient_of (N f lnum : vec) : vec :=
  zipWith (fun Nk t => -1 * Nk * (1 - exp t)) N (zipWith Rplus f lnum).

Definition states_with_samples (N : vec) : list bool := map positive N.

Definition self_consistent_update (u_kn : mat) (N_k f_k : vec) : result vec :=
  '(u_kn, N_k, f_k) <- validate_inputs u_kn N_k f_k ;;
  let m := states_with_samples N_k in
  (* Only the states with samples can contribute to the denominator term. *)
  let log_denominator_n :=
    map (fun n => logsumexp (vsub (select m f_k) (col n (select m u_kn)))
                            (Some (select m N_k)))
        (seq 0 (n_samples u_kn)) in
  (* All states can contribute to the numerator term. *)
  Ok (map (fun x => -1 * x) (log_numerator_k u_kn log_denominator_n)).

Definition mbar_gradient (u_kn : mat) (N_k f_k : vec) : result vec :=
  '(u_kn, N_k, f_k) <- validate_inputs u_kn N_k f_k ;;
  let ld := log_denominator_n u_kn N_k f_k in
  let lnum := log_numerator_k u_kn ld in
  Ok (gradient_of N_k f_k lnum).

Definition mbar_objective_and_gradient (u_kn : mat) (N_k f_k : vec) : result (R * vec) :=
  '(u_kn, N_k, f_k) <- validate_inputs u_kn N_k f_k ;;
  let ld := log_denominator_n u_kn N_k f_k in
  let lnum := log_numerator_k u_kn ld in
  let grad := gradient_of N_k f_k lnum in
  let obj := Rsum ld - dot N_k f_k in
  Ok (obj, grad).

(** [f_k - u_kn.T - log_denominator_n[:, np.newaxis]], shape (n_samples, n_states). *)
Definition mbar_log_W_nk (u_kn : mat) (N_k f_k : vec) : result mat :=
  '(u_kn, N_k, f_k) <- validate_inputs u_kn N_k f_k ;;
  let ld := log_denominator_n u_kn N_k f_k in
  Ok (zipWith (fun n ldn => map (fun t => t - ldn) (vsub f_k (col n u_kn)))
              (seq 0 (n_samples u_kn)) ld).

Definition mbar_W_nk (u_kn : mat) (N_k f_k : vec) : result mat :=
  logW <- mbar_log_W_nk u_kn N_k f_k ;;
  Ok (map (map exp) logW).

(** The body of [mbar_hessian] after [W] is known:
    [H = W.T.dot(W); H *= N_k; H *= N_k[:, np.newaxis];
     H -= np.diag(W.sum(0) * N_k); return -1.0 * H]. *)
Definition hessian_from_W (W : mat) (N : vec) : mat :=
  let K := length N in
  map (fun i =>
    map (fun j =>
      let H0 := Rsum (map (fun w => nth i w 0 * nth j w 0) W) in
      let H1 := H0 * nth j N 0 in
      let H2 := H1 * nth i N 0 in
      let d := if Nat.eqb i j then Rsum (col i W) * nth i N 0 else 0 in
      -1 * (H2 - d))
      (seq 0 K))
    (seq 0 K).

Definition mbar_hessian (u_kn : mat) (N_k f_k : vec) : result mat :=
  '(u_kn, N_k, f_k) <- validate_inputs u_kn N_k f_k ;;
  W <- mbar_W_nk u_kn N_k f_k ;;
  Ok (hessian_from_W W N_k).

(** Adding [y[n]] to every entry of column [n]: [u_kn + y] with [y] of shape
    (n_samples,). *)
Definition add_cols (u : mat) (y : vec) : mat := map (fun uk => zipWith Rplus uk y) u.
Definition sub_cols (u : mat) (y : vec) : mat := map (fun uk => zipWith Rminus uk y) u.

(** [u_kn.min(0)]: the minimum over the states, per sample. *)
Definition min0 (u : mat) : vec := map (fun n => amin (col n u)) (seq 0 (n_samples u)).

Definition precondition_u_kn (u_kn : mat) (N_k f_k : vec) : result mat :=
  '(u_kn, N_k, f_k) <- validate_inputs u_kn N_k f_k ;;
  let u_kn := sub_cols u_kn (min0 u_kn) in
  let u_kn := add_cols u_kn
      (map (fun l => l - dot N_k f_k / Rsum N_k) (log_denominator_n u_kn N_k f_k)) in
  Ok u_kn.

(** ** Output, warnings and the debugger *)

(** A float64 scalar that may come out of a division: a real number, an
    infinity or NaN. *)
Inductive npfloat : Type :=
| Finite (x : R)
| PosInf
| NegInf
| NaN.

(** The lines the solvers print, by the statement that prints them. *)
Inductive message : Type :=
| MsgDetermining
| MsgToleranceTooTight
| MsgGradientNorms (gnorm_sci gnorm_nr : R)
| MsgChoosingSCI (iteration : nat)
| MsgChoosingSCILower (iteration : nat)
| MsgNewtonUsed (iteration : nat)
| MsgConverged (max_delta : npfloat) (iterations : nat)
| MsgIterationCounts (iterations nr sci : nat)
| MsgAllZero
| MsgDidNotConverge
| MsgMaxDelta (max_delta : npfloat) (tol : R) (maximum_iterations : Z) (completed : nat)
| MsgWeightsConverged.

Inductive event : Type :=
| Stdout (m : message)        (* print(...) *)
| Warn                        (* a numpy RuntimeWarning is issued *)
| ShowWarning                 (* warnings.showwarning(...) *)
| PdbSetTrace.                (* pdb.set_trace(): the process stops at the
                                 debugger prompt and waits for a command *)

(** A computation that prints, warns or stops at the debugger on its way to a
    value or an exception.  The debugger session is taken to end with the
    command [continue]. *)
Definition prog (A : Type) : Type := (list event * result A)%type.

Definition pret {A : Type} (a : A) : prog A := ([], Ok a).
Definition praise {A : Type} (e : exn) : prog A := ([], Raise e).
Definition lift {A : Type} (r : result A) : prog A := ([], r).
Definition emit (e : event) : prog unit := ([e], Ok tt).

Definition pbind {A B : Type} (m : prog A) (k : A -> prog B) : prog B :=
  match m with
  | (t, Ok a) => let (t', r) := k a in (t ++ t', r)
  | (t, Raise e) => (t, Raise e)
  end.

Notation "x <~ m ;; k" := (pbind m (fun x => k))
  (at level 61, m at next level, right associativity).
Notation "' p <~ m ;; k" := (pbind m (fun x => let p := x in k))
  (at level 61, p pattern, m at next level, right associativity).

Definition when (b : bool) (m : prog unit) : prog unit := if b then m else pret tt.

(** ** numpy scalars *)

Definition Rltb (x y : R) : bool := if Rlt_dec x y then true else false.
Definition Reqb (x y : R) : bool := if Req_dec_T x y then true else false.

(** [d / m] on float64 scalars whose values are the reals [d] and [m]. *)
Definition np_divide (d m : R) : npfloat :=
  if Reqb m 0 then
    if Reqb d 0 then NaN else if Rltb 0 d then PosInf else NegInf
  else Finite (d / m).

Definition np_isnan (x : npfloat) : bool :=
  match x with NaN => true | _ => false end.

(** [x < t] for a finite [t]; every comparison with NaN is false. *)
Definition np_lt (x : npfloat) (t : R) : bool :=
  match x with
  | Finite v => Rltb v t
  | NegInf => true
  | PosInf | NaN => false
  end.

(** [v[0]]. *)
Definition index0 (v : vec) : result R :=
  match v with
  | [] => Raise IndexError
  | x :: _ => Ok x
  end.

(** [np.max(v)]: an empty array has no maximum. *)
Definition np_max (v : vec) : result R :=
  match v with
  | [] => Raise ValueError
  | _ :: _ => Ok (amax v)
  end.

(** ** The adaptive solver *)

(** The [options] dictionary of [adaptive]; a key that is absent is [None]. *)
Record options : Type := mkOptions {
  opt_verbose : option bool;
  opt_maximum_iterations : option Z;
  opt_print_warning : option bool;
  opt_gamma : option R
}.

Definition setdefault {A : Type} (o : option A) (d : A) : A :=
  match o with
  | Some a => a
  | None => d
  end.

(** The local variables of [adaptive] that live across iterations.  [None]
    is a name that is not bound yet. *)
Record loop_state : Type := mkState {
  f_k : vec;
  f_old : option vec;
  nr_iter : nat;
  sci_iter : nat;
  max_delta : option npfloat;
  iteration : option nat
}.

Section Adaptive.

(** [np.linalg.lstsq(H, g, rcond=-1)[0]]: numpy's least-squares solver, not
    part of the repository.  In exact arithmetic a least-squares solution
    always exists, so it is a total function here. *)
Variable lstsq : mat -> vec -> vec.

(** The two candidates of one iteration and the squared gradient norms at
    them, in the order the source computes them. *)
Definition candidates (gamma : R) (u_kn : mat) (N_k f_k : vec)
  : result (vec * vec * R * R) :=
  g <- mbar_gradient u_kn N_k f_k ;;
  H <- mbar_hessian u_kn N_k f_k ;;
  let Hinvg := lstsq H g in
  h0 <- index0 Hinvg ;;
  let Hinvg := map (fun x => x - h0) Hinvg in
  let f_nr := vsub f_k (map (fun x => gamma * x) Hinvg) in
  f_sci <- self_consistent_update u_kn N_k f_k ;;
  s0 <- index0 f_sci ;;
  let f_sci := map (fun x => x - s0) f_sci in
  g_sci <- mbar_gradient u_kn N_k f_sci ;;
  let gnorm_sci := dot g_sci g_sci in
  g_nr <- mbar_gradient u_kn N_k f_nr ;;
  let gnorm_nr := dot g_nr g_nr in
  Ok (f_sci, f_nr, gnorm_sci, gnorm_nr).

(** The test that ends the loop. *)
Definition converged (max_delta : npfloat) (tol : R) : bool :=
  np_isnan max_delta || np_lt max_delta tol.

(** One pass through the body of the [for] loop; the boolean is [true] when
    the body ends in [break]. *)
Definition adaptive_iteration (verbose : bool) (gamma tol : R)
    (u_kn : mat) (N_k : vec) (i : nat) (st : loop_state)
  : prog (loop_state * bool) :=
  '(f_sci, f_nr, gnorm_sci, gnorm_nr) <~ lift (candidates gamma u_kn N_k (f_k st)) ;;
  _ <~ when verbose (emit (Stdout (MsgGradientNorms gnorm_sci gnorm_nr))) ;;
  let f_old := f_k st in
  '(f_new, nr, sci) <~
     (if Rltb gnorm_sci gnorm_nr || (sci_iter st <? 2)%nat then
        let sci := S (sci_iter st) in
        _ <~ when verbose
               (emit (Stdout (if (sci <? 2)%nat then MsgChoosingSCI i
                              else MsgChoosingSCILower i))) ;;
        pret (f_sci, nr_iter st, sci)
      else
        _ <~ when verbose (emit (Stdout (MsgNewtonUsed i))) ;;
        pret (f_nr, S (nr_iter st), sci_iter st)) ;;
  num <~ lift (np_max (map Rabs (vsub (tl f_new) (tl f_old)))) ;;
  den <~ lift (np_max (map Rabs (tl f_new))) ;;
  _ <~ when (Reqb den 0) (emit Warn) ;;
  let md := np_divide num den in
  pret (mkState f_new (Some f_old) nr sci (Some md) (Some i), converged md tol).

(** [for iteration in range(0, maximum_iterations)] with its [break]; the
    boolean is [doneIterating]. *)
Fixpoint adaptive_loop (verbose : bool) (gamma tol : R) (u_kn : mat) (N_k : vec)
    (its : list nat) (st : loop_state) : prog (loop_state * bool) :=
  match its with
  | [] => pret (st, false)
  | i :: rest =>
      '(st', brk) <~ adaptive_iteration verbose gamma tol u_kn N_k i st ;;
      if brk then pret (st', true)
      else adaptive_loop verbose gamma tol u_kn N_k rest st'
  end.

Definition all_zero (v : vec) : bool := forallb (fun x => Reqb x 0) v.

Definition adaptive (u_kn : mat) (N_k f_k0 : vec) (tol : R) (opts : option options)
  : prog vec :=
  match opts with
  | None => praise AttributeError       (* options.setdefault on None *)
  | Some o =>
      let verbose := setdefault (opt_verbose o) false in
      let maximum_iterations := setdefault (opt_maximum_iterations o) 250%Z in
      let gamma := setdefault (opt_gamma o) 1 in
      _ <~ when verbose (emit (Stdout MsgDetermining)) ;;
      _ <~ emit PdbSetTrace ;;
      test1 <~ lift (mbar_W_nk u_kn N_k f_k0) ;;
      _ <~ when (Rltb tol (15 / 10 ^ 16)) (emit (Stdout MsgToleranceTooTight)) ;;
      let st0 := mkState f_k0 None 0 0 None None in
      '(st, doneIterating) <~
         adaptive_loop verbose gamma tol u_kn N_k
                       (seq 0 (Z.to_nat maximum_iterations)) st0 ;;
      _ <~ (if doneIterating then
              when verbose
                (match max_delta st, iteration st with
                 | Some md, Some it =>
                     _ <~ emit (Stdout (MsgConverged md (it + 1))) ;;
                     _ <~ emit (Stdout (MsgIterationCounts (it + 1)
                                          (nr_iter st) (sci_iter st))) ;;
                     when (all_zero (f_k st)) (emit (Stdout MsgAllZero))
                 | _, _ => praise UnboundLocalError
                 end)
            else
              _ <~ emit (Stdout MsgDidNotConverge) ;;
              match max_delta st, iteration st with
              | Some md, Some it =>
                  emit (Stdout (MsgMaxDelta md tol maximum_iterations it))
              | _, _ => praise UnboundLocalError
              end) ;;
      pret (f_k st)
  end.

End Adaptive.

(** ** Arrays in memory *)

(** A numpy array object is a cell of the heap; a Python variable that holds
    an array holds the location of its cell.  An expression that builds a
    new array allocates; an augmented assignment ([+=], [-=], [*=]) and an
    indexed assignment ([x[i] = v]) overwrite the cell the variable refers
    to. *)
Inductive ndarray : Type :=
| Arr1 (v : vec)
| Arr2 (m : mat).

Definition loc := nat.
Definition heap := list ndarray.

Record outcome (A : Type) : Type := mkOutcome {
  out_trace : list event;
  out_heap : heap;
  out_result : result A
}.
Arguments mkOutcome {A} _ _ _.

Definition hprog (A : Type) : Type := heap -> outcome A.

Definition hret {A : Type} (a : A) : hprog A := fun h => mkOutcome [] h (Ok a).
Definition hraise {A : Type} (e : exn) : hprog A := fun h => mkOutcome [] h (Raise e).

Definition hbind {A B : Type} (m : hprog A) (k : A -> hprog B) : hprog B :=
  fun h =>
    let o := m h in
    match out_result o with
    | Ok a =>
        let o' := k a (out_heap o) in
        mkOutcome (out_trace o ++ out_trace o') (out_heap o') (out_result o')
    | Raise e => mkOutcome (out_trace o) (out_heap o) (Raise e)
    end.

Notation "x <== m ;; k" := (hbind m (fun x => k))
  (at level 61, m at next level, right associativity).
Notation "' p <== m ;; k" := (hbind m (fun x => let p := x in k))
  (at level 61, p pattern, m at next level, right associativity).

(** A computation that does not touch the heap. *)
Definition hlift {A : Type} (p : prog A) : hprog A :=
  fun h => mkOutcome (fst p) h (snd p).

Definition alloc (a : ndarray) : hprog loc :=
  fun h => mkOutcome [] (h ++ [a]) (Ok (length h)).

(** Reading a 1-D (2-D) array; an array of the wrong rank fails the shape
    check of [ensure_type]. *)
Definition load1 (l : loc) : hprog vec :=
  fun h =>
    match nth_error h l with
    | Some (Arr1 v) => mkOutcome [] h (Ok v)
    | _ => mkOutcome [] h (Raise ShapeError)
    end.

Definition load2 (l : loc) : hprog mat :=
  fun h =>
    match nth_error h l with
    | Some (Arr2 m) => mkOutcome [] h (Ok m)
    | _ => mkOutcome [] h (Raise ShapeError)
    end.

Fixpoint list_set {A : Type} (l : nat) (a : A) (h : list A) : list A :=
  match h, l with
  | [], _ => []
  | _ :: t, O => a :: t
  | x :: t, S l' => x :: list_set l' a t
  end.

(** Overwriting the contents of the cell at [l]. *)
Definition store (l : loc) (a : ndarray) : hprog unit :=
  fun h => mkOutcome [] (list_set l a h) (Ok tt).

(** [validate_inputs] on arrays in memory: [ensure_type] hands back the array
    it was given when the type already fits, so the three names keep
    referring to the caller's arrays. *)
Definition validate_inputs_mem (u_kn N_k f_k : loc) : hprog (loc * loc * loc) :=
  u <== load2 u_kn ;;
  N <== load1 N_k ;;
  f <== load1 f_k ;;
  _ <== hlift (lift (validate_inputs u N f)) ;;
  hret (u_kn, N_k, f_k).

(** [precondition_u_kn], statement by statement:
    [u_kn = u_kn - u_kn.min(0)] builds a new array, and
    [u_kn += logsumexp(...) - N_k.dot(f_k) / float(N_k.sum())] updates that
    new array in place. *)
Definition precondition_u_kn_mem (u_kn N_k f_k : loc) : hprog loc :=
  '(u_kn, N_k, f_k) <== validate_inputs_mem u_kn N_k f_k ;;
  u <== load2 u_kn ;;
  u_kn <== alloc (Arr2 (sub_cols u (min0 u))) ;;
  u <== load2 u_kn ;;
  N <== load1 N_k ;;
  f <== load1 f_k ;;
  _ <== store u_kn
        (Arr2 (add_cols u (map (fun l => l - dot N f / Rsum N)
                               (log_denominator_n u N f)))) ;;
  hret u_kn.

(** ** The solver drivers *)

(** What [solve_mbar_once] returns as [results]: for the adaptive method the
    array it also returns as [f_k], for a scipy method the [x] entry of
    scipy's result object. *)
Inductive solver_results : Type :=
| ResAdaptive (f : loc)
| ResScipy (x : vec).

(** One stage of a protocol: the keyword arguments [solve_mbar] passes to
    [solve_mbar_once] with [**options]; an absent key is [None]. *)
Record stage : Type := mkStage {
  stage_method : option string;
  stage_tol : option R;
  stage_options : option options
}.

Definition DEFAULT_SUBSAMPLING_PROTOCOL : list stage :=
  [mkStage (Some "adaptive"%string) None None].
Definition DEFAULT_SOLVER_PROTOCOL : list stage :=
  [mkStage (Some "adaptive"%string) None None].

Inductive log_entry : Type :=
| LogResults (r : solver_results)
| LogGradientNorm (x : R).

Definition mem_string (s : string) (l : list string) : bool :=
  existsb (String.eqb s) l.

Definition minimizers : list string :=
  ["L-BFGS-B"; "dogleg"; "CG"; "BFGS"; "Newton-CG"; "TNC"; "trust-ncg"; "SLSQP"]%string.

Definition is_warn (e : event) : bool :=
  match e with Warn => true | _ => false end.

(** [with warnings.catch_warnings(record=True) as w]: the warnings issued by
    the body are recorded instead of shown; the value comes with [len(w)]. *)
Definition catch_warnings {A : Type} (p : prog A) : prog (A * nat) :=
  (filter (fun e => negb (is_warn e)) (fst p),
   match snd p with
   | Ok a => Ok (a, length (filter is_warn (fst p)))
   | Raise e => Raise e
   end).

(** [np.where(N_k > 0)[0]]. *)
Definition where_positive (N : vec) : list nat :=
  filter (fun k => positive (nth k N 0)) (seq 0 (length N)).

(** [x[idx]] with an index array: a new array. *)
Definition take1 (idx : list nat) (x : vec) : result vec :=
  if forallb (fun k => (k <? length x)%nat) idx
  then Ok (map (fun k => nth k x 0) idx)
  else Raise IndexError.

Definition take2 (idx : list nat) (x : mat) : result mat :=
  if forallb (fun k => (k <? length x)%nat) idx
  then Ok (map (fun k => nth k x []) idx)
  else Raise IndexError.

(** The contents of [x] after [x[idx] = vals]. *)
Definition assign_at (idx : list nat) (vals x : vec) : result vec :=
  if negb (forallb (fun k => (k <? length x)%nat) idx) then Raise IndexError
  else if (length vals =? length idx)%nat then
    Ok (fold_left (fun acc kv => list_set (fst kv) (snd kv) acc) (combine idx vals) x)
  else if (length vals =? 1)%nat then
    Ok (fold_left (fun acc k => list_set k (hd 0 vals) acc) idx x)
  else Raise ValueError.

(** [np.unique(x_kindices, return_inverse=True)[1]]: the rank of each label
    among the distinct labels. *)
Definition unique_inverse (x : list Z) : list nat :=
  map (fun v => length (nodup Z.eq_dec (filter (fun y => (y <? v)%Z) x))) x.

(** [N_k0 // subsampling] followed by
    [N_k[(N_k == 0) & (N_k0 > 0)] = 1]. *)
Definition subsampled_counts (N_k0 : vec) (subsampling : Z) : vec :=
  map (fun x =>
         let q := IZR (Int_part (x / IZR subsampling)) in
         if Reqb q 0 && positive x then 1 else q)
      N_k0.

Section Drivers.

Variable lstsq : mat -> vec -> vec.

(** [scipy.optimize.minimize(grad_and_obj, x0, jac=True, hess=hess, method=...,
    tol=..., options=...)["x"]] and [scipy.optimize.root(grad, x0, jac=hess,
    ...)["x"]]: scipy code, outside the repository. *)
Variable scipy_minimize :
  (vec -> result (R * vec)) -> option (vec -> result mat) -> vec ->
  string -> R -> option options -> prog vec.
Variable scipy_root :
  (vec -> result vec) -> (vec -> result mat) -> vec ->
  string -> R -> option options -> prog vec.

(** [check_w_normalized] of [pymbar.utils], not part of the sources: it
    returns or raises. *)
Variable check_w_normalized : mat -> vec -> result unit.

(** [np.random.choice(population, size=size, replace=False)] for state [k]. *)
Variable random_choice : nat -> list nat -> nat -> result (list nat).

Definition solve_mbar_once (u_kn_nonzero N_k_nonzero f_k_nonzero : loc)
    (method : string) (tol : R) (opts : option options)
  : hprog (loc * solver_results) :=
  '(u_kn_nonzero, N_k_nonzero, f_k_nonzero) <==
     validate_inputs_mem u_kn_nonzero N_k_nonzero f_k_nonzero ;;
  f <== load1 f_k_nonzero ;;
  f0 <== hlift (lift (index0 f)) ;;
  f_k_nonzero <== alloc (Arr1 (map (fun x => x - f0) f)) ;;
  u_kn_nonzero <== precondition_u_kn_mem u_kn_nonzero N_k_nonzero f_k_nonzero ;;
  u <== load2 u_kn_nonzero ;;
  N <== load1 N_k_nonzero ;;
  f <== load1 f_k_nonzero ;;
  let pad (x : vec) := 0 :: x in
  let grad x := g <- mbar_gradient u N (pad x) ;; Ok (tl g) in
  let grad_and_obj x :=
    og <- mbar_objective_and_gradient u N (pad x) ;; Ok (fst og, tl (snd og)) in
  let hess x := H <- mbar_hessian u N (pad x) ;; Ok (map (@tl R) (tl H)) in
  '(f_k_nonzero, results, w) <==
     (if mem_string method minimizers then
        let hess := if mem_string method ["L-BFGS-B"; "CG"]%string
                    then None else Some hess in
        xw <== hlift (catch_warnings
                        (scipy_minimize grad_and_obj hess (tl f) method tol opts)) ;;
        l <== alloc (Arr1 (pad (fst xw))) ;;
        hret (l, ResScipy (fst xw), snd xw)
      else if String.eqb method "adaptive" then
        rw <== hlift (catch_warnings (adaptive lstsq u N f tol opts)) ;;
        l <== alloc (Arr1 (fst rw)) ;;
        hret (l, ResAdaptive l, snd rw)
      else
        xw <== hlift (catch_warnings
                        (scipy_root grad hess (tl f) method tol opts)) ;;
        l <== alloc (Arr1 (pad (fst xw))) ;;
        hret (l, ResScipy (fst xw), snd xw)) ;;
  _ <== (if (0 <? w)%nat then
           _ <== hlift (repeat ShowWarning w, Ok tt) ;;
           fr <== load1 f_k_nonzero ;;
           W_nk_check <== hlift (lift (mbar_W_nk u N fr)) ;;
           _ <== hlift (lift (check_w_normalized W_nk_check N)) ;;
           hlift (emit (Stdout MsgWeightsConverged))
         else hret tt) ;;
  hret (f_k_nonzero, results).

(** The [for] loop of [solve_mbar]. *)
Fixpoint solve_mbar_stages (u_kn_nonzero N_k_nonzero : loc) (protocol : list stage)
    (f_k_nonzero : loc) (all_results : list log_entry)
  : hprog (loc * list log_entry) :=
  match protocol with
  | [] => hret (f_k_nonzero, all_results)
  | o :: rest =>
      fr <== solve_mbar_once u_kn_nonzero N_k_nonzero f_k_nonzero
               (setdefault (stage_method o) "hybr"%string)
               (setdefault (stage_tol o) (1 / 10 ^ 12))
               (stage_options o) ;;
      u <== load2 u_kn_nonzero ;;
      N <== load1 N_k_nonzero ;;
      f <== load1 (fst fr) ;;
      g <== hlift (lift (mbar_gradient u N f)) ;;
      solve_mbar_stages u_kn_nonzero N_k_nonzero rest (fst fr)
        (all_results ++ [LogResults (snd fr); LogGradientNorm (sqrt (dot g g))])
  end.

Definition solve_mbar (u_kn_nonzero N_k_nonzero f_k_nonzero : loc)
    (solver_protocol : option (list stage)) : hprog (loc * list log_entry) :=
  solve_mbar_stages u_kn_nonzero N_k_nonzero
    (setdefault solver_protocol DEFAULT_SOLVER_PROTOCOL) f_k_nonzero [].

(** The sample indices [subsample_data] draws, state by state. *)
Fixpoint draw_samples (u_kn0 : mat) (N_k : vec) (s_n : list nat) (ks : list nat)
  : result (list (list nat)) :=
  match ks with
  | [] => Ok []
  | k :: rest =>
      if Rle_dec (nth k N_k 0) 0 then draw_samples u_kn0 N_k s_n rest
      else
        samples <- random_choice k
                     (filter (fun n => (nth n s_n 0 =? k)%nat) (seq 0 (length s_n)))
                     (Z.to_nat (Int_part (nth k N_k 0))) ;;
        (if forallb (fun i => (i <? n_samples u_kn0)%nat) samples
         then more <- draw_samples u_kn0 N_k s_n rest ;; Ok (samples :: more)
         else Raise IndexError)
  end.

(** [subsample_data] with its defaults [rescale=False, replace=False], as
    [solve_mbar_with_subsampling] calls it. *)
Definition subsample_data (u_kn0 : mat) (N_k0 : vec) (s_n : list nat)
    (subsampling : Z) : result (mat * vec) :=
  let n_states := length N_k0 in
  let N_k := subsampled_counts N_k0 subsampling in
  chosen <- draw_samples u_kn0 N_k s_n (seq 0 n_states) ;;
  Ok (map (fun row =>
             concat (map (fun samples => map (fun i => nth i row 0 * 1 + 0) samples)
                         chosen))
          u_kn0,
      N_k).

(** [solve_mbar(u_kn[states], N_k[states], f_k[states], solver_protocol=...)]:
    the three index expressions build new arrays. *)
Definition solve_mbar_on (states : list nat) (u_kn N_k f_k : loc)
    (protocol : option (list stage)) : hprog (loc * list log_entry) :=
  u <== load2 u_kn ;;
  us <== hlift (lift (take2 states u)) ;;
  lu <== alloc (Arr2 us) ;;
  N <== load1 N_k ;;
  Ns <== hlift (lift (take1 states N)) ;;
  lN <== alloc (Arr1 Ns) ;;
  f <== load1 f_k ;;
  fs <== hlift (lift (take1 states f)) ;;
  lf <== alloc (Arr1 fs) ;;
  solve_mbar lu lN lf protocol.

(** [f_k[states_with_samples] = f_k_nonzero]: the array [f_k] refers to is
    updated in place. *)
Definition assign_mem (f_k : loc) (states : list nat) (f_k_nonzero : loc)
  : hprog unit :=
  vals <== load1 f_k_nonzero ;;
  f <== load1 f_k ;;
  f' <== hlift (lift (assign_at states vals f)) ;;
  store f_k (Arr1 f').

Definition solve_mbar_with_subsampling (u_kn N_k f_k : loc)
    (solver_protocol subsampling_protocol : option (list stage))
    (subsampling : option Z) (x_kindices : option (list Z)) : hprog loc :=
  N <== load1 N_k ;;
  let states_with_samples := where_positive N in
  f_k_nonzero <==
    (if (length states_with_samples =? 1)%nat then alloc (Arr1 [0])
     else
       fr <==
         (match subsampling, x_kindices with
          | Some s, Some x =>
              if (1 <? s)%Z then
                let s_n := unique_inverse x in
                u <== load2 u_kn ;;
                us <== hlift (lift (take2 states_with_samples u)) ;;
                lu <== alloc (Arr2 us) ;;
                N <== load1 N_k ;;
                Ns <== hlift (lift (take1 states_with_samples N)) ;;
                lN <== alloc (Arr1 Ns) ;;
                sub <== hlift (lift (subsample_data us Ns s_n s)) ;;
                u_kn_subsampled <== alloc (Arr2 (fst sub)) ;;
                N_k_subsampled <== alloc (Arr1 (snd sub)) ;;
                f <== load1 f_k ;;
                fs <== hlift (lift (take1 states_with_samples f)) ;;
                lf <== alloc (Arr1 fs) ;;
                solve_mbar u_kn_subsampled N_k_subsampled lf subsampling_protocol
              else
                solve_mbar_on states_with_samples u_kn N_k f_k subsampling_protocol
          | _, _ =>
              solve_mbar_on states_with_samples u_kn N_k f_k subsampling_protocol
          end) ;;
       _ <== assign_mem f_k states_with_samples (fst fr) ;;
       fr <== solve_mbar_on states_with_samples u_kn N_k f_k solver_protocol ;;
       hret (fst fr)) ;;
  _ <== assign_mem f_k states_with_samples f_k_nonzero ;;
  (* Update all free energies because those from states with zero samples are
     not correctly computed by Newton-Raphson. *)
  u <== load2 u_kn ;;
  N <== load1 N_k ;;
  f <== load1 f_k ;;
  r <== hlift (lift (self_consistent_update u N f)) ;;
  f_k <== alloc (Arr1 r) ;;
  r0 <== hlift (lift (index0 r)) ;;
  _ <== store f_k (Arr1 (map (fun x => x - r0) r)) ;;
  hret f_k.

End Drivers.

(** * Definitions for the statements *)

(** ** Quantities of the core functions *)

(** [sum_i w[i] * exp(a[i])], the quantity [logsumexp] takes the logarithm of. *)
Definition wexp (w a : vec) : R := Rsum (zipWith (fun wi ai => wi * exp ai) w a).

(** The inputs the core functions are specified on: consistent shapes, at
    least one sample, non-negative counts and at least one populated state. *)
Definition valid_inputs (u : mat) (N f : vec) : Prop :=
  shapes_ok u N f = true /\ (0 < n_samples u)%nat /\
  Forall (fun x => 0 <= x) N /\ Exists (fun x => 0 < x) N.

(** Row [n] of the log-weight matrix. *)
Definition log_W_row (u : mat) (N f : vec) (n : nat) : vec :=
  map (fun t => t - logsumexp (vsub f (col n u)) (Some N)) (vsub f (col n u)).

(** The array [precondition_u_kn] returns. *)
Definition preconditioned (u : mat) (N f : vec) : mat :=
  let u1 := sub_cols u (min0 u) in
  add_cols u1 (map (fun l => l - dot N f / Rsum N) (log_denominator_n u1 N f)).

(** [sum_n N[k] * W[n][k]], the weighted column sum of the normalisation
    invariant. *)
Definition weighted_column_sum (W : mat) (N : vec) (k : nat) : R :=
  Rsum (map (fun w => nth k N 0 * nth k w 0) W).

(** The two arrays [mbar_gradient], [mbar_objective_and_gradient] and
    [mbar_log_W_nk] hand to [logsumexp] for sample [n]: the exponents
    [(f_k - u_kn.T)[n]] and the weights [b = N_k], one entry per state. *)
Definition denominator_operands (u : mat) (N f : vec) (n : nat) : vec * vec :=
  (vsub f (col n u), N).

(** The two arrays [self_consistent_update] hands to [logsumexp]: the same
    after the boolean mask [N_k > 0] has been applied to the states. *)
Definition masked_denominator_operands (u : mat) (N f : vec) (n : nat) : vec * vec :=
  let m := states_with_samples N in
  (vsub (select m f) (col n (select m u)), select m N).

Definition reduce_denominator (ops : vec * vec) : R :=
  logsumexp (fst ops) (Some (snd ops)).

(** The sum [logsumexp] takes the logarithm of, after it has subtracted the
    largest exponent from each exponent. *)
Definition shifted_sum (ops : vec * vec) : R :=
  Rsum (zipWith (fun wi ai => wi * exp (ai - amax (fst ops))) (snd ops) (fst ops)).

(** The per-sample denominators after the zero-count rows are deleted. *)
Definition masked_log_denominator_n (u : mat) (N f : vec) : vec :=
  map (fun n => reduce_denominator (masked_denominator_operands u N f n))
      (seq 0 (n_samples u)).

(** ** Effects on the heap *)

(** [frame n P Q m]: started on a heap with at least [n] cells, [m] leaves
    every cell below [n] that is not in [P] as it was, never shrinks the
    heap, and returns a value in [Q]. *)
Definition frame {A : Type} (n : nat) (P : loc -> Prop) (Q : A -> Prop)
    (m : hprog A) : Prop :=
  forall h, (n <= length h)%nat ->
    (length h <= length (out_heap (m h)))%nat /\
    (forall l, (l < n)%nat -> ~ P l ->
               nth_error (out_heap (m h)) l = nth_error h l) /\
    (forall a, out_result (m h) = Ok a -> Q a).

(** ** Instances of the external routines *)

(** Stand-ins for the routines outside the repository, for evaluating calls
    that never reach them or whose result does not depend on them. *)
Definition lstsq0 : mat -> vec -> vec := fun _ g => g.
Definition scipy_minimize0 :
  (vec -> result (R * vec)) -> option (vec -> result mat) -> vec ->
  string -> R -> option options -> prog vec := fun _ _ x _ _ _ => pret x.
Definition scipy_root0 :
  (vec -> result vec) -> (vec -> result mat) -> vec ->
  string -> R -> option options -> prog vec := fun _ _ x _ _ _ => pret x.
Definition check_w_normalized0 : mat -> vec -> result unit := fun _ _ => Ok tt.
Definition random_choice0 : nat -> list nat -> nat -> result (list nat) :=
  fun _ population size => Ok (firstn size population).

(** ** The two halves of [solve_mbar_once] *)

(** What [solve_mbar_once] does once [f_k_nonzero] is re-anchored and
    [u_kn_nonzero] preconditioned, on these arrays [u], [N], [f]: the
    closures it builds and the solver it calls for [method], inside
    [warnings.catch_warnings].  The value is the new [f_k_nonzero], [results]
    and [len(w)]. *)
Definition solver_call
    (lstsq : mat -> vec -> vec)
    (scipy_minimize : (vec -> result (R * vec)) -> option (vec -> result mat) ->
                      vec -> string -> R -> option options -> prog vec)
    (scipy_root : (vec -> result vec) -> (vec -> result mat) -> vec ->
                  string -> R -> option options -> prog vec)
    (u : mat) (N f : vec) (method : string) (tol : R) (opts : option options)
  : hprog (loc * solver_results * nat) :=
  let pad (x : vec) := 0 :: x in
  let grad x := g <- mbar_gradient u N (pad x) ;; Ok (tl g) in
  let grad_and_obj x :=
    og <- mbar_objective_and_gradient u N (pad x) ;; Ok (fst og, tl (snd og)) in
  let hess x := H <- mbar_hessian u N (pad x) ;; Ok (map (@tl R) (tl H)) in
  if mem_string method minimizers then
    let hess := if mem_string method ["L-BFGS-B"; "CG"]%string
                then None else Some hess in
    xw <== hlift (catch_warnings
                    (scipy_minimize grad_and_obj hess (tl f) method tol opts)) ;;
    l <== alloc (Arr1 (pad (fst xw))) ;;
    hret (l, ResScipy (fst xw), snd xw)
  else if String.eqb method "adaptive" then
    rw <== hlift (catch_warnings (adaptive lstsq u N f tol opts)) ;;
    l <== alloc (Arr1 (fst rw)) ;;
    hret (l, ResAdaptive l, snd rw)
  else
    xw <== hlift (catch_warnings
                    (scipy_root grad hess (tl f) method tol opts)) ;;
    l <== alloc (Arr1 (pad (fst xw))) ;;
    hret (l, ResScipy (fst xw), snd xw).

(** The end of [solve_mbar_once]: the recorded warnings are shown and the
    weights checked when there are any, and the pair is returned. *)
Definition after_solver (check_w_normalized : mat -> vec -> result unit)
    (u : mat) (N : vec) (x : loc * solver_results * nat)
  : hprog (loc * solver_results) :=
  let '(f_k_nonzero, results, w) := x in
  _ <== (if (0 <? w)%nat then
           _ <== hlift (repeat ShowWarning w, Ok tt) ;;
           fr <== load1 f_k_nonzero ;;
           W_nk_check <== hlift (lift (mbar_W_nk u N fr)) ;;
           _ <== hlift (lift (check_w_normalized W_nk_check N)) ;;
           hlift (emit (Stdout MsgWeightsConverged))
         else hret tt) ;;
  hret (f_k_nonzero, results).

(** ** The passes of the adaptive loop *)

(** An estimate with one entry per state. *)
Definition good (u : mat) (f : vec) : Prop := length f = length u.

(** The quantity the loop tests,
    [max(|f_k[1:] - f_old[1:]|) / max(|f_k[1:]|)], for the new estimate
    [f_new] and the previous one [f_prev]. *)
Definition relative_change (f_new f_prev : vec) : npfloat :=
  np_divide (amax (map Rabs (vsub (tl f_new) (tl f_prev))))
            (amax (map Rabs (tl f_new))).

(** The local variables at the end of pass [i], given the candidates the pass
    computed. *)
Definition selected (c : vec * vec * R * R) (i : nat) (st : loop_state) : loop_state :=
  let '(f_sci, f_nr, gnorm_sci, gnorm_nr) := c in
  let pick := Rltb gnorm_sci gnorm_nr || (sci_iter st <? 2)%nat in
  let f_new := if pick then f_sci else f_nr in
  mkState f_new (Some (f_k st))
          (if pick then nr_iter st else S (nr_iter st))
          (if pick then S (sci_iter st) else sci_iter st)
          (Some (relative_change f_new (f_k st))) (Some i).

(** What pass [i] prints, and the warning numpy issues when the division of
    the test is by zero. *)
Definition printed (verbose : bool) (c : vec * vec * R * R) (i : nat)
    (st : loop_state) : list event :=
  let '(f_sci, f_nr, gnorm_sci, gnorm_nr) := c in
  let pick := Rltb gnorm_sci gnorm_nr || (sci_iter st <? 2)%nat in
  let f_new := if pick then f_sci else f_nr in
  (if verbose then [Stdout (MsgGradientNorms gnorm_sci gnorm_nr)] else []) ++
  (if verbose
   then [Stdout (if pick
                 then if (S (sci_iter st) <? 2)%nat
                      then MsgChoosingSCI i else MsgChoosingSCILower i
                 else MsgNewtonUsed i)]
   else []) ++
  (if Reqb (amax (map Rabs (tl f_new))) 0 then [Warn] else []) ++ [].

(** A trace without the line that reports a failure to converge. *)
Definition silent (t : list event) : Prop :=
  ~ In (Stdout MsgDidNotConverge) t.

Section Passes.

Variable lstsq : mat -> vec -> vec.
Variables (u : mat) (N : vec) (verbose : bool) (gamma tol : R).

(** The local variables after pass [i] of the loop body, started with [st]
    (left as they were when the pass raises). *)
Definition body (i : nat) (st : loop_state) : loop_state :=
  match snd (adaptive_iteration lstsq verbose gamma tol u N i st) with
  | Ok (st', _) => st'
  | Raise _ => st
  end.

(** The local variables after the passes numbered [a], ..., [a + j - 1]. *)
Definition state_after (a j : nat) (st : loop_state) : loop_state :=
  fold_left (fun s i => body i s) (seq a j) st.

End Passes.

(** The test at the end of the pass that leads from [prev] to [st]. *)
Definition stops (tol : R) (prev st : loop_state) : bool :=
  converged (relative_change (f_k st) (f_k prev)) tol.

(** ** Exceptions of a call *)

(** Every exception of the computation is in [E]. *)
Definition raises_in {A : Type} (E : exn -> Prop) (r : result A) : Prop :=
  forall e, r = Raise e -> E e.

Definition prog_raises_in {A : Type} (E : exn -> Prop) (p : prog A) : Prop :=
  raises_in E (snd p).

Definition mem_raises_in {A : Type} (E : exn -> Prop) (m : hprog A) : Prop :=
  forall h, raises_in E (out_result (m h)).

(** * Lemmas and theorems *)

(** ** Sums of exponentials *)

Section SumLemmas.

Lemma Rsum_app (a b : vec) : Rsum (a ++ b) = Rsum a + Rsum b.
Proof. induction a as [|x a IH]; simpl; [lra | rewrite IH; lra]. Qed.

Lemma Rsum_map_scale {A : Type} (c : R) (g : A -> R) (l : list A) :
  Rsum (map (fun x => c * g x) l) = c * Rsum (map g l).
Proof. induction l as [|x l IH]; simpl; [lra | rewrite IH; lra]. Qed.

Lemma Rsum_map_ext {A : Type} (g h : A -> R) (l : list A) :
  (forall x, In x l -> g x = h x) -> Rsum (map g l) = Rsum (map h l).
Proof.
  intros E. f_equal. apply map_ext_in. exact E.
Qed.

Lemma Rsum_const (c : R) (l : vec) :
  Forall (fun x => x = c) l -> Rsum l = INR (length l) * c.
Proof.
  induction 1 as [|x l Hx _ IH].
  - simpl. lra.
  - cbn [Rsum length]. rewrite S_INR, IH, Hx. lra.
Qed.

Lemma wexp_shift_out (m : R) (w a : vec) :
  Rsum (zipWith (fun wi ai => wi * exp (ai - m)) w a) = exp (- m) * wexp w a.
Proof.
  unfold wexp. revert a.
  induction w as [|x w IH]; intros [|y a]; simpl; try lra.
  rewrite IH. unfold Rminus. rewrite exp_plus. lra.
Qed.

Lemma exp_sum_shift_out (m : R) (a : vec) :
  Rsum (map (fun ai => exp (ai - m)) a) = exp (- m) * Rsum (map exp a).
Proof.
  induction a as [|y a IH]; simpl; [lra|].
  rewrite IH. unfold Rminus. rewrite exp_plus. lra.
Qed.

Lemma wexp_nonneg (w a : vec) : Forall (fun x => 0 <= x) w -> 0 <= wexp w a.
Proof.
  unfold wexp. intros H. revert a.
  induction H as [|x w Hx _ IH]; intros [|y a]; simpl; try lra.
  specialize (IH a). pose proof (exp_pos y). nra.
Qed.

Lemma wexp_pos (w a : vec) :
  Forall (fun x => 0 <= x) w -> Exists (fun x => 0 < x) w ->
  length a = length w -> 0 < wexp w a.
Proof.
  intros Hnn Hex. revert a.
  induction Hnn as [|x w Hx Hw IH]; intros a Hlen.
  - inversion Hex.
  - destruct a as [|y a]; [discriminate|].
    injection Hlen as Hlen.
    change (wexp (x :: w) (y :: a)) with (x * exp y + wexp w a).
    pose proof (exp_pos y) as Hy.
    inversion Hex as [? ? Hpos | ? ? Hrest]; subst.
    + pose proof (wexp_nonneg a Hw). nra.
    + specialize (IH Hrest a Hlen). nra.
Qed.

Lemma exp_sum_pos (a : vec) : a <> [] -> 0 < Rsum (map exp a).
Proof.
  induction a as [|y a IH]; [congruence|]. intros _.
  simpl. pose proof (exp_pos y).
  destruct a as [|z a]; [simpl; lra|].
  assert (0 < Rsum (map exp (z :: a))) by (apply IH; discriminate). lra.
Qed.

(** [logsumexp] is the logarithm of the weighted sum, whatever the shift. *)
Lemma logsumexp_weighted (a w : vec) :
  0 < wexp w a -> logsumexp a (Some w) = ln (wexp w a).
Proof.
  intros H. unfold logsumexp. rewrite wexp_shift_out.
  rewrite ln_mult by (auto using exp_pos). rewrite ln_exp. lra.
Qed.

Lemma logsumexp_plain (a : vec) :
  a <> [] -> logsumexp a None = ln (Rsum (map exp a)).
Proof.
  intros H. unfold logsumexp. rewrite exp_sum_shift_out.
  rewrite ln_mult by (auto using exp_pos, exp_sum_pos). rewrite ln_exp. lra.
Qed.

Lemma wexp_vshift (w a : vec) (c : R) :
  wexp w (vshift a c) = exp c * wexp w a.
Proof.
  unfold wexp, vshift. revert a.
  induction w as [|x w IH]; intros [|y a]; simpl; try lra.
  rewrite IH, exp_plus. lra.
Qed.

Lemma logsumexp_weighted_shift (a w : vec) (c : R) :
  0 < wexp w a ->
  logsumexp (vshift a c) (Some w) = logsumexp a (Some w) + c.
Proof.
  intros H.
  assert (0 < wexp w (vshift a c)) as H'.
  { rewrite wexp_vshift. pose proof (exp_pos c). nra. }
  rewrite !logsumexp_weighted by assumption.
  rewrite wexp_vshift, ln_mult by (auto using exp_pos). rewrite ln_exp. lra.
Qed.

Lemma logsumexp_plain_shift (a : vec) (c : R) :
  a <> [] -> logsumexp (vshift a c) None = logsumexp a None + c.
Proof.
  intros H.
  assert (vshift a c <> []) as H' by (destruct a; [congruence | discriminate]).
  rewrite !logsumexp_plain by assumption.
  unfold vshift. rewrite map_map.
  rewrite (Rsum_map_ext (fun x => exp (x + c)) (fun x => exp c * exp x))
    by (intros; rewrite exp_plus; lra).
  rewrite Rsum_map_scale, ln_mult by (auto using exp_pos, exp_sum_pos).
  rewrite ln_exp. lra.
Qed.

End SumLemmas.

(** ** Shapes *)

Section ShapeLemmas.

Lemma length_zipWith {A B C : Type} (g : A -> B -> C) (a : list A) (b : list B) :
  length (zipWith g a b) = Nat.min (length a) (length b).
Proof.
  revert b. induction a as [|x a IH]; intros [|y b]; simpl; auto.
Qed.

Lemma zipWith_map_same {A B C : Type} (g : A -> B -> C) (h : A -> B) (l : list A) :
  zipWith g l (map h l) = map (fun x => g x (h x)) l.
Proof. induction l as [|x l IH]; simpl; [reflexivity | now rewrite IH]. Qed.

Lemma zipWith_map_l {A A' B C : Type} (g : A' -> B -> C) (h : A -> A')
      (a : list A) (b : list B) :
  zipWith g (map h a) b = zipWith (fun x y => g (h x) y) a b.
Proof.
  revert b. induction a as [|x a IH]; intros [|y b]; simpl; auto. now rewrite IH.
Qed.

Lemma zipWith_map_r {A B B' C : Type} (g : A -> B' -> C) (h : B -> B')
      (a : list A) (b : list B) :
  zipWith g a (map h b) = zipWith (fun x y => g x (h y)) a b.
Proof.
  revert b. induction a as [|x a IH]; intros [|y b]; simpl; auto. now rewrite IH.
Qed.

Lemma map_zipWith {A B C D : Type} (h : C -> D) (g : A -> B -> C)
      (a : list A) (b : list B) :
  map h (zipWith g a b) = zipWith (fun x y => h (g x y)) a b.
Proof.
  revert b. induction a as [|x a IH]; intros [|y b]; simpl; auto. now rewrite IH.
Qed.

Lemma zipWith_ext {A B C : Type} (g h : A -> B -> C) (a : list A) (b : list B) :
  (forall x y, g x y = h x y) -> zipWith g a b = zipWith h a b.
Proof.
  intros E. revert b. induction a as [|x a IH]; intros [|y b]; simpl; auto.
  now rewrite E, IH.
Qed.

Lemma nth_zipWith (g : R -> R -> R) (a b : vec) (n : nat) :
  (n < length a)%nat -> (n < length b)%nat ->
  nth n (zipWith g a b) 0 = g (nth n a 0) (nth n b 0).
Proof.
  revert a b. induction n as [|n IH]; intros [|x a] [|y b] Ha Hb;
    simpl in *; try lia; auto.
  apply IH; lia.
Qed.

Lemma shapes_ok_inv (u : mat) (N f : vec) :
  shapes_ok u N f = true ->
  Forall (fun r => length r = n_samples u) u /\
  length N = length u /\ length f = length u.
Proof.
  unfold shapes_ok, rectangular, n_states. intros H.
  apply andb_prop in H as [H Hf]. apply andb_prop in H as [Hr HN].
  apply Nat.eqb_eq in Hf, HN. repeat split; auto.
  apply Forall_forall. intros r Hin.
  rewrite forallb_forall in Hr. apply Nat.eqb_eq. auto.
Qed.

Lemma shapes_ok_shift (u : mat) (N f : vec) (c : R) :
  shapes_ok u N (vshift f c) = shapes_ok u N f.
Proof. unfold shapes_ok, vshift. now rewrite length_map. Qed.

Lemma length_col (n : nat) (u : mat) : length (col n u) = length u.
Proof. unfold col. apply length_map. Qed.

Lemma length_vsub_col (u : mat) (f : vec) (n : nat) :
  length f = length u -> length (vsub f (col n u)) = length u.
Proof.
  intros H. unfold vsub. rewrite length_zipWith, length_col. lia.
Qed.

Lemma vsub_vshift (f v : vec) (c : R) :
  vsub (vshift f c) v = vshift (vsub f v) c.
Proof.
  unfold vsub, vshift. rewrite zipWith_map_l, map_zipWith.
  apply zipWith_ext. intros. lra.
Qed.

Lemma valid_nonempty (u : mat) (N f : vec) : valid_inputs u N f -> u <> [].
Proof.
  intros (_ & Hs & _) ->. simpl in Hs. lia.
Qed.

Lemma valid_denominator_pos (u : mat) (N f : vec) (n : nat) :
  valid_inputs u N f -> 0 < wexp N (vsub f (col n u)).
Proof.
  intros (Hsh & _ & Hnn & Hex).
  destruct (shapes_ok_inv _ _ _ Hsh) as (_ & HN & Hf).
  apply wexp_pos; auto. rewrite length_vsub_col; auto.
Qed.

Lemma valid_shift (u : mat) (N f : vec) (c : R) :
  valid_inputs u N f -> valid_inputs u N (vshift f c).
Proof.
  intros (Hsh & H). split; [now rewrite shapes_ok_shift | exact H].
Qed.

End ShapeLemmas.

(** ** Closed forms of the core functions on validated inputs *)

Section CoreForms.

Lemma validate_ok (u : mat) (N f : vec) :
  shapes_ok u N f = true -> validate_inputs u N f = Ok (u, N, f).
Proof. unfold validate_inputs. now intros ->. Qed.

Lemma mbar_gradient_eq (u : mat) (N f : vec) :
  shapes_ok u N f = true ->
  mbar_gradient u N f =
  Ok (gradient_of N f (log_numerator_k u (log_denominator_n u N f))).
Proof. intros H. unfold mbar_gradient. now rewrite validate_ok. Qed.

Lemma mbar_objective_and_gradient_eq (u : mat) (N f : vec) :
  shapes_ok u N f = true ->
  mbar_objective_and_gradient u N f =
  Ok (Rsum (log_denominator_n u N f) - dot N f,
      gradient_of N f (log_numerator_k u (log_denominator_n u N f))).
Proof. intros H. unfold mbar_objective_and_gradient. now rewrite validate_ok. Qed.

Lemma mbar_log_W_nk_eq (u : mat) (N f : vec) :
  shapes_ok u N f = true ->
  mbar_log_W_nk u N f = Ok (map (log_W_row u N f) (seq 0 (n_samples u))).
Proof.
  intros H. unfold mbar_log_W_nk. rewrite validate_ok by assumption. simpl.
  unfold log_denominator_n. now rewrite zipWith_map_same.
Qed.

Lemma mbar_W_nk_eq (u : mat) (N f : vec) :
  shapes_ok u N f = true ->
  mbar_W_nk u N f =
  Ok (map (fun n => map exp (log_W_row u N f n)) (seq 0 (n_samples u))).
Proof.
  intros H. unfold mbar_W_nk. rewrite mbar_log_W_nk_eq by assumption. simpl.
  now rewrite map_map.
Qed.

Lemma mbar_hessian_eq (u : mat) (N f : vec) :
  shapes_ok u N f = true ->
  mbar_hessian u N f =
  Ok (hessian_from_W
        (map (fun n => map exp (log_W_row u N f n)) (seq 0 (n_samples u))) N).
Proof.
  intros H. unfold mbar_hessian. rewrite validate_ok by assumption. simpl.
  now rewrite mbar_W_nk_eq.
Qed.

Lemma length_log_denominator_n (u : mat) (N f : vec) :
  length (log_denominator_n u N f) = n_samples u.
Proof. unfold log_denominator_n. now rewrite length_map, length_seq. Qed.

(** *** Boolean masks *)

Lemma zipWith_nil_r {A B C : Type} (g : A -> B -> C) (a : list A) :
  zipWith g a [] = [].
Proof. now destruct a. Qed.

Lemma select_map {A B : Type} (h : A -> B) (m : list bool) (x : list A) :
  select m (map h x) = map h (select m x).
Proof.
  revert x. induction m as [|b m IH]; intros [|y x]; simpl; auto.
  destruct b; simpl; now rewrite IH.
Qed.

Lemma select_zipWith {A B C : Type} (g : A -> B -> C) (m : list bool)
      (a : list A) (b : list B) :
  select m (zipWith g a b) = zipWith g (select m a) (select m b).
Proof.
  revert a b. induction m as [|c m IH]; intros [|x a] [|y b]; simpl; auto.
  - now rewrite zipWith_nil_r.
  - destruct c; simpl; now rewrite IH.
Qed.

Lemma positive_true (x : R) : 0 < x -> positive x = true.
Proof. unfold positive. intros H. destruct (Rlt_dec 0 x); [reflexivity | lra]. Qed.

Lemma positive_false (x : R) : x <= 0 -> positive x = false.
Proof. unfold positive. intros H. destruct (Rlt_dec 0 x); [lra | reflexivity]. Qed.

(** Deleting the zero-count states leaves the weighted sum unchanged. *)
Lemma wexp_select (N a : vec) :
  Forall (fun x => 0 <= x) N ->
  wexp (select (states_with_samples N) N) (select (states_with_samples N) a) = wexp N a.
Proof.
  unfold wexp, states_with_samples. intros H. revert a.
  induction H as [|x N Hx _ IH]; intros [|y a]; simpl; auto.
  - destruct (positive x); simpl; [reflexivity | now rewrite zipWith_nil_r].
  - destruct (Rlt_dec 0 x) as [Hp|Hp].
    + rewrite (positive_true Hp). simpl. now rewrite IH.
    + rewrite positive_false by lra. rewrite IH.
      assert (x = 0) as -> by lra. lra.
Qed.

Lemma masked_denominator (u : mat) (N f : vec) (n : nat) :
  valid_inputs u N f ->
  let m := states_with_samples N in
  logsumexp (vsub (select m f) (col n (select m u))) (Some (select m N)) =
  logsumexp (vsub f (col n u)) (Some N).
Proof.
  intros Hv m. pose proof (valid_denominator_pos n Hv) as Hpos.
  destruct Hv as (_ & _ & Hnn & _).
  unfold col. rewrite <- select_map. fold (col n u).
  unfold vsub. rewrite <- select_zipWith. fold (vsub f (col n u)).
  rewrite !logsumexp_weighted; unfold m; rewrite ?wexp_select; auto.
Qed.

Lemma self_consistent_update_eq (u : mat) (N f : vec) :
  valid_inputs u N f ->
  self_consistent_update u N f =
  Ok (map (fun x => -1 * x) (log_numerator_k u (log_denominator_n u N f))).
Proof.
  intros Hv. unfold self_consistent_update.
  rewrite validate_ok by apply Hv. simpl. do 3 f_equal.
  unfold log_denominator_n. apply map_ext. intros n.
  now apply masked_denominator.
Qed.

End CoreForms.

(** ** Shifting the free energies by a constant *)

Section ShiftInvariance.

Variables (u : mat) (N f : vec) (c : R).
Hypothesis Hvalid : valid_inputs u N f.

Lemma log_denominator_n_shift :
  log_denominator_n u N (vshift f c) = vshift (log_denominator_n u N f) c.
Proof.
  unfold log_denominator_n, vshift at 2. rewrite map_map.
  apply map_ext. intros n. rewrite vsub_vshift.
  apply logsumexp_weighted_shift. now apply valid_denominator_pos.
Qed.

Lemma log_numerator_k_shift (ld : vec) (d : R) :
  length ld = n_samples u ->
  log_numerator_k u (vshift ld d) = vshift (log_numerator_k u ld) (- d).
Proof.
  intros Hld. destruct Hvalid as (Hsh & Hns & _).
  destruct (shapes_ok_inv _ _ _ Hsh) as (Hrows & _ & _).
  unfold log_numerator_k, vshift at 2. rewrite map_map.
  apply map_ext_in. intros uk Hin.
  rewrite Forall_forall in Hrows. specialize (Hrows uk Hin).
  replace (zipWith (fun l x => - l - x) (vshift ld d) uk)
    with (vshift (zipWith (fun l x => - l - x) ld uk) (- d)).
  - apply logsumexp_plain_shift. intros E.
    apply (f_equal (@length R)) in E. rewrite length_zipWith in E.
    simpl in E. lia.
  - unfold vshift. rewrite zipWith_map_l, map_zipWith.
    apply zipWith_ext. intros. lra.
Qed.

Lemma gradient_of_shift (lnum : vec) :
  gradient_of N (vshift f c) (vshift lnum (- c)) = gradient_of N f lnum.
Proof.
  unfold gradient_of, vshift. f_equal.
  rewrite zipWith_map_l, zipWith_map_r.
  rewrite <- (map_id (zipWith Rplus f lnum)), map_zipWith.
  apply zipWith_ext. intros. lra.
Qed.

Lemma log_W_row_shift (n : nat) :
  log_W_row u N (vshift f c) n = log_W_row u N f n.
Proof.
  unfold log_W_row. rewrite vsub_vshift.
  rewrite logsumexp_weighted_shift by now apply valid_denominator_pos.
  unfold vshift. rewrite map_map. apply map_ext. intros. lra.
Qed.

Lemma mbar_gradient_shift :
  mbar_gradient u N (vshift f c) = mbar_gradient u N f.
Proof.
  pose proof (valid_shift c Hvalid) as Hv'.
  rewrite !mbar_gradient_eq by (apply Hv' || apply Hvalid).
  rewrite log_denominator_n_shift.
  rewrite log_numerator_k_shift by apply length_log_denominator_n.
  now rewrite gradient_of_shift.
Qed.

Lemma mbar_hessian_shift :
  mbar_hessian u N (vshift f c) = mbar_hessian u N f.
Proof.
  pose proof (valid_shift c Hvalid) as Hv'.
  rewrite !mbar_hessian_eq by (apply Hv' || apply Hvalid).
  do 2 f_equal. apply map_ext. intros n. now rewrite log_W_row_shift.
Qed.

Lemma self_consistent_update_shift (s : vec) :
  self_consistent_update u N f = Ok s ->
  self_consistent_update u N (vshift f c) = Ok (vshift s c).
Proof.
  pose proof (valid_shift c Hvalid) as Hv'.
  rewrite !self_consistent_update_eq by assumption.
  intros E. injection E as <-. f_equal.
  rewrite log_denominator_n_shift.
  rewrite log_numerator_k_shift by apply length_log_denominator_n.
  unfold vshift. rewrite !map_map. apply map_ext. intros. lra.
Qed.

End ShiftInvariance.

Lemma all_positive_valid (u : mat) (N f : vec) :
  shapes_ok u N f = true -> (0 < n_samples u)%nat ->
  Forall (fun x => 0 < x) N -> valid_inputs u N f.
Proof.
  intros Hsh Hns Hpos. repeat split; auto.
  - eapply Forall_impl; [|exact Hpos]. simpl. intros. lra.
  - destruct (shapes_ok_inv _ _ _ Hsh) as (_ & HN & _).
    destruct N as [|x N'].
    + destruct u; simpl in *; [lia | discriminate].
    + constructor. now inversion Hpos.
Qed.

(** C8. Shift invariance: for inputs of consistent shape with every count
    positive, adding a constant [c] to every entry of [f] leaves the gradient
    and the Hessian unchanged and adds [c] to the self-consistent update; all
    three functions return a value. *)
Theorem shift_invariance (u : mat) (N f : vec) (c : R) :
  shapes_ok u N f = true -> (0 < n_samples u)%nat ->
  Forall (fun x => 0 < x) N ->
  exists g H s,
    mbar_gradient u N f = Ok g /\ mbar_gradient u N (vshift f c) = Ok g /\
    mbar_hessian u N f = Ok H /\ mbar_hessian u N (vshift f c) = Ok H /\
    self_consistent_update u N f = Ok s /\
    self_consistent_update u N (vshift f c) = Ok (vshift s c).
Proof.
  intros Hsh Hns Hpos.
  pose proof (all_positive_valid _ _ Hsh Hns Hpos) as Hv.
  eexists _, _, _.
  rewrite (mbar_gradient_shift c Hv), (mbar_hessian_shift c Hv).
  split; [apply mbar_gradient_eq, Hsh|]. split; [apply mbar_gradient_eq, Hsh|].
  split; [apply mbar_hessian_eq, Hsh|]. split; [apply mbar_hessian_eq, Hsh|].
  split; [apply self_consistent_update_eq, Hv|].
  apply self_consistent_update_shift; [exact Hv|].
  apply self_consistent_update_eq, Hv.
Qed.

Lemma shift_invariance_witness :
  exists g H s,
    mbar_gradient [[0; 1]; [2; 0]] [1; 1] [0; 3] = Ok g /\
    mbar_gradient [[0; 1]; [2; 0]] [1; 1] (vshift [0; 3] 5) = Ok g /\
    mbar_hessian [[0; 1]; [2; 0]] [1; 1] [0; 3] = Ok H /\
    mbar_hessian [[0; 1]; [2; 0]] [1; 1] (vshift [0; 3] 5) = Ok H /\
    self_consistent_update [[0; 1]; [2; 0]] [1; 1] [0; 3] = Ok s /\
    self_consistent_update [[0; 1]; [2; 0]] [1; 1] (vshift [0; 3] 5) = Ok (vshift s 5).
Proof.
  apply (@shift_invariance [[0; 1]; [2; 0]] [1; 1] [0; 3] 5).
  - reflexivity.
  - simpl. lia.
  - repeat constructor; lra.
Defined.

(** ** Shifting the energies by a per-sample constant *)

Section ColumnShift.

Lemma rectangular_iff (u : mat) :
  rectangular u = true <-> Forall (fun r => length r = n_samples u) u.
Proof.
  unfold rectangular. rewrite forallb_forall, Forall_forall.
  split; intros H r Hin; apply Nat.eqb_eq; auto.
Qed.

Lemma n_samples_add_cols (u : mat) (y : vec) :
  Forall (fun r => length r = n_samples u) u -> length y = n_samples u ->
  n_samples (add_cols u y) = n_samples u.
Proof.
  intros Hrows Hy. destruct u as [|r u]; [reflexivity|].
  simpl in *. rewrite length_zipWith. lia.
Qed.

Lemma rectangular_add_cols (u : mat) (y : vec) :
  Forall (fun r => length r = n_samples u) u -> length y = n_samples u ->
  Forall (fun r => length r = n_samples u) (add_cols u y).
Proof.
  intros Hrows Hy. unfold add_cols. apply Forall_forall. intros r Hin.
  apply in_map_iff in Hin as (r0 & <- & Hin0).
  rewrite Forall_forall in Hrows. specialize (Hrows r0 Hin0).
  rewrite length_zipWith. lia.
Qed.

Lemma shapes_ok_add_cols (u : mat) (N g : vec) (y : vec) :
  rectangular u = true -> length y = n_samples u ->
  shapes_ok (add_cols u y) N g = shapes_ok u N g.
Proof.
  intros Hr Hy. unfold shapes_ok. rewrite Hr.
  pose proof (proj1 (rectangular_iff u) Hr) as Hrows.
  assert (rectangular (add_cols u y) = true) as ->.
  { apply rectangular_iff. rewrite n_samples_add_cols by assumption.
    now apply rectangular_add_cols. }
  unfold n_states, add_cols. now rewrite length_map.
Qed.

Lemma map_seq_zipWith_minus (F G : nat -> R) (l : vec) :
  (forall n, (n < length l)%nat -> G n = F n - nth n l 0) ->
  map G (seq 0 (length l)) = zipWith Rminus (map F (seq 0 (length l))) l.
Proof.
  revert F G. induction l as [|a l IH]; intros F G Hn; [reflexivity|].
  cbn [length seq map zipWith]. rewrite <- seq_shift, !map_map.
  rewrite (IH (fun n => F (S n)) (fun n => G (S n))).
  - f_equal. apply (Hn 0%nat). simpl. lia.
  - intros n Hlt. apply (Hn (S n)). simpl. lia.
Qed.

Variables (u : mat) (N g y : vec).
Hypothesis Hvalid : valid_inputs u N g.
Hypothesis Hy : length y = n_samples u.

Lemma valid_add_cols : valid_inputs (add_cols u y) N g.
Proof.
  destruct Hvalid as (Hsh & Hns & Hnn & Hex).
  destruct (shapes_ok_inv _ _ _ Hsh) as (Hrows & _ & _).
  assert (rectangular u = true) as Hr by now apply rectangular_iff.
  repeat split; auto.
  - now rewrite shapes_ok_add_cols.
  - now rewrite n_samples_add_cols.
Qed.

Lemma col_add_cols (n : nat) :
  (n < n_samples u)%nat ->
  col n (add_cols u y) = vshift (col n u) (nth n y 0).
Proof.
  intros Hn. destruct Hvalid as (Hsh & _).
  destruct (shapes_ok_inv _ _ _ Hsh) as (Hrows & _ & _).
  unfold col, add_cols, vshift. rewrite !map_map.
  apply map_ext_in. intros r Hin.
  rewrite Forall_forall in Hrows. specialize (Hrows r Hin).
  apply nth_zipWith; lia.
Qed.

Lemma vsub_col_add_cols (n : nat) :
  (n < n_samples u)%nat ->
  vsub g (col n (add_cols u y)) = vshift (vsub g (col n u)) (- nth n y 0).
Proof.
  intros Hn. rewrite col_add_cols by assumption.
  unfold vsub, vshift. rewrite zipWith_map_r, map_zipWith.
  apply zipWith_ext. intros. lra.
Qed.

Lemma log_denominator_n_add_cols :
  log_denominator_n (add_cols u y) N g =
  zipWith Rminus (log_denominator_n u N g) y.
Proof.
  destruct Hvalid as (Hsh & _).
  destruct (shapes_ok_inv _ _ _ Hsh) as (Hrows & _ & _).
  unfold log_denominator_n. rewrite n_samples_add_cols by assumption.
  rewrite <- Hy.
  apply map_seq_zipWith_minus. intros n Hlt.
  rewrite vsub_col_add_cols by lia.
  rewrite logsumexp_weighted_shift by now apply valid_denominator_pos. lra.
Qed.

Lemma numerator_args_add_cols (ld uk : vec) :
  length ld = length y -> length uk = length y ->
  zipWith (fun l x => - l - x) (zipWith Rminus ld y) (zipWith Rplus uk y) =
  zipWith (fun l x => - l - x) ld uk.
Proof.
  generalize y. clear.
  intros l. revert ld uk.
  induction l as [|a l IH]; intros [|b ld] [|x uk] H1 H2;
    simpl in *; try discriminate; auto.
  f_equal; [lra | apply IH; lia].
Qed.

Lemma log_numerator_k_add_cols :
  log_numerator_k (add_cols u y) (log_denominator_n (add_cols u y) N g) =
  log_numerator_k u (log_denominator_n u N g).
Proof.
  destruct Hvalid as (Hsh & _).
  destruct (shapes_ok_inv _ _ _ Hsh) as (Hrows & _ & _).
  rewrite log_denominator_n_add_cols.
  unfold log_numerator_k, add_cols. rewrite map_map.
  apply map_ext_in. intros r Hin.
  rewrite Forall_forall in Hrows. specialize (Hrows r Hin).
  rewrite numerator_args_add_cols; auto.
  - rewrite length_log_denominator_n. lia.
  - lia.
Qed.

Lemma log_W_row_add_cols (n : nat) :
  (n < n_samples u)%nat ->
  log_W_row (add_cols u y) N g n = log_W_row u N g n.
Proof.
  intros Hn. unfold log_W_row. rewrite vsub_col_add_cols by assumption.
  rewrite logsumexp_weighted_shift by now apply valid_denominator_pos.
  unfold vshift. rewrite map_map. apply map_ext. intros. lra.
Qed.

Lemma mbar_gradient_add_cols :
  mbar_gradient (add_cols u y) N g = mbar_gradient u N g.
Proof.
  rewrite !mbar_gradient_eq by (apply valid_add_cols || apply Hvalid).
  now rewrite log_numerator_k_add_cols.
Qed.

Lemma mbar_hessian_add_cols :
  mbar_hessian (add_cols u y) N g = mbar_hessian u N g.
Proof.
  destruct Hvalid as (Hsh & _).
  destruct (shapes_ok_inv _ _ _ Hsh) as (Hrows & _ & _).
  rewrite !mbar_hessian_eq by (apply valid_add_cols || apply Hvalid).
  rewrite n_samples_add_cols by assumption.
  do 2 f_equal. apply map_ext_in. intros n Hin. apply in_seq in Hin.
  rewrite log_W_row_add_cols; [reflexivity | lia].
Qed.

End ColumnShift.

(** ** The preconditioner *)

Section Preconditioner.

Lemma sub_cols_add_cols (u : mat) (y : vec) :
  sub_cols u y = add_cols u (map Ropp y).
Proof.
  unfold sub_cols, add_cols. apply map_ext. intros r.
  rewrite zipWith_map_r. apply zipWith_ext. intros. lra.
Qed.

Lemma zipWith_diag {A C : Type} (g : A -> A -> C) (l : list A) :
  zipWith g l l = map (fun x => g x x) l.
Proof. induction l as [|x l IH]; simpl; [reflexivity | now rewrite IH]. Qed.

Lemma length_min0 (u : mat) : length (min0 u) = n_samples u.
Proof. unfold min0. now rewrite length_map, length_seq. Qed.

Lemma precondition_u_kn_eq (u : mat) (N f : vec) :
  shapes_ok u N f = true -> precondition_u_kn u N f = Ok (preconditioned u N f).
Proof. intros H. unfold precondition_u_kn. now rewrite validate_ok. Qed.

Variables (u : mat) (N : vec).

Lemma valid_min_shift (g : vec) :
  valid_inputs u N g -> valid_inputs (sub_cols u (min0 u)) N g.
Proof.
  intros Hv. rewrite sub_cols_add_cols. apply valid_add_cols; auto.
  now rewrite length_map, length_min0.
Qed.

Lemma n_samples_min_shift (g : vec) :
  valid_inputs u N g -> n_samples (sub_cols u (min0 u)) = n_samples u.
Proof.
  intros (Hsh & _). destruct (shapes_ok_inv _ _ _ Hsh) as (Hrows & _ & _).
  rewrite sub_cols_add_cols. apply n_samples_add_cols; auto.
  now rewrite length_map, length_min0.
Qed.

Lemma preconditioned_gradient (f g : vec) :
  valid_inputs u N g ->
  mbar_gradient (preconditioned u N f) N g = mbar_gradient u N g.
Proof.
  intros Hv. unfold preconditioned.
  rewrite mbar_gradient_add_cols.
  - rewrite sub_cols_add_cols. apply mbar_gradient_add_cols; auto.
    now rewrite length_map, length_min0.
  - now apply valid_min_shift.
  - now rewrite length_map, length_log_denominator_n.
Qed.

Lemma preconditioned_hessian (f g : vec) :
  valid_inputs u N g ->
  mbar_hessian (preconditioned u N f) N g = mbar_hessian u N g.
Proof.
  intros Hv. unfold preconditioned.
  rewrite mbar_hessian_add_cols.
  - rewrite sub_cols_add_cols. apply mbar_hessian_add_cols; auto.
    now rewrite length_map, length_min0.
  - now apply valid_min_shift.
  - now rewrite length_map, length_log_denominator_n.
Qed.

Lemma preconditioned_shapes (f g : vec) :
  valid_inputs u N f ->
  shapes_ok (preconditioned u N f) N g = shapes_ok u N g.
Proof.
  intros Hv. unfold preconditioned.
  pose proof (valid_min_shift Hv) as Hv1.
  destruct Hv as (Hsh & _). destruct Hv1 as (Hsh1 & _).
  destruct (shapes_ok_inv _ _ _ Hsh) as (Hrows & _ & _).
  destruct (shapes_ok_inv _ _ _ Hsh1) as (Hrows1 & _ & _).
  rewrite shapes_ok_add_cols.
  - rewrite sub_cols_add_cols. apply shapes_ok_add_cols.
    + now apply rectangular_iff.
    + now rewrite length_map, length_min0.
  - now apply rectangular_iff.
  - now rewrite length_map, length_log_denominator_n.
Qed.

Lemma preconditioned_log_denominator (f : vec) :
  valid_inputs u N f ->
  Forall (fun x => x = dot N f / Rsum N)
         (log_denominator_n (preconditioned u N f) N f).
Proof.
  intros Hv. unfold preconditioned.
  rewrite log_denominator_n_add_cols.
  - rewrite zipWith_map_r, zipWith_diag.
    apply Forall_forall. intros x Hin.
    apply in_map_iff in Hin as (l & <- & _). lra.
  - now apply valid_min_shift.
  - now rewrite length_map, length_log_denominator_n.
Qed.

End Preconditioner.

(** C4. Preconditioning: on valid inputs whose counts sum to the number of
    samples, [precondition_u_kn] returns an energy matrix at which the
    objective is exactly zero at the current estimate, and for which the
    gradient and the Hessian agree with those of the original matrix at
    every [g]. *)
Theorem precondition_zero_objective_same_derivatives (u : mat) (N f : vec) :
  valid_inputs u N f -> Rsum N = INR (n_samples u) ->
  exists u',
    precondition_u_kn u N f = Ok u' /\
    (exists grad, mbar_objective_and_gradient u' N f = Ok (0, grad)) /\
    forall g, mbar_gradient u' N g = mbar_gradient u N g /\
              mbar_hessian u' N g = mbar_hessian u N g.
Proof.
  intros Hv Hsum. exists (preconditioned u N f).
  pose proof Hv as (Hsh & Hns & Hnn & Hex).
  split; [now apply precondition_u_kn_eq|]. split.
  - eexists. rewrite mbar_objective_and_gradient_eq
      by (rewrite preconditioned_shapes; assumption).
    do 2 f_equal.
    rewrite (Rsum_const (preconditioned_log_denominator Hv)).
    rewrite length_log_denominator_n.
    unfold preconditioned.
    rewrite n_samples_add_cols.
    + rewrite (n_samples_min_shift Hv), Hsum.
      assert (INR (n_samples u) <> 0) by (apply not_0_INR; lia).
      field. assumption.
    + apply shapes_ok_inv with (N := N) (f := f), (valid_min_shift Hv).
    + now rewrite length_map, length_log_denominator_n.
  - intros g. destruct (shapes_ok u N g) eqn:Hg.
    + assert (valid_inputs u N g) as Hvg by (repeat split; assumption).
      split; [now apply preconditioned_gradient | now apply preconditioned_hessian].
    + unfold mbar_gradient, mbar_hessian, validate_inputs.
      rewrite preconditioned_shapes, Hg by assumption. split; reflexivity.
Qed.

Lemma precondition_zero_objective_same_derivatives_witness :
  exists u',
    precondition_u_kn [[0; 1]; [2; 0]] [1; 1] [0; 3] = Ok u' /\
    (exists grad, mbar_objective_and_gradient u' [1; 1] [0; 3] = Ok (0, grad)) /\
    forall g, mbar_gradient u' [1; 1] g = mbar_gradient [[0; 1]; [2; 0]] [1; 1] g /\
              mbar_hessian u' [1; 1] g = mbar_hessian [[0; 1]; [2; 0]] [1; 1] g.
Proof.
  apply (@precondition_zero_objective_same_derivatives [[0; 1]; [2; 0]] [1; 1] [0; 3]).
  - repeat split.
    + simpl. lia.
    + repeat constructor; lra.
    + constructor. lra.
  - simpl. lra.
Defined.

(** ** Normalisation of the weight matrix *)

Section Normalisation.

Lemma nth_map_lt {A B : Type} (h : A -> B) (l : list A) (k : nat) (d : B) (d' : A) :
  (k < length l)%nat -> nth k (map h l) d = h (nth k l d').
Proof.
  intros Hk. rewrite (nth_indep _ d (h d')) by now rewrite length_map.
  apply map_nth.
Qed.

Lemma zipWith_seq_nth {C : Type} (g : R -> R -> C) (F : nat -> R) (l : vec) :
  zipWith g (map F (seq 0 (length l))) l =
  map (fun n => g (F n) (nth n l 0)) (seq 0 (length l)).
Proof.
  revert F. induction l as [|a l IH]; intros F; [reflexivity|].
  cbn [length seq map zipWith]. rewrite <- seq_shift, !map_map.
  now rewrite (IH (fun n => F (S n))).
Qed.

Lemma weighted_column_sum_scale (W : mat) (N : vec) (k : nat) :
  weighted_column_sum W N k = nth k N 0 * Rsum (col k W).
Proof. unfold weighted_column_sum, col. apply Rsum_map_scale. Qed.

Variables (u : mat) (N f : vec) (k : nat).
Hypothesis Hvalid : valid_inputs u N f.
Hypothesis Hk : (k < n_states u)%nat.

Local Abbreviation ld n := (logsumexp (vsub f (col n u)) (Some N)).

Lemma nth_vsub_col (n : nat) :
  nth k (vsub f (col n u)) 0 = nth k f 0 - nth n (nth k u []) 0.
Proof.
  destruct Hvalid as (Hsh & _).
  destruct (shapes_ok_inv _ _ _ Hsh) as (_ & _ & Hf).
  unfold n_states in Hk. unfold vsub.
  rewrite nth_zipWith by (rewrite ?length_col; lia).
  f_equal. unfold col.
  exact (@nth_map_lt _ _ (fun uk => nth n uk 0) u k 0 [] Hk).
Qed.

Lemma row_length : length (nth k u []) = n_samples u.
Proof.
  destruct Hvalid as (Hsh & _).
  destruct (shapes_ok_inv _ _ _ Hsh) as (Hrows & _ & _).
  rewrite Forall_forall in Hrows. apply Hrows, nth_In. exact Hk.
Qed.

(** Column [k] of the weight matrix. *)
Lemma W_column :
  col k (map (fun n => map exp (log_W_row u N f n)) (seq 0 (n_samples u))) =
  map (fun n => exp (nth k f 0 - nth n (nth k u []) 0 - ld n))
      (seq 0 (n_samples u)).
Proof.
  unfold col. rewrite map_map. apply map_ext. intros n.
  destruct Hvalid as (Hsh & _).
  destruct (shapes_ok_inv _ _ _ Hsh) as (_ & _ & Hf).
  unfold n_states in Hk.
  rewrite (@nth_map_lt _ _ exp _ k 0 0)
    by (unfold log_W_row; rewrite length_map, length_vsub_col; lia).
  unfold log_W_row.
  rewrite (@nth_map_lt _ _ _ _ k 0 0) by (rewrite length_vsub_col; lia).
  now rewrite nth_vsub_col.
Qed.

(** The exponential in the gradient is the column sum of [W]. *)
Lemma exp_numerator :
  exp (nth k f 0 + nth k (log_numerator_k u (log_denominator_n u N f)) 0) =
  Rsum (map (fun n => exp (nth k f 0 - nth n (nth k u []) 0 - ld n))
            (seq 0 (n_samples u))).
Proof.
  unfold log_numerator_k.
  rewrite (@nth_map_lt _ _ _ u k 0 []) by exact Hk.
  unfold log_denominator_n.
  rewrite <- row_length, zipWith_seq_nth.
  assert (0 < length (nth k u []))%nat as Hpos
      by (rewrite row_length; apply Hvalid).
  rewrite logsumexp_plain.
  - rewrite exp_plus, exp_ln, map_map.
    + rewrite <- Rsum_map_scale. apply Rsum_map_ext. intros n _.
      rewrite <- exp_plus. f_equal. lra.
    + rewrite <- map_map. apply exp_sum_pos.
      destruct (nth k u []); simpl in *; [lia | discriminate].
  - destruct (nth k u []); simpl in *; [lia | discriminate].
Qed.

Lemma gradient_component :
  nth k (gradient_of N f (log_numerator_k u (log_denominator_n u N f))) 0 =
  -1 * nth k N 0 *
  (1 - exp (nth k f 0 + nth k (log_numerator_k u (log_denominator_n u N f)) 0)).
Proof.
  destruct Hvalid as (Hsh & _).
  destruct (shapes_ok_inv _ _ _ Hsh) as (_ & HN & Hf).
  unfold n_states in Hk. unfold gradient_of.
  assert (length (log_numerator_k u (log_denominator_n u N f)) = length u) as Hl
      by (unfold log_numerator_k; apply length_map).
  rewrite nth_zipWith by (rewrite ?length_zipWith; lia).
  rewrite nth_zipWith by lia. reflexivity.
Qed.

End Normalisation.

(** C3 (amended). On valid inputs, for every state [k], the sum over the
    samples of [N[k] * W[n][k]] is [N[k]] plus the gradient component [k]:
    at a converged estimate it is close to [N[k]], not to 1.  What is close
    to 1 for a populated state is the column sum of [W], within [eps] as soon
    as the gradient component is within [eps * N[k]]. *)
Theorem weight_columns_normalised (u : mat) (N f : vec) (k : nat) :
  valid_inputs u N f -> (k < n_states u)%nat ->
  exists g W,
    mbar_gradient u N f = Ok g /\ mbar_W_nk u N f = Ok W /\
    weighted_column_sum W N k = nth k N 0 + nth k g 0 /\
    (0 < nth k N 0 -> forall eps,
       Rabs (nth k g 0) <= eps * nth k N 0 -> Rabs (Rsum (col k W) - 1) <= eps).
Proof.
  intros Hv Hk. eexists _, _.
  split; [apply mbar_gradient_eq, Hv|]. split; [apply mbar_W_nk_eq, Hv|].
  rewrite weighted_column_sum_scale, (W_column Hv Hk).
  rewrite (gradient_component Hv Hk), (exp_numerator Hv Hk).
  set (S := Rsum _). split; [ring|].
  intros HN eps Hg.
  replace (-1 * nth k N 0 * (1 - S)) with (nth k N 0 * (S - 1)) in Hg by ring.
  rewrite Rabs_mult, (Rabs_pos_eq (nth k N 0)) in Hg by lra.
  pose proof (Rabs_pos (S - 1)). nra.
Qed.

Lemma weight_columns_normalised_witness :
  exists g W,
    mbar_gradient [[0; 0]] [2] [0] = Ok g /\ mbar_W_nk [[0; 0]] [2] [0] = Ok W /\
    weighted_column_sum W [2] 0 = nth 0 [2] 0 + nth 0 g 0 /\
    (0 < nth 0 [2] 0 -> forall eps,
       Rabs (nth 0 g 0) <= eps * nth 0 [2] 0 -> Rabs (Rsum (col 0 W) - 1) <= eps).
Proof.
  apply (@weight_columns_normalised [[0; 0]] [2] [0] 0%nat).
  - repeat split.
    + simpl. lia.
    + repeat constructor; lra.
    + constructor. lra.
  - simpl. lia.
Defined.

Section NormalisationExample.

Lemma exp_neg_ln2 : exp (- ln 2) = / 2.
Proof. rewrite exp_Ropp, exp_ln by lra. reflexivity. Qed.

Lemma logsumexp_single_count2 (x : R) : x = 0 -> logsumexp [x] (Some [2]) = ln 2.
Proof.
  intros ->.
  rewrite logsumexp_weighted; unfold wexp; cbn [zipWith Rsum]; rewrite exp_0.
  - f_equal. lra.
  - lra.
Qed.

Lemma logsumexp_two_halves (x y : R) :
  x = - ln 2 -> y = - ln 2 -> logsumexp [x; y] None = 0.
Proof.
  intros -> ->. rewrite logsumexp_plain by discriminate.
  cbn [map Rsum]. rewrite exp_neg_ln2.
  replace (/ 2 + (/ 2 + 0)) with 1 by lra. apply ln_1.
Qed.

End NormalisationExample.

(** C3 (as stated) fails: one state that holds both samples, [N = [2]].  The
    gradient is exactly zero, so the estimate is converged under any
    tolerance, and [sum_n N[0] * W[n][0]] is 2, at distance 1 from 1. *)
Lemma weight_normalisation_counterexample :
  valid_inputs [[0; 0]] [2] [0] /\
  mbar_gradient [[0; 0]] [2] [0] = Ok [0] /\
  exists W, mbar_W_nk [[0; 0]] [2] [0] = Ok W /\
            0 < nth 0 [2] 0 /\
            weighted_column_sum W [2] 0 = 2 /\
            Rabs (weighted_column_sum W [2] 0 - 1) = 1.
Proof.
  split; [|split].
  - repeat split; [simpl; lia | repeat constructor; lra | constructor; lra].
  - rewrite mbar_gradient_eq by reflexivity.
    unfold log_denominator_n, log_numerator_k, gradient_of, vsub, col.
    cbn [map seq zipWith n_samples length nth].
    rewrite !logsumexp_single_count2 by lra.
    rewrite logsumexp_two_halves by lra.
    do 2 f_equal. replace (0 + 0) with 0 by lra. rewrite exp_0. lra.
  - eexists. split; [apply mbar_W_nk_eq; reflexivity|].
    assert (weighted_column_sum
              (map (fun n => map exp (log_W_row [[0; 0]] [2] [0] n))
                   (seq 0 (n_samples [[0; 0]]))) [2] 0 = 2) as E.
    { unfold weighted_column_sum, log_W_row, vsub, col.
      cbn [map seq zipWith n_samples length nth Rsum].
      rewrite !logsumexp_single_count2 by lra.
      replace (0 - 0 - ln 2) with (- ln 2) by lra. rewrite exp_neg_ln2. lra. }
    rewrite E. repeat split; [simpl; lra|].
    replace (2 - 1) with 1 by lra. apply Rabs_R1.
Qed.

(** ** Which states enter the denominator *)

Section DenominatorStates.

Lemma log_denominator_n_operands (u : mat) (N f : vec) :
  log_denominator_n u N f =
  map (fun n => reduce_denominator (denominator_operands u N f n))
      (seq 0 (n_samples u)).
Proof. reflexivity. Qed.

Lemma self_consistent_update_operands (u : mat) (N f : vec) :
  shapes_ok u N f = true ->
  self_consistent_update u N f =
  Ok (map (fun x => -1 * x) (log_numerator_k u (masked_log_denominator_n u N f))).
Proof.
  intros H. unfold self_consistent_update. now rewrite validate_ok.
Qed.

Lemma masked_log_denominator_n_eq (u : mat) (N f : vec) :
  valid_inputs u N f ->
  masked_log_denominator_n u N f = log_denominator_n u N f.
Proof.
  intros Hv. unfold masked_log_denominator_n, log_denominator_n.
  apply map_ext. intros n. now apply masked_denominator.
Qed.

Lemma select_positive (N : vec) :
  Forall (fun x => 0 < x) (select (states_with_samples N) N).
Proof.
  unfold states_with_samples. induction N as [|x N IH]; simpl; [constructor|].
  unfold positive at 1. destruct (Rlt_dec 0 x); auto.
Qed.

End DenominatorStates.

Section Underflow.

Lemma pow2_le_exp (n : nat) : 2 ^ n <= exp (INR n).
Proof.
  induction n as [|n IH].
  - simpl. rewrite exp_0. lra.
  - rewrite S_INR, exp_plus. cbn [pow].
    pose proof (exp_ineq1 1 ltac:(lra)) as H1.
    assert (0 < 2 ^ n) as Hp by (apply pow_lt; lra).
    rewrite Rmult_comm. apply Rmult_le_compat; lra.
Qed.

(** [exp(-2000) = 1 / exp(2000)] is positive and smaller than half the smallest positive
    double, [2^-1074]: rounded to a double it is 0. *)
Lemma exp_below_doubles : 0 < / exp 2000 < / 2 ^ 1075.
Proof.
  split; [apply Rinv_0_lt_compat, exp_pos|].
  apply Rinv_lt_contravar.
  - apply Rmult_lt_0_compat; [apply pow_lt; lra | apply exp_pos].
  - apply Rlt_le_trans with (2 ^ 2000).
    + apply Rlt_pow; [lra | lia].
    + replace 2000 with (INR 2000) by (rewrite INR_IZR_INZ; reflexivity).
      apply pow2_le_exp.
Qed.

Lemma reduce_denominator_shifted (ops : vec * vec) :
  reduce_denominator ops = ln (shifted_sum ops) + amax (fst ops).
Proof. reflexivity. Qed.

End Underflow.

(** C1. A state without samples is part of the denominator reduction of
    [mbar_gradient] (and of the two functions that share it), with weight 0,
    and it can set the shift of that reduction.  With [u = [[0]; [-2000]]],
    [N = [1; 0]], [f = [0; 0]], a valid input: [mbar_gradient] hands both
    states to [logsumexp], the largest exponent, 2000, is the one of the
    state without samples, and the sum whose logarithm is taken is
    [1 * exp(-2000) + 0 * exp(0) = exp(-2000)], a positive number below half
    the smallest positive double; [self_consistent_update] hands over the
    first state only, and its sum is 1.  In exact arithmetic the two
    denominators are equal (both are 0). *)
Theorem unmasked_denominator_underflows :
  let u := [[0]; [-2000]] in
  let N := [1; 0] in
  let f := [0; 0] in
  valid_inputs u N f /\
  denominator_operands u N f 0 = ([0 - 0; 0 - -2000], [1; 0]) /\
  mbar_gradient u N f =
    Ok (gradient_of N f
          (log_numerator_k u [reduce_denominator (denominator_operands u N f 0)])) /\
  amax (fst (denominator_operands u N f 0)) = 2000 /\
  shifted_sum (denominator_operands u N f 0) = / exp 2000 /\
  0 < / exp 2000 < / 2 ^ 1075 /\
  masked_denominator_operands u N f 0 = ([0 - 0], [1]) /\
  self_consistent_update u N f =
    Ok (map (fun x => -1 * x)
          (log_numerator_k u
             [reduce_denominator (masked_denominator_operands u N f 0)])) /\
  shifted_sum (masked_denominator_operands u N f 0) = 1 /\
  reduce_denominator (denominator_operands u N f 0) = 0 /\
  reduce_denominator (masked_denominator_operands u N f 0) = 0.
Proof.
  intros u N f.
  assert (masked_denominator_operands u N f 0 = ([0 - 0], [1])) as Hm.
  { unfold masked_denominator_operands, states_with_samples, u, N, f.
    cbn [map]. rewrite positive_true, positive_false by lra. reflexivity. }
  assert (amax (fst (denominator_operands u N f 0)) = 2000) as Hmax.
  { cbn. rewrite Rmax_right by lra. lra. }
  assert (shifted_sum (denominator_operands u N f 0) = / exp 2000) as Hs.
  { unfold shifted_sum. rewrite Hmax. cbn.
    replace (0 - 0 - 2000) with (Ropp 2000) by lra. rewrite exp_Ropp. lra. }
  assert (shifted_sum (masked_denominator_operands u N f 0) = 1) as Hs'.
  { rewrite Hm. unfold shifted_sum. cbn.
    replace (0 - 0 - (0 - 0)) with 0 by lra. rewrite exp_0. lra. }
  split; [repeat split; [simpl; lia | repeat constructor; lra | constructor; lra]|].
  split; [reflexivity|].
  split; [rewrite mbar_gradient_eq by reflexivity; reflexivity|].
  split; [exact Hmax|]. split; [exact Hs|]. split; [exact exp_below_doubles|].
  split; [exact Hm|].
  split; [rewrite self_consistent_update_operands by reflexivity; reflexivity|].
  split; [exact Hs'|].
  split.
  - rewrite reduce_denominator_shifted, Hs, Hmax, <- exp_Ropp, ln_exp. lra.
  - rewrite reduce_denominator_shifted, Hs', Hm, ln_1. cbn. lra.
Qed.

(** ** Running programs *)

Section ProgLemmas.

Lemma pbind_ok {A B : Type} (t : list event) (a : A) (k : A -> prog B) :
  pbind (t, Ok a) k = (t ++ fst (k a), snd (k a)).
Proof. unfold pbind. now destruct (k a). Qed.

Lemma pbind_raise {A B : Type} (t : list event) (e : exn) (k : A -> prog B) :
  pbind (t, Raise e) k = (t, Raise e).
Proof. reflexivity. Qed.

Lemma pbind_lift_ok {A B : Type} (a : A) (k : A -> prog B) :
  pbind (lift (Ok a)) k = k a.
Proof. unfold lift. rewrite pbind_ok. now destruct (k a). Qed.

Lemma pbind_pret {A B : Type} (a : A) (k : A -> prog B) :
  pbind (pret a) k = k a.
Proof. apply pbind_lift_ok. Qed.

Lemma pbind_emit {B : Type} (e : event) (k : unit -> prog B) :
  pbind (emit e) k = (e :: fst (k tt), snd (k tt)).
Proof. unfold emit. now rewrite pbind_ok. Qed.

Lemma pbind_when {B : Type} (b : bool) (e : event) (k : unit -> prog B) :
  pbind (when b (emit e)) k =
  ((if b then [e] else []) ++ fst (k tt), snd (k tt)).
Proof.
  destruct b; unfold when.
  - now rewrite pbind_emit.
  - rewrite pbind_pret. now destruct (k tt).
Qed.

Lemma snd_pbind_trace_irrelevant {A B : Type} (m : prog A) (k : A -> prog B) :
  snd (pbind m k) = match snd m with Ok a => snd (k a) | Raise e => Raise e end.
Proof.
  destruct m as [t [a|e]]; [now rewrite pbind_ok | reflexivity].
Qed.

End ProgLemmas.

(** C2. [adaptive] is not a plain blocking computation: called without an
    options dictionary it raises [AttributeError] at once, and called with
    one it reaches [pdb.set_trace()] and stops at the debugger prompt before
    any solving is done, whatever the other arguments are. *)
Theorem adaptive_stops_at_debugger (lstsq : mat -> vec -> vec)
    (u : mat) (N f : vec) (tol : R) :
  adaptive lstsq u N f tol None = ([], Raise AttributeError) /\
  forall o, exists before after,
    fst (adaptive lstsq u N f tol (Some o)) = before ++ PdbSetTrace :: after /\
    (before = [] \/ before = [Stdout MsgDetermining]).
Proof.
  split; [reflexivity|]. intros o. unfold adaptive.
  rewrite pbind_when. cbv beta. rewrite pbind_emit. cbn [fst].
  eexists _, _. split; [reflexivity|].
  destruct (setdefault (opt_verbose o) false); auto.
Qed.

(** ** Which cells a program may overwrite *)

Section FrameLemmas.

Lemma hbind_step {A B : Type} (m : hprog A) (k : A -> hprog B) (h h' : heap)
      (t : list event) (a : A) :
  m h = mkOutcome t h' (Ok a) ->
  hbind m k h = mkOutcome (t ++ out_trace (k a h')) (out_heap (k a h'))
                          (out_result (k a h')).
Proof. unfold hbind. now intros ->. Qed.

Lemma hbind_stop {A B : Type} (m : hprog A) (k : A -> hprog B) (h h' : heap)
      (t : list event) (e : exn) :
  m h = mkOutcome t h' (Raise e) -> hbind m k h = mkOutcome t h' (Raise e).
Proof. unfold hbind. now intros ->. Qed.

Lemma length_list_set {A : Type} (l : nat) (a : A) (h : list A) :
  length (list_set l a h) = length h.
Proof.
  revert l. induction h as [|x h IH]; intros [|l]; simpl; auto.
Qed.

Lemma nth_error_list_set_other {A : Type} (l l' : nat) (a : A) (h : list A) :
  l' <> l -> nth_error (list_set l a h) l' = nth_error h l'.
Proof.
  revert l l'. induction h as [|x h IH]; intros [|l] [|l'] H; simpl; auto;
    try congruence.
Qed.

Lemma nth_error_list_set_same {A : Type} (l : nat) (a : A) (h : list A) :
  (l < length h)%nat -> nth_error (list_set l a h) l = Some a.
Proof.
  revert l. induction h as [|x h IH]; intros [|l] H; simpl in *; try lia; auto.
  apply IH. lia.
Qed.

Lemma list_set_last {A : Type} (a b : A) (h : list A) :
  list_set (length h) a (h ++ [b]) = h ++ [a].
Proof. induction h as [|x h IH]; simpl; [reflexivity | now rewrite IH]. Qed.

Variables (n : nat) (P : loc -> Prop).

Lemma frame_ret {A : Type} (Q : A -> Prop) (a : A) : Q a -> frame n P Q (hret a).
Proof.
  intros Ha h Hn. simpl. repeat split; auto. intros a' E. now injection E as <-.
Qed.

Lemma frame_raise {A : Type} (Q : A -> Prop) (e : exn) : frame n P Q (hraise e).
Proof. intros h Hn. simpl. repeat split; auto. discriminate. Qed.

Lemma frame_lift {A : Type} (p : prog A) : frame n P (fun _ => True) (hlift p).
Proof. intros h Hn. simpl. repeat split; auto. Qed.

Lemma frame_load1 (l : loc) : frame n P (fun _ => True) (load1 l).
Proof.
  intros h Hn. unfold load1.
  destruct (nth_error h l) as [[v|m]|]; simpl; repeat split; auto.
Qed.

Lemma frame_load2 (l : loc) : frame n P (fun _ => True) (load2 l).
Proof.
  intros h Hn. unfold load2.
  destruct (nth_error h l) as [[v|m]|]; simpl; repeat split; auto.
Qed.

Lemma frame_alloc (a : ndarray) : frame n P (fun l => (n <= l)%nat) (alloc a).
Proof.
  intros h Hn. unfold alloc. simpl. repeat split.
  - rewrite length_app. lia.
  - intros l Hl _. apply nth_error_app1. lia.
  - intros l E. injection E as <-. exact Hn.
Qed.

Lemma frame_store (l : loc) (a : ndarray) :
  ((l < n)%nat -> P l) -> frame n P (fun _ => True) (store l a).
Proof.
  intros Hl h Hn. unfold store. simpl. repeat split; auto.
  - now rewrite length_list_set.
  - intros l' Hl' HP. apply nth_error_list_set_other.
    intros ->. auto.
Qed.

Lemma frame_bind {A B : Type} (Q : A -> Prop) (Q' : B -> Prop)
      (m : hprog A) (k : A -> hprog B) :
  frame n P Q m -> (forall a, Q a -> frame n P Q' (k a)) ->
  frame n P Q' (hbind m k).
Proof.
  intros Hm Hk h Hn. destruct (Hm h Hn) as (Hlen & Hold & HQ).
  unfold hbind. destruct (out_result (m h)) as [a|e] eqn:E; simpl.
  - assert (n <= length (out_heap (m h)))%nat as Hn' by lia.
    destruct (Hk a (HQ a eq_refl) _ Hn') as (Hlen' & Hold' & HQ').
    repeat split; auto; [lia|].
    intros l Hl HP. rewrite Hold' by assumption. now apply Hold.
  - repeat split; auto. discriminate.
Qed.

Lemma frame_weaken {A : Type} (Q Q' : A -> Prop) (m : hprog A) :
  (forall a, Q a -> Q' a) -> frame n P Q m -> frame n P Q' m.
Proof.
  intros HQ Hm h Hn. destruct (Hm h Hn) as (Hlen & Hold & Hq).
  repeat split; auto.
Qed.

Lemma frame_if {A : Type} (Q : A -> Prop) (b : bool) (m1 m2 : hprog A) :
  frame n P Q m1 -> frame n P Q m2 -> frame n P Q (if b then m1 else m2).
Proof. now destruct b. Qed.

End FrameLemmas.

Create HintDb frames.
#[export] Hint Resolve frame_ret frame_raise frame_lift frame_load1 frame_load2
  frame_alloc : frames.

(** One step through a sequence: the first command by a known lemma, the
    rest after introducing its value. *)
Ltac frame_seq :=
  repeat first
    [ eapply frame_bind;
      [ solve [ eauto with frames | apply frame_store; solve [ lia | auto ] ]
      | intros ? ?; cbv beta in * ]
    | apply frame_if ].

(** ** The drivers overwrite no cell they did not allocate, [f_k] apart *)

Section FrameDrivers.
Variables (n : nat) (P : loc -> Prop).

Lemma frame_validate_inputs_mem (lu lN lf : loc) :
  frame n P (fun r => r = (lu, lN, lf)) (validate_inputs_mem lu lN lf).
Proof.
  unfold validate_inputs_mem. frame_seq. auto with frames.
Qed.

Lemma frame_precondition_u_kn_mem (lu lN lf : loc) :
  frame n P (fun l => (n <= l)%nat) (precondition_u_kn_mem lu lN lf).
Proof.
  unfold precondition_u_kn_mem.
  eapply frame_bind; [apply frame_validate_inputs_mem|].
  intros [[a b] c] E. injection E as -> -> ->.
  frame_seq.
  auto with frames.
Qed.

Lemma frame_assign_mem (lf : loc) (states : list nat) (l' : loc) :
  ((lf < n)%nat -> P lf) -> frame n P (fun _ => True) (assign_mem lf states l').
Proof.
  intros H. unfold assign_mem. frame_seq. apply frame_store. auto.
Qed.

Variable lstsq : mat -> vec -> vec.
Variable scipy_minimize :
  (vec -> result (R * vec)) -> option (vec -> result mat) -> vec ->
  string -> R -> option options -> prog vec.
Variable scipy_root :
  (vec -> result vec) -> (vec -> result mat) -> vec ->
  string -> R -> option options -> prog vec.
Variable check_w_normalized : mat -> vec -> result unit.
Variable random_choice : nat -> list nat -> nat -> result (list nat).

Lemma frame_solve_mbar_once (lu lN lf : loc) (method : string) (tol : R)
      (opts : option options) :
  frame n P (fun r => (n <= fst r)%nat)
        (solve_mbar_once lstsq scipy_minimize scipy_root check_w_normalized
                         lu lN lf method tol opts).
Proof.
  unfold solve_mbar_once.
  eapply frame_bind; [apply frame_validate_inputs_mem|].
  intros [[a b] c] E. injection E as -> -> ->.
  frame_seq.
  eapply frame_bind; [apply frame_precondition_u_kn_mem|]. intros ? ?.
  frame_seq.
  eapply frame_bind with (Q := fun r => (n <= fst (fst r))%nat).
  - frame_seq; auto with frames.
  - intros [[l r] w] Hl. simpl in Hl.
    eapply frame_bind with (Q := fun _ => True).
    + apply frame_if; frame_seq; auto with frames.
    + intros _ _. apply frame_ret. exact Hl.
Qed.

Lemma frame_solve_mbar_stages (lu lN : loc) (protocol : list stage) :
  forall (lf : loc) (log : list log_entry),
  frame n P (fun _ => True)
        (solve_mbar_stages lstsq scipy_minimize scipy_root check_w_normalized
                           lu lN protocol lf log).
Proof.
  induction protocol as [|o rest IH]; intros lf log; simpl.
  - auto with frames.
  - eapply frame_bind; [apply frame_solve_mbar_once|]. intros [l r] Hl.
    frame_seq. apply IH.
Qed.

Lemma frame_solve_mbar (lu lN lf : loc) (protocol : option (list stage)) :
  frame n P (fun _ => True)
        (solve_mbar lstsq scipy_minimize scipy_root check_w_normalized
                    lu lN lf protocol).
Proof. apply frame_solve_mbar_stages. Qed.

Lemma frame_solve_mbar_on (states : list nat) (lu lN lf : loc)
      (protocol : option (list stage)) :
  frame n P (fun _ => True)
        (solve_mbar_on lstsq scipy_minimize scipy_root check_w_normalized
                       states lu lN lf protocol).
Proof.
  unfold solve_mbar_on. frame_seq. apply frame_solve_mbar.
Qed.

Lemma frame_solve_mbar_with_subsampling (lu lN lf : loc)
      (solver_protocol subsampling_protocol : option (list stage))
      (subsampling : option Z) (x_kindices : option (list Z)) :
  ((lf < n)%nat -> P lf) ->
  frame n P (fun l => (n <= l)%nat)
        (solve_mbar_with_subsampling lstsq scipy_minimize scipy_root
           check_w_normalized random_choice lu lN lf
           solver_protocol subsampling_protocol subsampling x_kindices).
Proof.
  intros HP. unfold solve_mbar_with_subsampling.
  frame_seq.
  eapply frame_bind with (Q := fun _ => True).
  - apply frame_if; [eapply frame_weaken; [|apply frame_alloc]; auto|].
    eapply frame_bind with (Q := fun _ => True).
    + destruct subsampling as [s|]; [destruct x_kindices as [x|]|];
        try apply frame_solve_mbar_on.
      apply frame_if; [|apply frame_solve_mbar_on].
      frame_seq. apply frame_solve_mbar.
    + intros fr _.
      eapply frame_bind; [apply frame_assign_mem; exact HP|]. intros _ _.
      eapply frame_bind; [apply frame_solve_mbar_on|]. intros fr' _.
      auto with frames.
  - intros l _.
    eapply frame_bind; [apply frame_assign_mem; exact HP|]. intros _ _.
    frame_seq. auto with frames.
Qed.

End FrameDrivers.

(** C9 (amended). Whatever the heap and the arguments, and whether the call
    returns or raises: after [precondition_u_kn], [solve_mbar_once] and
    [solve_mbar] every array that existed before the call holds the values
    it held; after [solve_mbar_with_subsampling] every such array other than
    the one passed as [f_k] does. *)
Theorem caller_arrays_preserved
    (lstsq : mat -> vec -> vec)
    (scipy_minimize : (vec -> result (R * vec)) -> option (vec -> result mat) ->
                      vec -> string -> R -> option options -> prog vec)
    (scipy_root : (vec -> result vec) -> (vec -> result mat) -> vec ->
                  string -> R -> option options -> prog vec)
    (check_w_normalized : mat -> vec -> result unit)
    (random_choice : nat -> list nat -> nat -> result (list nat))
    (h : heap) (u_kn N_k f_k : loc) (method : string) (tol : R)
    (opts : option options)
    (solver_protocol subsampling_protocol : option (list stage))
    (subsampling : option Z) (x_kindices : option (list Z)) :
  (forall l a, nth_error h l = Some a ->
     nth_error (out_heap (precondition_u_kn_mem u_kn N_k f_k h)) l = Some a) /\
  (forall l a, nth_error h l = Some a ->
     nth_error (out_heap (solve_mbar_once lstsq scipy_minimize scipy_root
                            check_w_normalized u_kn N_k f_k method tol opts h)) l
     = Some a) /\
  (forall l a, nth_error h l = Some a ->
     nth_error (out_heap (solve_mbar lstsq scipy_minimize scipy_root
                            check_w_normalized u_kn N_k f_k solver_protocol h)) l
     = Some a) /\
  (forall l a, nth_error h l = Some a -> l <> f_k ->
     nth_error (out_heap (solve_mbar_with_subsampling lstsq scipy_minimize
                            scipy_root check_w_normalized random_choice
                            u_kn N_k f_k solver_protocol subsampling_protocol
                            subsampling x_kindices h)) l
     = Some a).
Proof.
  assert (forall l a, nth_error h l = Some a -> (l < length h)%nat) as Hlt.
  { intros l a E. apply nth_error_Some. congruence. }
  repeat split; intros l a E.
  - rewrite <- E.
    apply (@frame_precondition_u_kn_mem (length h) (fun _ => False) u_kn N_k f_k
             h (le_n _)); eauto.
  - rewrite <- E.
    apply (@frame_solve_mbar_once (length h) (fun _ => False) lstsq scipy_minimize
             scipy_root check_w_normalized u_kn N_k f_k method tol opts
             h (le_n _)); eauto.
  - rewrite <- E.
    apply (@frame_solve_mbar (length h) (fun _ => False) lstsq scipy_minimize
             scipy_root check_w_normalized u_kn N_k f_k solver_protocol
             h (le_n _)); eauto.
  - intros Hne. rewrite <- E.
    apply (@frame_solve_mbar_with_subsampling (length h) (fun l => l = f_k)
             lstsq scipy_minimize scipy_root check_w_normalized random_choice
             u_kn N_k f_k solver_protocol subsampling_protocol subsampling
             x_kindices (fun _ => eq_refl) h (le_n _)); eauto.
Qed.

(** C9 (as stated) fails for [solve_mbar_with_subsampling]: with one state
    that holds the only sample, the caller's [f_k = [5]] is overwritten in
    place by [f_k[states_with_samples] = f_k_nonzero] and holds [[0]] when
    the call returns (the result is a further, new array). *)
Lemma subsampling_overwrites_f_k :
  let h := [Arr2 [[0]]; Arr1 [1]; Arr1 [5]] in
  let o := solve_mbar_with_subsampling lstsq0 scipy_minimize0 scipy_root0
             check_w_normalized0 random_choice0 0%nat 1%nat 2%nat
             None None None None h in
  nth_error h 2 = Some (Arr1 [5]) /\
  nth_error (out_heap o) 2 = Some (Arr1 [0]) /\
  out_result o = Ok 4%nat.
Proof.
  intros h o. split; [reflexivity|].
  assert (where_positive [1] = [0%nat]) as Hw.
  { unfold where_positive. cbn [length seq filter nth].
    now rewrite positive_true by lra. }
  unfold o, solve_mbar_with_subsampling, h.
  rewrite (@hbind_step _ _ _ _ h h [] [1]) by reflexivity.
  rewrite Hw. cbn [length Nat.eqb].
  unfold hbind at 1. cbn [alloc out_result out_heap out_trace app length].
  unfold assign_mem.
  cbn -[self_consistent_update].
  rewrite self_consistent_update_operands by reflexivity.
  cbn -[logsumexp masked_log_denominator_n].
  split; reflexivity.
Qed.

(** ** Running the drivers on a heap *)

Section MemSpecs.

Lemma nth_error_extend {A : Type} (h h' : list A) (l : nat) (a : A) :
  nth_error h l = Some a -> nth_error (h ++ h') l = Some a.
Proof.
  intros E. rewrite nth_error_app1; [exact E|].
  apply nth_error_Some. congruence.
Qed.

Lemma nth_error_fresh {A : Type} (h h' : list A) (a : A) :
  nth_error (h ++ a :: h') (length h) = Some a.
Proof. rewrite nth_error_app2, Nat.sub_diag by lia. reflexivity. Qed.

Lemma load1_ok (h : heap) (l : loc) (v : vec) :
  nth_error h l = Some (Arr1 v) -> load1 l h = mkOutcome [] h (Ok v).
Proof. unfold load1. now intros ->. Qed.

Lemma load2_ok (h : heap) (l : loc) (m : mat) :
  nth_error h l = Some (Arr2 m) -> load2 l h = mkOutcome [] h (Ok m).
Proof. unfold load2. now intros ->. Qed.

Lemma alloc_ok (h : heap) (a : ndarray) :
  alloc a h = mkOutcome [] (h ++ [a]) (Ok (length h)).
Proof. reflexivity. Qed.

Lemma hlift_ok {A : Type} (h : heap) (a : A) :
  hlift (lift (Ok a)) h = mkOutcome [] h (Ok a).
Proof. reflexivity. Qed.

Lemma hbind_silent {A B : Type} (m : hprog A) (k : A -> hprog B) (h h' : heap)
      (a : A) :
  m h = mkOutcome [] h' (Ok a) -> hbind m k h = k a h'.
Proof. unfold hbind. intros ->. simpl. now destruct (k a h'). Qed.

End MemSpecs.
Ltac hstep :=
  erewrite hbind_silent by
    first [ apply load1_ok; eauto using nth_error_extend, nth_error_fresh
          | apply load2_ok; eauto using nth_error_extend, nth_error_fresh
          | apply alloc_ok
          | apply hlift_ok ];
  cbv beta iota zeta.

Section MemSpecs2.
Variables (h : heap) (lu lN lf : loc) (u : mat) (N f : vec).
Hypothesis Hu : nth_error h lu = Some (Arr2 u).
Hypothesis HN : nth_error h lN = Some (Arr1 N).
Hypothesis Hf : nth_error h lf = Some (Arr1 f).

Lemma validate_inputs_mem_spec :
  validate_inputs_mem lu lN lf h =
  mkOutcome [] h (if shapes_ok u N f then Ok (lu, lN, lf) else Raise ShapeError).
Proof.
  unfold validate_inputs_mem. do 3 hstep.
  unfold hbind, hlift, lift, validate_inputs. simpl.
  destruct (shapes_ok u N f); reflexivity.
Qed.

Lemma precondition_u_kn_mem_spec :
  precondition_u_kn_mem lu lN lf h =
  match precondition_u_kn u N f with
  | Ok u' => mkOutcome [] (h ++ [Arr2 u']) (Ok (length h))
  | Raise e => mkOutcome [] h (Raise e)
  end.
Proof.
  unfold precondition_u_kn_mem, precondition_u_kn, validate_inputs.
  destruct (shapes_ok u N f) eqn:Hs.
  - erewrite hbind_silent by (rewrite validate_inputs_mem_spec, Hs; reflexivity).
    cbv beta iota zeta.
    do 5 hstep.
    unfold hbind, store, hret. simpl. now rewrite list_set_last.
  - erewrite hbind_stop by (rewrite validate_inputs_mem_spec, Hs; reflexivity).
    reflexivity.
Qed.
End MemSpecs2.

Section SolveOnce.

Variables (h : heap) (lu lN lf : loc) (u : mat) (N f : vec).
Hypothesis Hu : nth_error h lu = Some (Arr2 u).
Hypothesis HN : nth_error h lN = Some (Arr1 N).
Hypothesis Hf : nth_error h lf = Some (Arr1 f).

Variable lstsq : mat -> vec -> vec.
Variable scipy_minimize :
  (vec -> result (R * vec)) -> option (vec -> result mat) -> vec ->
  string -> R -> option options -> prog vec.
Variable scipy_root :
  (vec -> result vec) -> (vec -> result mat) -> vec ->
  string -> R -> option options -> prog vec.
Variable check_w_normalized : mat -> vec -> result unit.

Variables (f0 : R) (tol : R) (opts : option options).
Hypothesis Hshapes : shapes_ok u N f = true.
Hypothesis Hf0 : index0 f = Ok f0.

Local Abbreviation f1 := (map (fun x => x - f0) f).
Local Abbreviation u1 := (preconditioned u N f1).
Local Abbreviation h2 := (h ++ [Arr1 f1; Arr2 u1]).

Lemma shapes_ok_anchor : shapes_ok u N f1 = true.
Proof.
  rewrite <- Hshapes. unfold shapes_ok. now rewrite length_map.
Qed.

Lemma h2_cells :
  nth_error h2 lN = Some (Arr1 N) /\
  nth_error h2 (length h) = Some (Arr1 f1) /\
  nth_error h2 (length (h ++ [Arr1 f1])) = Some (Arr2 u1).
Proof.
  split; [now apply nth_error_extend|]. split.
  - apply nth_error_fresh.
  - rewrite length_app. simpl.
    rewrite nth_error_app2 by lia.
    now replace (length h + 1 - length h)%nat with 1%nat by lia.
Qed.

(** The call up to the dispatch on [method], for the adaptive method. *)
Lemma solve_mbar_once_adaptive_prefix :
  solve_mbar_once lstsq scipy_minimize scipy_root check_w_normalized
                  lu lN lf "adaptive" tol opts h =
  hbind (hbind (hlift (catch_warnings (adaptive lstsq u1 N f1 tol opts)))
               (fun rw => hbind (alloc (Arr1 (fst rw)))
                                (fun l => hret (l, ResAdaptive l, snd rw))))
        (fun x =>
           let '(f_k_nonzero, results, w) := x in
           hbind (if (0 <? w)%nat then
                    hbind (hlift (repeat ShowWarning w, Ok tt)) (fun _ =>
                    hbind (load1 f_k_nonzero) (fun fr =>
                    hbind (hlift (lift (mbar_W_nk u1 N fr))) (fun W =>
                    hbind (hlift (lift (check_w_normalized W N))) (fun _ =>
                    hlift (emit (Stdout MsgWeightsConverged))))))
                  else hret tt)
                 (fun _ => hret (f_k_nonzero, results))) h2.
Proof.
  destruct h2_cells as (HN2 & Hf2 & Hu2).
  unfold solve_mbar_once.
  erewrite hbind_silent
    by (rewrite (@validate_inputs_mem_spec h lu lN lf u N f Hu HN Hf), Hshapes;
        reflexivity).
  cbv beta iota zeta.
  hstep. rewrite Hf0. hstep. hstep.
  erewrite hbind_silent.
  2:{ rewrite (@precondition_u_kn_mem_spec (h ++ [Arr1 f1]) lu lN (length h) u N f1)
        by eauto using nth_error_extend, nth_error_fresh.
      rewrite precondition_u_kn_eq by apply shapes_ok_anchor. reflexivity. }
  cbv beta iota zeta. rewrite <- app_assoc. cbn [app].
  erewrite hbind_silent by (apply load2_ok; exact Hu2). cbv beta.
  erewrite hbind_silent by (apply load1_ok; exact HN2). cbv beta.
  erewrite hbind_silent by (apply load1_ok; exact Hf2). cbv beta.
  reflexivity.
Qed.

Lemma solve_mbar_once_adaptive_raises (e : exn) :
  snd (adaptive lstsq u1 N f1 tol opts) = Raise e ->
  out_result (solve_mbar_once lstsq scipy_minimize scipy_root check_w_normalized
                              lu lN lf "adaptive" tol opts h) = Raise e /\
  out_heap (solve_mbar_once lstsq scipy_minimize scipy_root check_w_normalized
                            lu lN lf "adaptive" tol opts h) = h2.
Proof.
  intros E. rewrite solve_mbar_once_adaptive_prefix.
  unfold hbind at 1 2. unfold hlift, catch_warnings. cbn [out_result snd fst].
  rewrite E. cbn. split; reflexivity.
Qed.

Lemma solve_mbar_once_adaptive_returns (t : list event) (r : vec) :
  adaptive lstsq u1 N f1 tol opts = (t, Ok r) ->
  filter is_warn t = [] ->
  solve_mbar_once lstsq scipy_minimize scipy_root check_w_normalized
                  lu lN lf "adaptive" tol opts h =
  mkOutcome t (h2 ++ [Arr1 r]) (Ok (length h2, ResAdaptive (length h2))).
Proof.
  intros E Hw. rewrite solve_mbar_once_adaptive_prefix.
  unfold hbind, hlift, catch_warnings, alloc, hret.
  rewrite E. cbn [fst snd out_result out_heap out_trace].
  rewrite Hw. cbn. rewrite !app_nil_r.
  f_equal. clear -Hw. induction t as [|e t IH]; [reflexivity|].
  simpl in *. destruct (is_warn e); [discriminate|]. simpl. now rewrite IH.
Qed.

(** What follows the solver in [solve_mbar_once] overwrites nothing and
    returns the pair it was given. *)
Lemma frame_after_solver (n : nat) (u' : mat) (N' : vec) (w : nat)
    (l : loc) (res : solver_results) :
  frame n (fun _ => False) (fun x => x = (l, res))
        (hbind (if (0 <? w)%nat then
                  hbind (hlift (repeat ShowWarning w, Ok tt)) (fun _ =>
                  hbind (load1 l) (fun fr =>
                  hbind (hlift (lift (mbar_W_nk u' N' fr))) (fun W =>
                  hbind (hlift (lift (check_w_normalized W N'))) (fun _ =>
                  hlift (emit (Stdout MsgWeightsConverged))))))
                else hret tt)
               (fun _ => hret (l, res))).
Proof.
  eapply frame_bind with (Q := fun _ => True).
  - apply frame_if; frame_seq; auto with frames.
  - intros _ _. now apply frame_ret.
Qed.

(** The array the call returns is the one [adaptive] returned, whether or not
    warnings were recorded. *)
Lemma solve_mbar_once_adaptive_cell (l : loc) (res : solver_results) :
  out_result (solve_mbar_once lstsq scipy_minimize scipy_root check_w_normalized
                              lu lN lf "adaptive" tol opts h) = Ok (l, res) ->
  exists t r,
    adaptive lstsq u1 N f1 tol opts = (t, Ok r) /\
    nth_error (out_heap (solve_mbar_once lstsq scipy_minimize scipy_root
                           check_w_normalized lu lN lf "adaptive" tol opts h)) l
    = Some (Arr1 r).
Proof.
  destruct (adaptive lstsq u1 N f1 tol opts) as [t [r|e]] eqn:E.
  2:{ intros Hres.
      destruct (@solve_mbar_once_adaptive_raises e) as [Hr _].
      { now rewrite E. }
      rewrite Hr in Hres. discriminate. }
  rewrite solve_mbar_once_adaptive_prefix.
  erewrite (@hbind_step _ _ _ _ h2 (h2 ++ [Arr1 r]) _
              (length h2, ResAdaptive (length h2), length (filter is_warn t))).
  2:{ unfold hbind, hlift, catch_warnings, alloc, hret. rewrite E. reflexivity. }
  cbn [out_result out_heap]. cbv beta iota zeta.
  intros Hres. exists t, r. split; [reflexivity|].
  destruct (@frame_after_solver (S (length h2)) u1 N (length (filter is_warn t))
              (length h2) (ResAdaptive (length h2)) (h2 ++ [Arr1 r]))
    as (_ & Hold & HQ).
  { rewrite !length_app. simpl. lia. }
  specialize (HQ _ Hres). injection HQ as -> ->.
  rewrite Hold by (auto; lia). apply nth_error_fresh.
Qed.

End SolveOnce.

(** C10. A call of [solve_mbar_once] with [method="adaptive"] and [options]
    left at [None], on arrays of consistent shape with at least one state,
    raises [AttributeError]; so does [solve_mbar] with the default solver
    protocol and with the default subsampling protocol, whose single stage
    names the adaptive method and no options. *)
Theorem adaptive_default_options_raise
    (lstsq : mat -> vec -> vec)
    (scipy_minimize : (vec -> result (R * vec)) -> option (vec -> result mat) ->
                      vec -> string -> R -> option options -> prog vec)
    (scipy_root : (vec -> result vec) -> (vec -> result mat) -> vec ->
                  string -> R -> option options -> prog vec)
    (check_w_normalized : mat -> vec -> result unit)
    (h : heap) (lu lN lf : loc) (u : mat) (N f : vec) (tol : R) :
  nth_error h lu = Some (Arr2 u) ->
  nth_error h lN = Some (Arr1 N) ->
  nth_error h lf = Some (Arr1 f) ->
  shapes_ok u N f = true -> u <> [] ->
  out_result (solve_mbar_once lstsq scipy_minimize scipy_root check_w_normalized
                              lu lN lf "adaptive" tol None h)
    = Raise AttributeError /\
  out_result (solve_mbar lstsq scipy_minimize scipy_root check_w_normalized
                         lu lN lf None h)
    = Raise AttributeError /\
  out_result (solve_mbar lstsq scipy_minimize scipy_root check_w_normalized
                         lu lN lf (Some DEFAULT_SUBSAMPLING_PROTOCOL) h)
    = Raise AttributeError.
Proof.
  intros Hu HN Hf Hsh Hne.
  assert (exists f0, index0 f = Ok f0) as [f0 Hf0].
  { destruct (shapes_ok_inv _ _ _ Hsh) as (_ & _ & Hlen).
    destruct f as [|x f']; [|now exists x].
    destruct u; [congruence | discriminate]. }
  assert (forall t, out_result
            (solve_mbar_once lstsq scipy_minimize scipy_root check_w_normalized
                             lu lN lf "adaptive" t None h) = Raise AttributeError)
    as Honce.
  { intros t.
    apply (@solve_mbar_once_adaptive_raises h lu lN lf u N f Hu HN Hf lstsq
             scipy_minimize scipy_root check_w_normalized f0 t None Hsh Hf0).
    reflexivity. }
  split; [apply Honce|].
  split; unfold solve_mbar;
    cbn [setdefault DEFAULT_SOLVER_PROTOCOL DEFAULT_SUBSAMPLING_PROTOCOL
         solve_mbar_stages stage_method stage_tol stage_options];
    unfold hbind at 1; now rewrite Honce.
Qed.

Lemma adaptive_default_options_raise_witness :
  let h := [Arr2 [[0]; [1]]; Arr1 [1; 1]; Arr1 [0; 0]] in
  out_result (solve_mbar_once lstsq0 scipy_minimize0 scipy_root0 check_w_normalized0
                              0%nat 1%nat 2%nat "adaptive" (1 / 10 ^ 12) None h)
    = Raise AttributeError /\
  out_result (solve_mbar lstsq0 scipy_minimize0 scipy_root0 check_w_normalized0
                         0%nat 1%nat 2%nat None h)
    = Raise AttributeError /\
  out_result (solve_mbar lstsq0 scipy_minimize0 scipy_root0 check_w_normalized0
                         0%nat 1%nat 2%nat (Some DEFAULT_SUBSAMPLING_PROTOCOL) h)
    = Raise AttributeError.
Proof.
  apply (@adaptive_default_options_raise lstsq0 scipy_minimize0 scipy_root0
           check_w_normalized0 [Arr2 [[0]; [1]]; Arr1 [1; 1]; Arr1 [0; 0]]
           0%nat 1%nat 2%nat [[0]; [1]] [1; 1] [0; 0] (1 / 10 ^ 12));
    try reflexivity.
  discriminate.
Defined.

(** ** How the adaptive loop runs *)

Section AdaptiveAnalysis.

Variable lstsq : mat -> vec -> vec.
Hypothesis lstsq_length : forall H g, length (lstsq H g) = length g.

Variables (u : mat) (N : vec).
Hypothesis Hrect : rectangular u = true.
Hypothesis HN : length N = length u.
Hypothesis HK : (2 <= length u)%nat.

Lemma good_shapes (f : vec) : good u f -> shapes_ok u N f = true.
Proof.
  unfold good, shapes_ok, n_states. intros Hf.
  rewrite Hrect, HN, Hf, !Nat.eqb_refl. reflexivity.
Qed.

Lemma length_gradient_of (f lnum : vec) :
  length (gradient_of N f lnum) =
  Nat.min (length N) (Nat.min (length f) (length lnum)).
Proof. unfold gradient_of. now rewrite !length_zipWith. Qed.

Lemma length_log_numerator_k (ld : vec) : length (log_numerator_k u ld) = length u.
Proof. unfold log_numerator_k. apply length_map. Qed.

Lemma gradient_good (f : vec) :
  good u f -> exists g, mbar_gradient u N f = Ok g /\ good u g.
Proof.
  intros Hf. eexists. split; [apply mbar_gradient_eq, good_shapes, Hf|].
  unfold good in *. rewrite length_gradient_of, length_log_numerator_k. lia.
Qed.

Lemma hessian_good (f : vec) : good u f -> exists H, mbar_hessian u N f = Ok H.
Proof. intros Hf. eexists. apply mbar_hessian_eq, good_shapes, Hf. Qed.

Lemma update_good (f : vec) :
  good u f -> exists s, self_consistent_update u N f = Ok s /\ good u s.
Proof.
  intros Hf. eexists.
  split; [apply self_consistent_update_operands, good_shapes, Hf|].
  unfold good. now rewrite length_map, length_log_numerator_k.
Qed.

Lemma index0_good (f : vec) : good u f -> exists x, index0 f = Ok x.
Proof.
  unfold good. intros Hf. destruct f as [|x f]; [simpl in Hf; lia|].
  now exists x.
Qed.

Lemma candidates_good (gamma : R) (f : vec) :
  good u f ->
  exists fs fn gs gn,
    candidates lstsq gamma u N f = Ok (fs, fn, gs, gn) /\ good u fs /\ good u fn.
Proof.
  intros Hf. unfold candidates.
  destruct (gradient_good Hf) as (g & -> & Hg).
  destruct (hessian_good Hf) as (H & ->). cbn [rbind].
  assert (good u (lstsq H g)) as Hl by (unfold good; now rewrite lstsq_length).
  destruct (index0_good Hl) as (h0 & ->). cbn [rbind].
  destruct (update_good Hf) as (s & -> & Hs). cbn [rbind].
  destruct (index0_good Hs) as (s0 & ->). cbn [rbind].
  assert (good u (map (fun x => x - s0) s)) as Hfs
      by (unfold good; now rewrite length_map).
  assert (good u (vsub f (map (fun x => gamma * x)
                            (map (fun x => x - h0) (lstsq H g))))) as Hfn.
  { unfold good, vsub. rewrite length_zipWith, !length_map.
    unfold good in *. lia. }
  destruct (gradient_good Hfs) as (g1 & -> & _).
  destruct (gradient_good Hfn) as (g2 & -> & _). cbn [rbind].
  eexists _, _, _, _. split; [reflexivity|]. split; assumption.
Qed.

Lemma np_max_nonempty (l : vec) : l <> [] -> np_max l = Ok (amax l).
Proof. destruct l; [congruence | reflexivity]. Qed.

Lemma tail_nonempty (f : vec) : good u f -> map Rabs (tl f) <> [].
Proof.
  unfold good. intros Hf. destruct f as [|x [|y f]]; simpl in *; try lia.
  discriminate.
Qed.

Lemma tail_diff_nonempty (f g : vec) :
  good u f -> good u g -> map Rabs (vsub (tl f) (tl g)) <> [].
Proof.
  unfold good. intros Hf Hg.
  destruct f as [|x [|y f]]; simpl in *; try lia.
  destruct g as [|x' [|y' g]]; simpl in *; try lia.
  discriminate.
Qed.

Variables (verbose : bool) (gamma tol : R).

Local Abbreviation step := (body lstsq u N verbose gamma tol).
Local Abbreviation after := (state_after lstsq u N verbose gamma tol).

Lemma pbind_eq {A B : Type} (m : prog A) (k : A -> prog B)
    (t t' : list event) (a : A) (r : result B) :
  m = (t, Ok a) -> k a = (t', r) -> pbind m k = (t ++ t', r).
Proof. intros -> E. unfold pbind. now rewrite E. Qed.

Lemma when_emit (b : bool) (e : event) :
  when b (emit e) = ((if b then [e] else []), Ok tt).
Proof. now destruct b. Qed.

Lemma silent_nil : silent [].
Proof. intros []. Qed.

Lemma silent_app (t t' : list event) : silent t -> silent t' -> silent (t ++ t').
Proof. unfold silent. intros H H' Hin. apply in_app_or in Hin. tauto. Qed.

Lemma silent_when (b : bool) (e : event) :
  e <> Stdout MsgDidNotConverge -> silent (if b then [e] else []).
Proof.
  intros He. destruct b; [|apply silent_nil].
  intros [E|[]]. now apply He.
Qed.

Lemma iteration_good (i : nat) (st : loop_state) :
  good u (f_k st) ->
  exists c,
    candidates lstsq gamma u N (f_k st) = Ok c /\
    adaptive_iteration lstsq verbose gamma tol u N i st =
      (printed verbose c i st,
       Ok (selected c i st,
           converged (relative_change (f_k (selected c i st)) (f_k st)) tol)) /\
    good u (f_k (selected c i st)).
Proof.
  intros Hf.
  destruct (candidates_good gamma Hf) as (fs & fn & gs & gn & Hc & Hfs & Hfn).
  exists (fs, fn, gs, gn).
  unfold adaptive_iteration. rewrite Hc, pbind_lift_ok. cbv beta iota zeta.
  unfold selected, printed.
  set (pick := Rltb gs gn || (sci_iter st <? 2)%nat).
  assert (good u (if pick then fs else fn)) as Hnew by now destruct pick.
  cbn [f_k].
  split; [reflexivity|]. split; [|exact Hnew].
  eapply pbind_eq; [apply when_emit|]. cbv beta.
  eapply pbind_eq with (a := (if pick then fs else fn,
                              if pick then nr_iter st else S (nr_iter st),
                              if pick then S (sci_iter st) else sci_iter st)).
  { destruct pick; cbv zeta;
      (erewrite pbind_eq; [|apply when_emit|reflexivity]);
      now rewrite app_nil_r. }
  cbv beta iota zeta.
  rewrite (np_max_nonempty (tail_diff_nonempty Hnew Hf)), pbind_lift_ok.
  rewrite (np_max_nonempty (tail_nonempty Hnew)), pbind_lift_ok.
  eapply pbind_eq; [apply when_emit|]. cbv beta. unfold pret.
  reflexivity.
Qed.

Lemma printed_silent (c : vec * vec * R * R) (i : nat) (st : loop_state) :
  silent (printed verbose c i st).
Proof.
  destruct c as [[[fs fn] gs] gn]. unfold printed.
  repeat apply silent_app; try apply silent_when; try apply silent_nil;
    try discriminate.
  destruct (Rltb gs gn || (sci_iter st <? 2)%nat);
    [destruct (S (sci_iter st) <? 2)%nat|]; discriminate.
Qed.

Lemma body_good (i : nat) (st : loop_state) :
  good u (f_k st) ->
  exists c t,
    candidates lstsq gamma u N (f_k st) = Ok c /\
    step i st = selected c i st /\
    adaptive_iteration lstsq verbose gamma tol u N i st =
      (t, Ok (step i st, stops tol st (step i st))) /\
    good u (f_k (step i st)) /\ silent t.
Proof.
  intros Hf. destruct (iteration_good i st Hf) as (c & Hc & Hi & Hg).
  exists c, (printed verbose c i st). unfold body, stops. rewrite Hi. cbn [snd].
  auto using printed_silent.
Qed.

Lemma state_after_S (a j : nat) (st : loop_state) :
  after a (S j) st = after (S a) j (step a st).
Proof. reflexivity. Qed.

Lemma state_after_last (a j : nat) (st : loop_state) :
  after a (S j) st = step (a + j) (after a j st).
Proof.
  unfold state_after. rewrite seq_S, fold_left_app. reflexivity.
Qed.

Lemma state_after_good (j a : nat) (st : loop_state) :
  good u (f_k st) -> good u (f_k (after a j st)).
Proof.
  revert a st. induction j as [|j IH]; intros a st Hf; [exact Hf|].
  rewrite state_after_S. apply IH.
  now destruct (body_good a st Hf) as (_ & _ & _ & _ & _ & Hg & _).
Qed.

(** The loop over the indices [a], ..., [a + len - 1]: it makes [n] passes,
    the test fails at the end of all but the last one, and the last one ends
    in [break] when the test holds there. *)
Lemma adaptive_loop_run (len a : nat) (st : loop_state) :
  good u (f_k st) ->
  exists n t brk,
    (n <= len)%nat /\
    adaptive_loop lstsq verbose gamma tol u N (seq a len) st =
      (t, Ok (after a n st, brk)) /\
    silent t /\
    (forall j, (S j < n)%nat ->
       stops tol (after a j st) (after a (S j) st) = false) /\
    (forall j, n = S j ->
       stops tol (after a j st) (after a (S j) st) = brk) /\
    (brk = false -> n = len) /\
    (brk = true -> (1 <= n)%nat).
Proof.
  revert a st. induction len as [|len IH]; intros a st Hf.
  - exists 0%nat, [], false. cbn [seq adaptive_loop].
    repeat split; try lia; try discriminate. apply silent_nil.
  - destruct (body_good a st Hf) as (c & t & _ & _ & Hi & Hg & Ht).
    cbn [seq adaptive_loop]. rewrite Hi, pbind_ok. cbv beta iota zeta.
    destruct (stops tol st (step a st)) eqn:Hs.
    + exists 1%nat, t, true. cbn [fst snd pret]. rewrite app_nil_r.
      repeat split; try lia; try discriminate; auto.
      intros j Hj. assert (j = 0)%nat as -> by lia. exact Hs.
    + destruct (IH (S a) (step a st) Hg)
        as (n & t' & brk & Hn & Hl & Ht' & Hbefore & Hlast & Hcap & Hbrk).
      exists (S n), (t ++ t'), brk. rewrite Hl. cbn [fst snd].
      rewrite !state_after_S.
      repeat split; [lia | now apply silent_app | | | intros E; specialize (Hcap E); lia | lia].
      * intros [|j] Hj; [exact Hs|].
        rewrite !state_after_S. apply Hbefore. lia.
      * intros [|j] Hj.
        -- assert (n = 0)%nat as -> by lia.
           destruct brk; [specialize (Hbrk eq_refl); lia | exact Hs].
        -- rewrite !state_after_S. apply Hlast. lia.
Qed.

Lemma selected_bound (c : vec * vec * R * R) (i : nat) (st : loop_state) :
  exists md, max_delta (selected c i st) = Some md /\
             iteration (selected c i st) = Some i.
Proof. destruct c as [[[fs fn] gs] gn]. eexists. split; reflexivity. Qed.

(** After at least one pass, [max_delta] and [iteration] are bound. *)
Lemma state_after_bound (j : nat) (st : loop_state) :
  good u (f_k st) ->
  exists md it, max_delta (after 0 (S j) st) = Some md /\
                iteration (after 0 (S j) st) = Some it.
Proof.
  intros Hf. rewrite state_after_last.
  destruct (body_good (0 + j) (after 0 j st) (state_after_good j 0 st Hf))
    as (c & _ & _ & -> & _).
  destruct (selected_bound c (0 + j) (after 0 j st)) as (md & ? & ?).
  eauto.
Qed.

End AdaptiveAnalysis.

Section ValidEstimates.

(** Valid inputs have consistent shapes, and an estimate of the right length
    is as good as the one they were checked with. *)
Lemma valid_shapes (u : mat) (N f : vec) :
  valid_inputs u N f ->
  rectangular u = true /\ length N = length u /\ length f = length u.
Proof.
  intros (Hsh & _). destruct (shapes_ok_inv _ _ _ Hsh) as (Hr & HN & Hf).
  split; [now apply rectangular_iff | split; assumption].
Qed.

Lemma amax_abs_nonneg (l : vec) : 0 <= amax (map Rabs l).
Proof.
  induction l as [|x l IH]; [simpl; lra|].
  cbn [map amax]. destruct (map Rabs l) as [|y l'] eqn:E.
  - apply Rabs_pos.
  - apply Rle_trans with (Rabs x); [apply Rabs_pos | apply Rmax_l].
Qed.

Lemma Reqb_true_iff (x y : R) : Reqb x y = true <-> x = y.
Proof. unfold Reqb. destruct (Req_dec_T x y); split; congruence. Qed.

Lemma Rltb_true_iff (x y : R) : Rltb x y = true <-> x < y.
Proof. unfold Rltb. destruct (Rlt_dec x y); split; auto; discriminate. Qed.

(** The test of the loop on the quotient of two numbers, the first one not
    negative: the quotient is NaN (0 / 0) or it is below the tolerance;
    a positive number over 0 is an infinity and fails the test. *)
Lemma converged_divide (num den tol : R) :
  0 <= num ->
  converged (np_divide num den) tol = true <->
  (den = 0 /\ num = 0) \/ (den <> 0 /\ num / den < tol).
Proof.
  intros Hnum. unfold converged, np_divide.
  destruct (Reqb den 0) eqn:Ed.
  - apply Reqb_true_iff in Ed. destruct (Reqb num 0) eqn:En.
    + apply Reqb_true_iff in En. cbn. intuition.
    + assert (num <> 0) as Hn by (intros E; apply Reqb_true_iff in E; congruence).
      rewrite (proj2 (Rltb_true_iff 0 num)) by lra. cbn. split; [discriminate|].
      intros [[_ E]|[E _]]; contradiction.
  - assert (den <> 0) as Hd by (intros E; apply Reqb_true_iff in E; congruence).
    cbn [np_isnan np_lt orb]. rewrite Rltb_true_iff.
    split; [intros H; right; auto|]. intros [[E _]|[_ H]]; [contradiction | exact H].
Qed.

Lemma stops_spec (tol : R) (prev st : loop_state) :
  stops tol prev st = true <->
  (amax (map Rabs (tl (f_k st))) = 0 /\
   amax (map Rabs (vsub (tl (f_k st)) (tl (f_k prev)))) = 0) \/
  (amax (map Rabs (tl (f_k st))) <> 0 /\
   amax (map Rabs (vsub (tl (f_k st)) (tl (f_k prev)))) /
   amax (map Rabs (tl (f_k st))) < tol).
Proof. unfold stops, relative_change. apply converged_divide, amax_abs_nonneg. Qed.

End ValidEstimates.

(** A call on at least two states with a cap of at least 1, in terms of the
    estimates [f j] after [j] passes and the test at the end of each pass:
    it makes [n] passes, the test fails before the [n]-th, and it holds at
    the [n]-th or [n] is the cap. *)
Lemma adaptive_run_to_test
    (lstsq : mat -> vec -> vec) (u : mat) (N f0 : vec) (tol : R) (o : options) :
  (forall H g, length (lstsq H g) = length g) ->
  rectangular u = true -> length N = length u -> length f0 = length u ->
  (2 <= length u)%nat ->
  (1 <= setdefault (opt_maximum_iterations o) 250%Z)%Z ->
  let verbose := setdefault (opt_verbose o) false in
  let gamma := setdefault (opt_gamma o) 1 in
  let cap := Z.to_nat (setdefault (opt_maximum_iterations o) 250%Z) in
  let f := fun j => f_k (state_after lstsq u N verbose gamma tol 0 j
                                     (mkState f0 None 0 0 None None)) in
  let test := fun j => converged (relative_change (f j) (f (j - 1)%nat)) tol in
  exists n t,
    (1 <= n <= cap)%nat /\
    adaptive lstsq u N f0 tol (Some o) = (t, Ok (f n)) /\
    (forall j, (1 <= j < n)%nat -> test j = false) /\
    (test n = true /\ ~ In (Stdout MsgDidNotConverge) t \/
     test n = false /\ n = cap /\ In (Stdout MsgDidNotConverge) t).
Proof.
  intros Hl Hrect HN Hf0 HK Hcap verbose gamma cap f test.
  set (st0 := mkState f0 None 0 0 None None).
  assert (good u (f_k st0)) as Hg by exact Hf0.
  destruct (@adaptive_loop_run lstsq Hl u N Hrect HN HK verbose gamma tol cap 0 st0 Hg)
    as (n & t & brk & Hn & Hloop & Ht & Hbefore & Hlast & Hfull & Hbrk).
  assert (1 <= n)%nat as Hn1.
  { destruct brk; [now apply Hbrk|]. rewrite (Hfull eq_refl). unfold cap. lia. }
  destruct n as [|n]; [lia|].
  destruct (@state_after_bound lstsq Hl u N Hrect HN HK verbose gamma tol n st0 Hg)
    as (md & it & Hmd & Hit).
  assert (test (S n) = brk) as Htest.
  { unfold test, f. replace (S n - 1)%nat with n by lia. now apply Hlast. }
  assert (exists W, mbar_W_nk u N f0 = Ok W) as [W HW].
  { eexists. apply mbar_W_nk_eq. now apply (@good_shapes u N Hrect HN f0). }
  assert (exists tail,
            adaptive lstsq u N f0 tol (Some o) =
              ((if verbose then [Stdout MsgDetermining] else []) ++
               [PdbSetTrace] ++
               (if Rltb tol (15 / 10 ^ 16) then [Stdout MsgToleranceTooTight] else []) ++
               t ++ tail ++ [], Ok (f (S n))) /\
            (brk = true -> silent tail) /\
            (brk = false -> In (Stdout MsgDidNotConverge) tail)) as (tail & Ha & Hq & Hd).
  { unfold adaptive. fold verbose gamma cap st0.
    destruct brk.
    - exists (if verbose
              then [Stdout (MsgConverged md (it + 1));
                    Stdout (MsgIterationCounts (it + 1)
                              (nr_iter (state_after lstsq u N verbose gamma tol 0 (S n) st0))
                              (sci_iter (state_after lstsq u N verbose gamma tol 0 (S n) st0)))]
                   ++ (if all_zero (f (S n)) then [Stdout MsgAllZero] else [])
              else []).
      split; [|split; [|discriminate]].
      + eapply pbind_eq; [apply when_emit|]. cbv beta.
        eapply pbind_eq; [reflexivity|]. cbv beta.
        rewrite HW, pbind_lift_ok.
        eapply pbind_eq; [apply when_emit|]. cbv beta.
        eapply pbind_eq; [exact Hloop|]. cbv beta iota zeta.
        eapply pbind_eq; [|reflexivity].
        rewrite Hmd, Hit. destruct verbose; [|reflexivity].
        unfold when at 1.
        rewrite pbind_emit, pbind_emit, when_emit. reflexivity.
      + intros _. destruct verbose; [|apply silent_nil].
        intros [E|[E|Hin]]; try discriminate.
        cbn [app] in Hin.
        destruct (all_zero (f (S n)));
          [destruct Hin as [E|[]]; discriminate | destruct Hin].
    - exists [Stdout MsgDidNotConverge;
              Stdout (MsgMaxDelta md tol (setdefault (opt_maximum_iterations o) 250%Z) it)].
      split; [|split; [discriminate|intros _; now left]].
      eapply pbind_eq; [apply when_emit|]. cbv beta.
      eapply pbind_eq; [reflexivity|]. cbv beta.
      rewrite HW, pbind_lift_ok.
      eapply pbind_eq; [apply when_emit|]. cbv beta.
      eapply pbind_eq; [exact Hloop|]. cbv beta iota zeta.
      eapply pbind_eq; [|reflexivity].
      rewrite Hmd, Hit. rewrite pbind_emit. reflexivity. }
  exists (S n). eexists. split; [lia|]. split; [exact Ha|].
  split.
  { intros j Hj. unfold test, f. destruct j as [|j]; [lia|].
    replace (S j - 1)%nat with j by lia. apply Hbefore. lia. }
  rewrite Htest. destruct brk; [left|right].
  - split; [reflexivity|].
    apply silent_app; [apply silent_when; discriminate|].
    apply silent_app; [intros [E|[]]; discriminate|].
    apply silent_app; [apply silent_when; discriminate|].
    apply silent_app; [exact Ht|].
    apply silent_app; [now apply Hq | apply silent_nil].
  - split; [reflexivity|]. split; [now apply Hfull|].
    apply in_or_app. right. apply in_or_app. right. apply in_or_app. right.
    apply in_or_app. right. apply in_or_app. left. now apply Hd.
Qed.

(** C6. On valid inputs with at least two states and an iteration cap of at
    least 1, with [f j] the estimate after [j] passes of the loop body,
    [change j = max(|f j [1:] - f (j-1) [1:]|)] and [size j = max(|f j [1:]|)]:
    the test of pass [j] holds when [change j / size j] is NaN (both are 0)
    or below [tol]; a positive [change j] over [size j = 0] is an infinity
    and fails it.  [adaptive] makes [n] passes with
    [1 <= n <= maximum_iterations], the test fails after each of the passes
    before the [n]-th, and either it holds after the [n]-th, or [n] is the
    cap; in both cases the call returns [f n] and raises nothing, and it
    prints the did-not-converge warning exactly in the second case. *)
Theorem adaptive_stops_on_test_or_cap
    (lstsq : mat -> vec -> vec) (u : mat) (N f0 : vec) (tol : R) (o : options) :
  (forall H g, length (lstsq H g) = length g) ->
  valid_inputs u N f0 ->
  (2 <= length u)%nat ->
  (1 <= setdefault (opt_maximum_iterations o) 250%Z)%Z ->
  let verbose := setdefault (opt_verbose o) false in
  let gamma := setdefault (opt_gamma o) 1 in
  let cap := Z.to_nat (setdefault (opt_maximum_iterations o) 250%Z) in
  let f := fun j => f_k (state_after lstsq u N verbose gamma tol 0 j
                                     (mkState f0 None 0 0 None None)) in
  let change := fun j => amax (map Rabs (vsub (tl (f j)) (tl (f (j - 1)%nat)))) in
  let size := fun j => amax (map Rabs (tl (f j))) in
  let test := fun j => (size j = 0 /\ change j = 0) \/
                       (size j <> 0 /\ change j / size j < tol) in
  exists n t,
    (1 <= n <= cap)%nat /\
    adaptive lstsq u N f0 tol (Some o) = (t, Ok (f n)) /\
    (forall j, (1 <= j < n)%nat -> ~ test j) /\
    (test n /\ ~ In (Stdout MsgDidNotConverge) t \/
     ~ test n /\ n = cap /\ In (Stdout MsgDidNotConverge) t).
Proof.
  intros Hl Hv HK Hcap verbose gamma cap f change size test.
  destruct (valid_shapes Hv) as (Hrect & HN & Hf0).
  destruct (@adaptive_run_to_test lstsq u N f0 tol o Hl Hrect HN Hf0 HK Hcap)
    as (n & t & Hn & Ha & Hbefore & Hlast).
  fold verbose gamma cap f in Hn, Ha, Hbefore, Hlast.
  assert (forall j, converged (relative_change (f j) (f (j - 1)%nat)) tol = true <->
                    test j) as Htest.
  { intros j. unfold test, size, change.
    apply converged_divide, amax_abs_nonneg. }
  exists n, t. split; [exact Hn|]. split; [exact Ha|]. split.
  - intros j Hj Ht. apply Htest in Ht.
    pose proof (Hbefore j Hj) as Hb.
    change (converged (relative_change (f j) (f (j - 1)%nat)) tol = false) in Hb.
    congruence.
  - destruct Hlast as [[Ht Hs]|(Ht & Hc & Hs)].
    + left. split; [apply Htest; exact Ht | exact Hs].
    + right. split; [|split; assumption].
      intros Hn'. apply Htest in Hn'.
      change (converged (relative_change (f n) (f (n - 1)%nat)) tol = false) in Ht.
      congruence.
Qed.

Lemma adaptive_stops_on_test_or_cap_witness :
  let u := [[0]; [1]] in
  let N := [1; 1] in
  let f0 := [0; 0] in
  let tol := 1 / 10 ^ 12 in
  let f := fun j => f_k (state_after lstsq0 u N false 1 tol 0 j
                                     (mkState f0 None 0 0 None None)) in
  let change := fun j => amax (map Rabs (vsub (tl (f j)) (tl (f (j - 1)%nat)))) in
  let size := fun j => amax (map Rabs (tl (f j))) in
  let test := fun j => (size j = 0 /\ change j = 0) \/
                       (size j <> 0 /\ change j / size j < tol) in
  exists n t,
    (1 <= n <= 250)%nat /\
    adaptive lstsq0 u N f0 tol (Some (mkOptions None None None None)) = (t, Ok (f n)) /\
    (forall j, (1 <= j < n)%nat -> ~ test j) /\
    (test n /\ ~ In (Stdout MsgDidNotConverge) t \/
     ~ test n /\ n = 250%nat /\ In (Stdout MsgDidNotConverge) t).
Proof.
  apply (@adaptive_stops_on_test_or_cap lstsq0 [[0]; [1]] [1; 1] [0; 0] (1 / 10 ^ 12)
           (mkOptions None None None None)).
  - reflexivity.
  - repeat split; [simpl; lia | repeat constructor; lra | constructor; lra].
  - simpl; lia.
  - simpl; lia.
Defined.

Lemma use_sci_spec (gs gn : R) (sci : nat) :
  Rltb gs gn || (sci <? 2)%nat = true <-> gs < gn \/ (sci < 2)%nat.
Proof.
  unfold Rltb. rewrite orb_true_iff, Nat.ltb_lt.
  destruct (Rlt_dec gs gn); intuition discriminate.
Qed.

(** The candidates of a pass, written out: the two estimates and the squared
    norms of the gradients at them. *)
Lemma candidates_spec (lstsq : mat -> vec -> vec) (gamma : R) (u : mat)
    (N f fs fn : vec) (gs gn : R) :
  candidates lstsq gamma u N f = Ok (fs, fn, gs, gn) ->
  exists g H s g_sci g_nr,
    mbar_gradient u N f = Ok g /\ mbar_hessian u N f = Ok H /\
    self_consistent_update u N f = Ok s /\
    fs = map (fun x => x - nth 0 s 0) s /\
    fn = vsub f (map (fun x => gamma * x)
                     (map (fun x => x - nth 0 (lstsq H g) 0) (lstsq H g))) /\
    mbar_gradient u N fs = Ok g_sci /\ gs = dot g_sci g_sci /\
    mbar_gradient u N fn = Ok g_nr /\ gn = dot g_nr g_nr.
Proof.
  unfold candidates.
  destruct (mbar_gradient u N f) as [g|] eqn:Eg; [|discriminate]. cbn [rbind].
  destruct (mbar_hessian u N f) as [H|] eqn:EH; [|discriminate]. cbn [rbind].
  destruct (lstsq H g) as [|h0 l] eqn:El; [discriminate|]. cbn [index0 rbind].
  destruct (self_consistent_update u N f) as [s|] eqn:Es; [|discriminate].
  cbn [rbind].
  destruct s as [|s0 s]; [discriminate|]. cbn [index0 rbind].
  destruct (mbar_gradient u N (map (fun x => x - s0) (s0 :: s))) as [g1|] eqn:E1;
    [|discriminate].
  cbn [rbind].
  match goal with
  | |- context [rbind (mbar_gradient u N ?x) _] =>
      destruct (mbar_gradient u N x) as [g2|] eqn:E2; [|discriminate]
  end.
  cbn [rbind]. intros E. injection E as <- <- <- <-.
  exists g, H, (s0 :: s), g1, g2. rewrite El. cbn [nth].
  repeat split; try assumption; reflexivity.
Qed.

(** C5. On valid inputs with at least two states, with [st j] the local
    variables of [adaptive] after [j] passes of the loop body (both counters
    are 0 before the first pass, and every state the loop reaches is one of
    them): pass [j] computes, at the current estimate [f], the gradient [g],
    the Hessian [H] and the self-consistent update [s], the candidates
    [f_sci = s - s[0]] and [f_nr = f - gamma * (Hinvg - Hinvg[0])] with
    [Hinvg = lstsq(H, g)], and the squared norms of the gradients at the two
    candidates.  The next estimate is [f_sci] when [gnorm_sci < gnorm_nr] or
    fewer than two self-consistent steps were taken, which [sci_iter]
    counts; otherwise it is [f_nr] and [nr_iter] counts the step. *)
Theorem adaptive_selection_rule
    (lstsq : mat -> vec -> vec) (u : mat) (N f0 : vec)
    (verbose : bool) (gamma tol : R) :
  (forall H g, length (lstsq H g) = length g) ->
  valid_inputs u N f0 ->
  (2 <= length u)%nat ->
  let st := fun j => state_after lstsq u N verbose gamma tol 0 j
                                 (mkState f0 None 0 0 None None) in
  (sci_iter (st 0%nat) = 0%nat /\ nr_iter (st 0%nat) = 0%nat) /\
  (forall j t s brk,
     adaptive_loop lstsq verbose gamma tol u N (seq 0 j) (st 0%nat) = (t, Ok (s, brk)) ->
     exists n, (n <= j)%nat /\ s = st n) /\
  forall j, exists g H s g_sci g_nr t brk,
    let f := f_k (st j) in
    let Hinvg := lstsq H g in
    let f_sci := map (fun x => x - nth 0 s 0) s in
    let f_nr := vsub f (map (fun x => gamma * x)
                            (map (fun x => x - nth 0 Hinvg 0) Hinvg)) in
    let gnorm_sci := dot g_sci g_sci in
    let gnorm_nr := dot g_nr g_nr in
    valid_inputs u N f /\
    mbar_gradient u N f = Ok g /\ mbar_hessian u N f = Ok H /\
    self_consistent_update u N f = Ok s /\
    mbar_gradient u N f_sci = Ok g_sci /\ mbar_gradient u N f_nr = Ok g_nr /\
    adaptive_iteration lstsq verbose gamma tol u N j (st j) = (t, Ok (st (S j), brk)) /\
    (gnorm_sci < gnorm_nr \/ (sci_iter (st j) < 2)%nat ->
       f_k (st (S j)) = f_sci /\
       sci_iter (st (S j)) = S (sci_iter (st j)) /\
       nr_iter (st (S j)) = nr_iter (st j)) /\
    (~ (gnorm_sci < gnorm_nr \/ (sci_iter (st j) < 2)%nat) ->
       f_k (st (S j)) = f_nr /\
       sci_iter (st (S j)) = sci_iter (st j) /\
       nr_iter (st (S j)) = S (nr_iter (st j))).
Proof.
  intros Hl Hv HK.
  destruct (valid_shapes Hv) as (Hrect & HN & Hf0).
  set (st0 := mkState f0 None 0 0 None None). intros st.
  assert (good u (f_k st0)) as Hg by exact Hf0.
  split; [split; reflexivity|]. split.
  - intros j t s brk E.
    destruct (@adaptive_loop_run lstsq Hl u N Hrect HN HK verbose gamma tol j 0 st0 Hg)
      as (n & t' & brk' & Hn & Hloop & _).
    change (st 0%nat) with st0 in E. rewrite Hloop in E.
    exists n. split; [exact Hn|]. now inversion E.
  - intros j. unfold st.
    set (sj := state_after lstsq u N verbose gamma tol 0 j st0).
    assert (good u (f_k sj)) as Hj
      by apply (@state_after_good lstsq Hl u N Hrect HN HK verbose gamma tol j 0 st0 Hg).
    destruct (@body_good lstsq Hl u N Hrect HN HK verbose gamma tol j sj Hj)
      as ([[[fs fn] gs] gn] & t & Hc & Hb & Hi & _).
    replace (state_after lstsq u N verbose gamma tol 0 (S j) st0)
      with (body lstsq u N verbose gamma tol j sj)
      by (unfold sj; now rewrite state_after_last).
    destruct (candidates_spec _ _ _ _ _ Hc)
      as (g & H & s & g_sci & g_nr & Eg & EH & Es & Efs & Efn & Egs & -> & Egn & ->).
    exists g, H, s, g_sci, g_nr, t. eexists. cbv zeta.
    rewrite <- Efs, <- Efn.
    split.
    { destruct Hv as (_ & Hsamples & Hpos & Hex).
      split; [now apply (@good_shapes u N Hrect HN) | auto]. }
    split; [exact Eg|]. split; [exact EH|]. split; [exact Es|].
    split; [exact Egs|]. split; [exact Egn|]. split; [exact Hi|].
    rewrite Hb. unfold selected.
    pose proof (use_sci_spec (dot g_sci g_sci) (dot g_nr g_nr) (sci_iter sj)) as Hpick.
    destruct (Rltb (dot g_sci g_sci) (dot g_nr g_nr) || (sci_iter sj <? 2)%nat);
      cbn [f_k sci_iter nr_iter].
    + split; [auto|]. intros Hno. exfalso. apply Hno. now apply Hpick.
    + split; [|auto]. intros Hyes. apply Hpick in Hyes. discriminate.
Qed.

Lemma adaptive_selection_rule_witness :
  let u := [[0]; [1]] in
  let N := [1; 1] in
  let f0 := [0; 0] in
  let tol := 1 / 10 ^ 12 in
  let st := fun j => state_after lstsq0 u N false 1 tol 0 j
                                 (mkState f0 None 0 0 None None) in
  (sci_iter (st 0%nat) = 0%nat /\ nr_iter (st 0%nat) = 0%nat) /\
  (forall j t s brk,
     adaptive_loop lstsq0 false 1 tol u N (seq 0 j) (st 0%nat) = (t, Ok (s, brk)) ->
     exists n, (n <= j)%nat /\ s = st n) /\
  forall j, exists g H s g_sci g_nr t brk,
    let f := f_k (st j) in
    let Hinvg := lstsq0 H g in
    let f_sci := map (fun x => x - nth 0 s 0) s in
    let f_nr := vsub f (map (fun x => 1 * x)
                            (map (fun x => x - nth 0 Hinvg 0) Hinvg)) in
    let gnorm_sci := dot g_sci g_sci in
    let gnorm_nr := dot g_nr g_nr in
    valid_inputs u N f /\
    mbar_gradient u N f = Ok g /\ mbar_hessian u N f = Ok H /\
    self_consistent_update u N f = Ok s /\
    mbar_gradient u N f_sci = Ok g_sci /\ mbar_gradient u N f_nr = Ok g_nr /\
    adaptive_iteration lstsq0 false 1 tol u N j (st j) = (t, Ok (st (S j), brk)) /\
    (gnorm_sci < gnorm_nr \/ (sci_iter (st j) < 2)%nat ->
       f_k (st (S j)) = f_sci /\
       sci_iter (st (S j)) = S (sci_iter (st j)) /\
       nr_iter (st (S j)) = nr_iter (st j)) /\
    (~ (gnorm_sci < gnorm_nr \/ (sci_iter (st j) < 2)%nat) ->
       f_k (st (S j)) = f_nr /\
       sci_iter (st (S j)) = sci_iter (st j) /\
       nr_iter (st (S j)) = S (nr_iter (st j))).
Proof.
  apply (@adaptive_selection_rule lstsq0 [[0]; [1]] [1; 1] [0; 0] false 1 (1 / 10 ^ 12)).
  - reflexivity.
  - repeat split; [simpl; lia | repeat constructor; lra | constructor; lra].
  - simpl; lia.
Defined.

(** ** Which exceptions a call can raise *)

Section RaisesIn.

Variable E : exn -> Prop.

Lemma raises_in_ok {A : Type} (a : A) : raises_in E (Ok a).
Proof. intros e. discriminate. Qed.

Lemma raises_in_raise {A : Type} (e : exn) : E e -> raises_in E (@Raise A e).
Proof. intros He e' H. now injection H as <-. Qed.

Lemma raises_in_rbind {A B : Type} (r : result A) (k : A -> result B) :
  raises_in E r -> (forall a, raises_in E (k a)) -> raises_in E (rbind r k).
Proof.
  intros Hr Hk. destruct r as [a|e]; simpl; [apply Hk|].
  apply raises_in_raise, Hr. reflexivity.
Qed.

Lemma prog_raises_in_pret {A : Type} (a : A) : prog_raises_in E (pret a).
Proof. apply raises_in_ok. Qed.

Lemma prog_raises_in_ok {A : Type} (t : list event) (a : A) :
  prog_raises_in E (t, Ok a).
Proof. apply raises_in_ok. Qed.

Lemma prog_raises_in_praise {A : Type} (e : exn) :
  E e -> prog_raises_in E (@praise A e).
Proof. apply raises_in_raise. Qed.

Lemma prog_raises_in_lift {A : Type} (r : result A) :
  raises_in E r -> prog_raises_in E (lift r).
Proof. auto. Qed.

Lemma prog_raises_in_emit (e : event) : prog_raises_in E (emit e).
Proof. apply raises_in_ok. Qed.

Lemma prog_raises_in_when (b : bool) (m : prog unit) :
  prog_raises_in E m -> prog_raises_in E (when b m).
Proof. destruct b; [auto | intros _; apply raises_in_ok]. Qed.

Lemma prog_raises_in_pbind {A B : Type} (m : prog A) (k : A -> prog B) :
  prog_raises_in E m -> (forall a, prog_raises_in E (k a)) ->
  prog_raises_in E (pbind m k).
Proof.
  unfold prog_raises_in. intros Hm Hk. rewrite snd_pbind_trace_irrelevant.
  destruct (snd m) as [a|e]; [apply Hk|].
  apply raises_in_raise, Hm. reflexivity.
Qed.

Lemma prog_raises_in_catch_warnings {A : Type} (p : prog A) :
  prog_raises_in E p -> prog_raises_in E (catch_warnings p).
Proof.
  unfold prog_raises_in, catch_warnings. cbn [snd]. intros Hp.
  destruct (snd p) as [a|e]; [apply raises_in_ok|].
  apply raises_in_raise, Hp. reflexivity.
Qed.

Lemma mem_raises_in_hret {A : Type} (a : A) : mem_raises_in E (hret a).
Proof. intros h. apply raises_in_ok. Qed.

Lemma mem_raises_in_hlift {A : Type} (p : prog A) :
  prog_raises_in E p -> mem_raises_in E (hlift p).
Proof. intros Hp h. exact Hp. Qed.

Lemma mem_raises_in_alloc (a : ndarray) : mem_raises_in E (alloc a).
Proof. intros h. apply raises_in_ok. Qed.

Lemma mem_raises_in_store (l : loc) (a : ndarray) : mem_raises_in E (store l a).
Proof. intros h. apply raises_in_ok. Qed.

Lemma mem_raises_in_hbind {A B : Type} (m : hprog A) (k : A -> hprog B) :
  mem_raises_in E m -> (forall a, mem_raises_in E (k a)) ->
  mem_raises_in E (hbind m k).
Proof.
  intros Hm Hk h. unfold hbind. specialize (Hm h).
  destruct (out_result (m h)) as [a|e]; cbn [out_result]; [apply Hk|].
  apply raises_in_raise, Hm. reflexivity.
Qed.

Lemma mem_raises_in_if {A : Type} (b : bool) (m1 m2 : hprog A) :
  mem_raises_in E m1 -> mem_raises_in E m2 ->
  mem_raises_in E (if b then m1 else m2).
Proof. now destruct b. Qed.

End RaisesIn.

Create HintDb raises.
#[export] Hint Resolve raises_in_ok prog_raises_in_ok prog_raises_in_pret
  prog_raises_in_emit
  prog_raises_in_lift prog_raises_in_when prog_raises_in_catch_warnings
  mem_raises_in_hret mem_raises_in_hlift mem_raises_in_alloc mem_raises_in_store
  : raises.

Ltac split_pairs :=
  repeat match goal with x : (_ * _)%type |- _ => destruct x end.

(** Through a sequence of commands, down to its primitive steps. *)
Ltac raises_step :=
  lazymatch goal with
  | |- raises_in _ (rbind _ _) => apply raises_in_rbind
  | |- prog_raises_in _ (pbind _ _) => apply prog_raises_in_pbind
  | |- mem_raises_in _ (hbind _ _) => apply mem_raises_in_hbind
  | |- mem_raises_in _ (if _ then _ else _) => apply mem_raises_in_if
  | |- prog_raises_in _ (when _ _) => apply prog_raises_in_when
  | |- prog_raises_in _ (lift _) => apply prog_raises_in_lift
  | |- mem_raises_in _ (hlift _) => apply mem_raises_in_hlift
  | |- prog_raises_in _ (catch_warnings _) => apply prog_raises_in_catch_warnings
  end;
  intros; split_pairs; cbv beta iota zeta.

Ltac raises_seq := repeat raises_step; auto with raises.

Section RaisesInModule.

Variable E : exn -> Prop.

(** The exceptions the module itself raises. *)
Hypothesis shape_error : E ShapeError.
Hypothesis index_error : E IndexError.
Hypothesis value_error : E ValueError.
Hypothesis attribute_error : E AttributeError.
Hypothesis unbound_local_error : E UnboundLocalError.

Lemma raises_in_validate_inputs (u : mat) (N f : vec) :
  raises_in E (validate_inputs u N f).
Proof.
  unfold validate_inputs.
  destruct (shapes_ok u N f); [apply raises_in_ok | now apply raises_in_raise].
Qed.

Lemma raises_in_index0 (v : vec) : raises_in E (index0 v).
Proof. destruct v; [now apply raises_in_raise | apply raises_in_ok]. Qed.

Lemma raises_in_np_max (v : vec) : raises_in E (np_max v).
Proof. destruct v; [now apply raises_in_raise | apply raises_in_ok]. Qed.

Lemma raises_in_mbar_gradient (u : mat) (N f : vec) :
  raises_in E (mbar_gradient u N f).
Proof.
  apply raises_in_rbind; [apply raises_in_validate_inputs|].
  intros [[u' N'] f']. apply raises_in_ok.
Qed.

Lemma raises_in_mbar_objective_and_gradient (u : mat) (N f : vec) :
  raises_in E (mbar_objective_and_gradient u N f).
Proof.
  apply raises_in_rbind; [apply raises_in_validate_inputs|].
  intros [[u' N'] f']. apply raises_in_ok.
Qed.

Lemma raises_in_mbar_W_nk (u : mat) (N f : vec) : raises_in E (mbar_W_nk u N f).
Proof.
  apply raises_in_rbind; [|intros; apply raises_in_ok].
  apply raises_in_rbind; [apply raises_in_validate_inputs|].
  intros [[u' N'] f']. apply raises_in_ok.
Qed.

Lemma raises_in_mbar_hessian (u : mat) (N f : vec) :
  raises_in E (mbar_hessian u N f).
Proof.
  apply raises_in_rbind; [apply raises_in_validate_inputs|].
  intros [[u' N'] f'].
  apply raises_in_rbind; [apply raises_in_mbar_W_nk | intros; apply raises_in_ok].
Qed.

Lemma raises_in_self_consistent_update (u : mat) (N f : vec) :
  raises_in E (self_consistent_update u N f).
Proof.
  apply raises_in_rbind; [apply raises_in_validate_inputs|].
  intros [[u' N'] f']. apply raises_in_ok.
Qed.

Lemma raises_in_precondition_u_kn (u : mat) (N f : vec) :
  raises_in E (precondition_u_kn u N f).
Proof.
  apply raises_in_rbind; [apply raises_in_validate_inputs|].
  intros [[u' N'] f']. apply raises_in_ok.
Qed.

#[local] Hint Resolve raises_in_validate_inputs raises_in_index0 raises_in_np_max
  raises_in_mbar_gradient raises_in_mbar_objective_and_gradient raises_in_mbar_W_nk
  raises_in_mbar_hessian raises_in_self_consistent_update
  raises_in_precondition_u_kn : raises.

Lemma mem_raises_in_load1 (l : loc) : mem_raises_in E (load1 l).
Proof.
  intros h. unfold load1.
  destruct (nth_error h l) as [[v|m]|]; cbn [out_result];
    auto using raises_in_ok, raises_in_raise.
Qed.

Lemma mem_raises_in_load2 (l : loc) : mem_raises_in E (load2 l).
Proof.
  intros h. unfold load2.
  destruct (nth_error h l) as [[v|m]|]; cbn [out_result];
    auto using raises_in_ok, raises_in_raise.
Qed.

#[local] Hint Resolve mem_raises_in_load1 mem_raises_in_load2 : raises.

Variable lstsq : mat -> vec -> vec.

Lemma raises_in_candidates (gamma : R) (u : mat) (N f : vec) :
  raises_in E (candidates lstsq gamma u N f).
Proof. unfold candidates. raises_seq. Qed.

#[local] Hint Resolve raises_in_candidates : raises.

Lemma prog_raises_in_adaptive_iteration (verbose : bool) (gamma tol : R)
    (u : mat) (N : vec) (i : nat) (st : loop_state) :
  prog_raises_in E (adaptive_iteration lstsq verbose gamma tol u N i st).
Proof.
  unfold adaptive_iteration. raises_step; [auto with raises|].
  raises_step; [auto with raises|].
  raises_step.
  - destruct (Rltb r0 r || (sci_iter st <? 2)%nat); raises_seq.
  - raises_seq.
Qed.

Lemma prog_raises_in_adaptive_loop (verbose : bool) (gamma tol : R)
    (u : mat) (N : vec) (its : list nat) :
  forall st, prog_raises_in E (adaptive_loop lstsq verbose gamma tol u N its st).
Proof.
  induction its as [|i its IH]; intros st; cbn [adaptive_loop].
  - auto with raises.
  - raises_step; [apply prog_raises_in_adaptive_iteration|].
    destruct b; [auto with raises | apply IH].
Qed.

Lemma prog_raises_in_adaptive (u : mat) (N f : vec) (tol : R)
    (opts : option options) :
  prog_raises_in E (adaptive lstsq u N f tol opts).
Proof.
  unfold adaptive. destruct opts as [o|]; [|now apply prog_raises_in_praise].
  cbv zeta.
  raises_step; [auto with raises|].
  raises_step; [auto with raises|].
  raises_step; [auto with raises|].
  raises_step; [auto with raises|].
  raises_step; [apply prog_raises_in_adaptive_loop|].
  raises_step; [|auto with raises].
  destruct b.
  - apply prog_raises_in_when.
    destruct (max_delta l) as [md|], (iteration l) as [it|];
      try (now apply prog_raises_in_praise).
    raises_seq.
  - raises_step; [auto with raises|].
    destruct (max_delta l) as [md|], (iteration l) as [it|];
      try (now apply prog_raises_in_praise).
    auto with raises.
Qed.

Lemma mem_raises_in_validate_inputs_mem (lu lN lf : loc) :
  mem_raises_in E (validate_inputs_mem lu lN lf).
Proof. unfold validate_inputs_mem. raises_seq. Qed.

Lemma mem_raises_in_precondition_u_kn_mem (lu lN lf : loc) :
  mem_raises_in E (precondition_u_kn_mem lu lN lf).
Proof.
  unfold precondition_u_kn_mem.
  raises_step; [apply mem_raises_in_validate_inputs_mem|]. raises_seq.
Qed.

Variable scipy_minimize :
  (vec -> result (R * vec)) -> option (vec -> result mat) -> vec ->
  string -> R -> option options -> prog vec.
Variable scipy_root :
  (vec -> result vec) -> (vec -> result mat) -> vec ->
  string -> R -> option options -> prog vec.
Variable check_w_normalized : mat -> vec -> result unit.

Hypothesis scipy_minimize_raises :
  forall g hs x m t o, prog_raises_in E (scipy_minimize g hs x m t o).
Hypothesis scipy_root_raises :
  forall g hs x m t o, prog_raises_in E (scipy_root g hs x m t o).
Hypothesis check_w_normalized_raises :
  forall W N, raises_in E (check_w_normalized W N).

Lemma mem_raises_in_solve_mbar_once (lu lN lf : loc) (method : string) (tol : R)
    (opts : option options) :
  mem_raises_in E (solve_mbar_once lstsq scipy_minimize scipy_root
                     check_w_normalized lu lN lf method tol opts).
Proof.
  unfold solve_mbar_once.
  raises_step; [apply mem_raises_in_validate_inputs_mem|].
  raises_step; [auto with raises|].
  raises_step; [raises_seq|].
  raises_step; [auto with raises|].
  raises_step; [apply mem_raises_in_precondition_u_kn_mem|].
  raises_step; [auto with raises|].
  raises_step; [auto with raises|].
  raises_step; [auto with raises|].
  raises_step.
  - repeat apply mem_raises_in_if; raises_seq;
      auto using prog_raises_in_adaptive.
  - raises_seq.
Qed.

End RaisesInModule.

(** ** The shape of the preconditioned energies and of the estimate returned *)

Section PreconditionerShapes.

Lemma rectangular_of_shapes (u : mat) (N f : vec) :
  shapes_ok u N f = true -> rectangular u = true.
Proof.
  intros H. apply rectangular_iff. now destruct (shapes_ok_inv _ _ _ H).
Qed.

(** The shape of the array [precondition_u_kn] returns, whatever the counts. *)
Lemma preconditioned_shape (u : mat) (N f g : vec) :
  shapes_ok u N f = true ->
  shapes_ok (preconditioned u N f) N g = shapes_ok u N g.
Proof.
  intros Hsh. pose proof (rectangular_of_shapes _ _ _ Hsh) as Hr.
  assert (forall g', shapes_ok (sub_cols u (min0 u)) N g' = shapes_ok u N g') as Hsub.
  { intros g'. rewrite sub_cols_add_cols. apply shapes_ok_add_cols; [exact Hr|].
    now rewrite length_map, length_min0. }
  unfold preconditioned. rewrite shapes_ok_add_cols.
  - apply Hsub.
  - apply (@rectangular_of_shapes _ N f). now rewrite Hsub.
  - now rewrite length_map, length_log_denominator_n.
Qed.

End PreconditionerShapes.

Section AdaptiveResult.

Variable lstsq : mat -> vec -> vec.
Hypothesis lstsq_length : forall H g, length (lstsq H g) = length g.

Variables (u : mat) (N : vec).
Hypothesis Hrect : rectangular u = true.
Hypothesis HN : length N = length u.
Hypothesis HK : (2 <= length u)%nat.

Lemma snd_pbind_ok {A B : Type} (m : prog A) (k : A -> prog B)
    (t : list event) (a : A) :
  m = (t, Ok a) -> snd (pbind m k) = snd (k a).
Proof. intros ->. now rewrite pbind_ok. Qed.

(** What [adaptive] returns is the estimate after some number of passes. *)
Lemma adaptive_returns_good (f0 : vec) (tol : R) (opts : option options)
    (t : list event) (r : vec) :
  good u f0 -> adaptive lstsq u N f0 tol opts = (t, Ok r) -> good u r.
Proof.
  intros Hf E. destruct opts as [o|]; [|discriminate].
  apply (f_equal snd) in E. cbn [snd] in E.
  unfold adaptive in E. cbv zeta in E.
  set (verbose := setdefault (opt_verbose o) false) in E.
  set (gamma := setdefault (opt_gamma o) 1) in E.
  set (st0 := mkState f0 None 0 0 None None) in E.
  assert (good u (f_k st0)) as Hg by exact Hf.
  destruct (@adaptive_loop_run lstsq lstsq_length u N Hrect HN HK verbose gamma tol
              (Z.to_nat (setdefault (opt_maximum_iterations o) 250%Z)) 0 st0 Hg)
    as (n & tl & brk & _ & Hloop & _).
  rewrite (snd_pbind_ok _ (when_emit _ _)) in E.
  rewrite (snd_pbind_ok (m := emit PdbSetTrace) _ eq_refl) in E.
  rewrite mbar_W_nk_eq in E by now apply (@good_shapes u N Hrect HN f0).
  rewrite pbind_lift_ok in E.
  rewrite (snd_pbind_ok _ (when_emit _ _)) in E.
  rewrite (snd_pbind_ok _ Hloop) in E. cbv beta iota zeta in E.
  rewrite snd_pbind_trace_irrelevant in E.
  match type of E with
  | match ?x with _ => _ end = _ => destruct x; [|discriminate]
  end.
  cbn [pret snd] in E. injection E as <-.
  now apply (@state_after_good lstsq lstsq_length u N Hrect HN HK).
Qed.

End AdaptiveResult.

(** With [maximum_iterations <= 0] the loop body never runs: the call prints
    the warning and then reads [max_delta], which no pass has bound. *)
Lemma adaptive_without_passes (lstsq : mat -> vec -> vec) (u : mat) (N f0 : vec)
    (tol : R) (o : options) :
  shapes_ok u N f0 = true ->
  (setdefault (opt_maximum_iterations o) 250 <= 0)%Z ->
  snd (adaptive lstsq u N f0 tol (Some o)) = Raise UnboundLocalError.
Proof.
  intros Hsh Hcap. unfold adaptive. cbv zeta.
  replace (Z.to_nat (setdefault (opt_maximum_iterations o) 250%Z)) with 0%nat by lia.
  rewrite (snd_pbind_ok _ (when_emit _ _)).
  rewrite (snd_pbind_ok (m := emit PdbSetTrace) _ eq_refl).
  rewrite mbar_W_nk_eq by exact Hsh. rewrite pbind_lift_ok.
  rewrite (snd_pbind_ok _ (when_emit _ _)).
  cbn [seq adaptive_loop]. rewrite pbind_pret. cbv beta iota zeta.
  cbn [max_delta iteration]. rewrite pbind_emit. reflexivity.
Qed.

(** ** A call with a state that has no samples *)

Section ZeroCountExample.

Lemma Rltb_true (x y : R) : x < y -> Rltb x y = true.
Proof. unfold Rltb. intros H. destruct (Rlt_dec x y); [reflexivity | lra]. Qed.

Lemma Rltb_false (x y : R) : y <= x -> Rltb x y = false.
Proof. unfold Rltb. intros H. destruct (Rlt_dec x y); [lra | reflexivity]. Qed.

Lemma Reqb_false (x y : R) : x <> y -> Reqb x y = false.
Proof. unfold Reqb. intros H. destruct (Req_dec_T x y); [contradiction | reflexivity]. Qed.

(** Two states, one sample, which the first state holds: [u = [[0]; [1]]],
    [N = [1; 0]]. *)
Lemma zero_count_valid (b : R) : valid_inputs [[0]; [1]] [1; 0] [0; b].
Proof. repeat split; [simpl; lia | repeat constructor; lra | constructor; lra]. Qed.

Lemma zero_count_log_denominator (a b : R) :
  a = 0 -> log_denominator_n [[0]; [1]] [1; 0] [a; b] = [0].
Proof.
  intros ->. unfold log_denominator_n, vsub, col.
  cbn [map seq zipWith n_samples length nth].
  assert (wexp [1; 0] [0 - 0; b - 1] = 1) as E.
  { unfold wexp. cbn [zipWith Rsum]. replace (0 - 0) with 0 by lra.
    rewrite exp_0. lra. }
  rewrite logsumexp_weighted by (rewrite E; lra).
  now rewrite E, ln_1.
Qed.

Lemma zero_count_log_numerator : log_numerator_k [[0]; [1]] [0] = [0; -1].
Proof.
  unfold log_numerator_k. cbn [map zipWith].
  rewrite !logsumexp_plain by discriminate. cbn [map Rsum].
  rewrite !Rplus_0_r, !ln_exp. f_equal; [lra | f_equal; lra].
Qed.

Lemma zero_count_gradient (a b : R) :
  a = 0 -> mbar_gradient [[0]; [1]] [1; 0] [a; b] = Ok [0; 0].
Proof.
  intros ->. rewrite mbar_gradient_eq by reflexivity.
  rewrite zero_count_log_denominator, zero_count_log_numerator by reflexivity.
  unfold gradient_of. cbn [zipWith]. replace (0 + 0) with 0 by lra.
  rewrite exp_0. do 2 f_equal; [lra | f_equal; lra].
Qed.

Lemma zero_count_update (a b : R) :
  a = 0 -> self_consistent_update [[0]; [1]] [1; 0] [a; b] = Ok [-1 * 0; -1 * -1].
Proof.
  intros ->. rewrite self_consistent_update_eq by apply zero_count_valid.
  now rewrite zero_count_log_denominator, zero_count_log_numerator.
Qed.

Lemma zero_count_candidates (b : R) :
  candidates lstsq0 1 [[0]; [1]] [1; 0] [0; b] = Ok ([0; 1], [0; b], 0, 0).
Proof.
  unfold candidates. rewrite zero_count_gradient by reflexivity.
  rewrite mbar_hessian_eq by reflexivity. cbn [rbind]. unfold lstsq0.
  cbn [index0 rbind map]. rewrite zero_count_update by reflexivity.
  cbn [rbind index0 map vsub zipWith].
  rewrite !zero_count_gradient by lra. cbn [rbind].
  unfold dot. cbn [zipWith Rsum].
  do 2 f_equal; [f_equal; [f_equal|]|]; try lra.
  - f_equal; [lra | f_equal; lra].
  - f_equal; [lra | f_equal; lra].
Qed.

Lemma zero_count_pass (tol b : R) (i : nat) (st : loop_state) :
  f_k st = [0; b] ->
  let c := ([0; 1], [0; b], 0, 0) in
  adaptive_iteration lstsq0 false 1 tol [[0]; [1]] [1; 0] i st =
    (printed false c i st,
     Ok (selected c i st,
         converged (relative_change (f_k (selected c i st)) (f_k st)) tol)).
Proof.
  intros Hf c.
  destruct (@iteration_good lstsq0 (fun _ _ => eq_refl) [[0]; [1]] [1; 0]
              eq_refl eq_refl (le_n 2) false 1 tol i st) as (c' & Hc & Hi & _).
  { now rewrite Hf. }
  rewrite Hf, zero_count_candidates in Hc. injection Hc as <-. exact Hi.
Qed.

Lemma tolerance_small : 1 / 10 ^ 12 < 1.
Proof.
  apply Rmult_lt_reg_r with (10 ^ 12); [apply pow_lt; lra|].
  unfold Rdiv. rewrite Rmult_assoc, Rinv_l by (apply pow_nonzero; lra).
  rewrite Rmult_1_r, Rmult_1_l. apply Rlt_pow_R1; [lra | lia].
Qed.

Lemma tolerance_positive : 0 < 1 / 10 ^ 12.
Proof. apply Rdiv_lt_0_compat; [lra | apply pow_lt; lra]. Qed.

Lemma tolerance_not_tight : 15 / 10 ^ 16 <= 1 / 10 ^ 12.
Proof.
  replace (10 ^ 16) with (10 ^ 12 * 10 ^ 4) by (rewrite <- pow_add; reflexivity).
  assert (0 < 10 ^ 12) as H by (apply pow_lt; lra).
  assert (10 ^ 4 = 10000) as -> by (simpl; lra).
  apply Rmult_le_reg_r with (10 ^ 12); [exact H|].
  unfold Rdiv. rewrite Rinv_mult.
  replace (15 * (/ 10 ^ 12 * / 10000) * 10 ^ 12)
    with (15 / 10000 * (/ 10 ^ 12 * 10 ^ 12)) by (field; lra).
  rewrite Rmult_assoc, Rinv_l by lra. lra.
Qed.

(** The first pass: a self-consistent step to [[0; 1]]; the relative change
    is 1, so the loop goes on. *)
Lemma zero_count_pass_0 :
  adaptive_iteration lstsq0 false 1 (1 / 10 ^ 12) [[0]; [1]] [1; 0] 0
                     (mkState [0; 0] None 0 0 None None) =
    ([], Ok (mkState [0; 1] (Some [0; 0]) 0 1
                     (Some (relative_change [0; 1] [0; 0])) (Some 0%nat),
             false)).
Proof.
  rewrite (@zero_count_pass _ 0) by reflexivity.
  unfold printed, selected. cbn [sci_iter Nat.ltb Nat.leb f_k nr_iter].
  rewrite orb_true_r. cbn [tl map amax].
  rewrite Rabs_R1, Reqb_false by lra.
  f_equal. f_equal. f_equal.
  unfold converged, relative_change, np_divide. cbn [tl vsub zipWith map amax].
  rewrite Rabs_R1, Reqb_false by lra. cbn [np_isnan np_lt orb].
  apply Rltb_false. replace (1 - 0) with 1 by lra. rewrite Rabs_R1.
  pose proof tolerance_small. lra.
Qed.

(** The second pass: a self-consistent step that changes nothing, so the
    test holds and the loop ends. *)
Lemma zero_count_pass_1 :
  adaptive_iteration lstsq0 false 1 (1 / 10 ^ 12) [[0]; [1]] [1; 0] 1
                     (mkState [0; 1] (Some [0; 0]) 0 1
                              (Some (relative_change [0; 1] [0; 0])) (Some 0%nat)) =
    ([], Ok (mkState [0; 1] (Some [0; 1]) 0 2
                     (Some (relative_change [0; 1] [0; 1])) (Some 1%nat),
             true)).
Proof.
  rewrite (@zero_count_pass _ 1) by reflexivity.
  unfold printed, selected. cbn [sci_iter Nat.ltb Nat.leb f_k nr_iter].
  rewrite orb_true_r. cbn [tl map amax].
  rewrite Rabs_R1, Reqb_false by lra.
  f_equal. f_equal. f_equal.
  unfold converged, relative_change, np_divide. cbn [tl vsub zipWith map amax].
  rewrite Rabs_R1, Reqb_false by lra. cbn [np_isnan np_lt orb].
  apply Rltb_true. replace (1 - 1) with 0 by lra. rewrite Rabs_R0.
  pose proof tolerance_positive. lra.
Qed.

Lemma zero_count_adaptive :
  adaptive lstsq0 [[0]; [1]] [1; 0] [0; 0] (1 / 10 ^ 12)
           (Some (mkOptions None None None None)) =
    ([PdbSetTrace], Ok [0; 1]).
Proof.
  unfold adaptive. cbn [setdefault opt_verbose opt_maximum_iterations opt_gamma when].
  rewrite pbind_pret, pbind_emit.
  rewrite mbar_W_nk_eq by reflexivity. rewrite pbind_lift_ok.
  rewrite Rltb_false by apply tolerance_not_tight. cbn [when].
  rewrite pbind_pret.
  change (Z.to_nat 250) with (S (S 248)). cbn [seq adaptive_loop].
  rewrite zero_count_pass_0, pbind_ok. cbv beta iota zeta.
  rewrite zero_count_pass_1, pbind_ok. cbv beta iota zeta.
  reflexivity.
Qed.

Lemma zero_count_anchor : map (fun x => x - 0) [0; 0] = [0; 0].
Proof. cbn [map]. f_equal; [lra | f_equal; lra]. Qed.

Lemma zero_count_preconditioned :
  preconditioned [[0]; [1]] [1; 0] [0; 0] = [[0]; [1]].
Proof.
  unfold preconditioned.
  assert (sub_cols [[0]; [1]] (min0 [[0]; [1]]) = [[0]; [1]]) as ->.
  { unfold sub_cols, min0, col.
    cbn [map seq n_samples length nth amin zipWith].
    rewrite Rmin_left by lra. f_equal; [f_equal; lra | f_equal; f_equal; lra]. }
  rewrite zero_count_log_denominator by reflexivity.
  unfold add_cols, dot. cbn [map zipWith Rsum].
  f_equal; [f_equal; field | f_equal; f_equal; field].
Qed.

End ZeroCountExample.

Section SolverCall.

Variables (h : heap) (lu lN lf : loc) (u : mat) (N f : vec).
Hypothesis Hu : nth_error h lu = Some (Arr2 u).
Hypothesis HN : nth_error h lN = Some (Arr1 N).
Hypothesis Hf : nth_error h lf = Some (Arr1 f).

Variable lstsq : mat -> vec -> vec.
Variable scipy_minimize :
  (vec -> result (R * vec)) -> option (vec -> result mat) -> vec ->
  string -> R -> option options -> prog vec.
Variable scipy_root :
  (vec -> result vec) -> (vec -> result mat) -> vec ->
  string -> R -> option options -> prog vec.
Variable check_w_normalized : mat -> vec -> result unit.

Variables (f0 : R) (method : string) (tol : R) (opts : option options).
Hypothesis Hshapes : shapes_ok u N f = true.
Hypothesis Hf0 : index0 f = Ok f0.

Local Abbreviation f1 := (map (fun x => x - f0) f).
Local Abbreviation u1 := (preconditioned u N f1).

(** A call on arrays of consistent shape, with at least one state, goes on to
    the solver: it allocates the re-anchored estimate and the preconditioned
    energies and hands them over with the counts as they are. *)
Lemma solve_mbar_once_runs_solver :
  solve_mbar_once lstsq scipy_minimize scipy_root check_w_normalized
                  lu lN lf method tol opts h =
  hbind (solver_call lstsq scipy_minimize scipy_root u1 N f1 method tol opts)
        (after_solver check_w_normalized u1 N)
        (h ++ [Arr1 f1; Arr2 u1]).
Proof.
  destruct (@h2_cells h lN u N f HN f0) as (HN2 & Hf2 & Hu2).
  unfold solve_mbar_once.
  erewrite hbind_silent
    by (rewrite (@validate_inputs_mem_spec h lu lN lf u N f Hu HN Hf), Hshapes;
        reflexivity).
  cbv beta iota zeta.
  hstep. rewrite Hf0. hstep. hstep.
  erewrite hbind_silent.
  2:{ rewrite (@precondition_u_kn_mem_spec (h ++ [Arr1 f1]) lu lN (length h) u N f1)
        by eauto using nth_error_extend, nth_error_fresh.
      rewrite precondition_u_kn_eq by now apply shapes_ok_anchor. reflexivity. }
  cbv beta iota zeta. rewrite <- app_assoc. cbn [app].
  erewrite hbind_silent by (apply load2_ok; exact Hu2). cbv beta.
  erewrite hbind_silent by (apply load1_ok; exact HN2). cbv beta.
  erewrite hbind_silent by (apply load1_ok; exact Hf2). cbv beta.
  reflexivity.
Qed.

End SolverCall.

(** C7 (amended). [solve_mbar_once] does not look at the sign of the counts.
    On valid inputs with at least two states, one of whose counts is not
    strictly positive, the call goes on as for any other input: it computes
    [f_k_nonzero - f_k_nonzero[0]] and the preconditioned energies, each with
    one entry or row per state passed in, and runs the solver the method
    selects on them and on the counts as they are, the state without samples
    included; it raises no precondition error, whatever the method, as long
    as scipy and [check_w_normalized] raise none; with an options dictionary
    and an iteration cap of at least 1 the adaptive solver returns, on these
    arrays, an estimate with one entry for each state passed in; and with
    the adaptive method, when the call returns, the array it returns has one
    entry for each state passed in. *)
Theorem solve_mbar_once_checks_no_counts
    (lstsq : mat -> vec -> vec)
    (scipy_minimize : (vec -> result (R * vec)) -> option (vec -> result mat) ->
                      vec -> string -> R -> option options -> prog vec)
    (scipy_root : (vec -> result vec) -> (vec -> result mat) -> vec ->
                  string -> R -> option options -> prog vec)
    (check_w_normalized : mat -> vec -> result unit)
    (h : heap) (lu lN lf : loc) (u : mat) (N f : vec)
    (method : string) (tol : R) (opts : option options) :
  (forall g hs x m t o, snd (scipy_minimize g hs x m t o) <> Raise PreconditionError) ->
  (forall g hs x m t o, snd (scipy_root g hs x m t o) <> Raise PreconditionError) ->
  (forall W N', check_w_normalized W N' <> Raise PreconditionError) ->
  (forall H g, length (lstsq H g) = length g) ->
  nth_error h lu = Some (Arr2 u) ->
  nth_error h lN = Some (Arr1 N) ->
  nth_error h lf = Some (Arr1 f) ->
  valid_inputs u N f -> (2 <= length N)%nat ->
  Exists (fun x => ~ 0 < x) N ->
  let f1 := map (fun x => x - nth 0 f 0) f in
  let u1 := preconditioned u N f1 in
  (precondition_u_kn u N f1 = Ok u1 /\
   length u1 = length N /\ length f1 = length N) /\
  solve_mbar_once lstsq scipy_minimize scipy_root check_w_normalized
                  lu lN lf method tol opts h =
    hbind (solver_call lstsq scipy_minimize scipy_root u1 N f1 method tol opts)
          (after_solver check_w_normalized u1 N)
          (h ++ [Arr1 f1; Arr2 u1]) /\
  out_result (solve_mbar_once lstsq scipy_minimize scipy_root check_w_normalized
                              lu lN lf method tol opts h)
    <> Raise PreconditionError /\
  (forall o, (1 <= setdefault (opt_maximum_iterations o) 250%Z)%Z ->
     exists t r, adaptive lstsq u1 N f1 tol (Some o) = (t, Ok r) /\
                 length r = length N) /\
  forall l res,
    out_result (solve_mbar_once lstsq scipy_minimize scipy_root check_w_normalized
                                lu lN lf "adaptive" tol opts h) = Ok (l, res) ->
    exists r,
      nth_error (out_heap (solve_mbar_once lstsq scipy_minimize scipy_root
                             check_w_normalized lu lN lf "adaptive" tol opts h)) l
        = Some (Arr1 r) /\
      length r = length N.
Proof.
  intros Hmin Hroot Hcheck Hlstsq Hu HN Hf Hv HK _ f1 u1.
  pose proof Hv as (Hsh & _).
  destruct (shapes_ok_inv _ _ _ Hsh) as (Hrows & HlenN & Hlenf).
  unfold n_states in *.
  assert (index0 f = Ok (nth 0 f 0)) as Hf0.
  { destruct f as [|x f']; [simpl in Hlenf; lia | reflexivity]. }
  assert (shapes_ok u N f1 = true) as Hsh1.
  { unfold f1. rewrite <- Hsh. unfold shapes_ok. now rewrite length_map. }
  assert (shapes_ok u1 N f1 = true) as Hsh2
    by (unfold u1; now rewrite preconditioned_shape).
  destruct (shapes_ok_inv _ _ _ Hsh2) as (Hrows2 & HlenN2 & Hlenf2).
  unfold n_states in *.
  split.
  { split; [now apply precondition_u_kn_eq|].
    split; [now rewrite HlenN2 | now rewrite Hlenf2, HlenN2]. }
  split.
  { apply (@solve_mbar_once_runs_solver h lu lN lf u N f Hu HN Hf lstsq
             scipy_minimize scipy_root check_w_normalized (nth 0 f 0) method tol
             opts Hsh Hf0). }
  split; [|split].
  - intros Hres.
    assert (mem_raises_in (fun e => e <> PreconditionError)
              (solve_mbar_once lstsq scipy_minimize scipy_root check_w_normalized
                               lu lN lf method tol opts)) as Hm.
    { apply mem_raises_in_solve_mbar_once; try discriminate.
      - intros g hs x m t o e He ->. now apply (Hmin g hs x m t o).
      - intros g hs x m t o e He ->. now apply (Hroot g hs x m t o).
      - intros W N' e He ->. now apply (Hcheck W N'). }
    exact (Hm h _ Hres eq_refl).
  - intros o Hcap.
    assert (rectangular u1 = true) as Hrect1 by now apply rectangular_iff.
    assert (2 <= length u1)%nat as HK1 by (unfold mat, vec in *; lia).
    destruct (@adaptive_run_to_test lstsq u1 N f1 tol o Hlstsq Hrect1 HlenN2 Hlenf2
                HK1 Hcap) as (n & t & _ & Ha & _).
    eexists t, _. split; [exact Ha|].
    rewrite HlenN2.
    apply (@state_after_good lstsq Hlstsq u1 N Hrect1 HlenN2 HK1). exact Hlenf2.
  - intros l res Hres.
    destruct (@solve_mbar_once_adaptive_cell h lu lN lf u N f Hu HN Hf lstsq
                scipy_minimize scipy_root check_w_normalized (nth 0 f 0) tol opts
                Hsh Hf0 l res Hres) as (t & r & Ha & Hcell).
    exists r. split; [exact Hcell|].
    rewrite HlenN2.
    apply (@adaptive_returns_good lstsq Hlstsq (preconditioned u N f1) N) in Ha;
      auto.
    + now apply rectangular_iff.
    + fold u1. lia.
Qed.

Lemma solve_mbar_once_checks_no_counts_witness :
  let h := [Arr2 [[0]; [1]]; Arr1 [1; 0]; Arr1 [0; 0]] in
  let tol := 1 / 10 ^ 12 in
  let opts := Some (mkOptions None None None None) in
  let f1 := map (fun x => x - nth 0 [0; 0] 0) [0; 0] in
  let u1 := preconditioned [[0]; [1]] [1; 0] f1 in
  (precondition_u_kn [[0]; [1]] [1; 0] f1 = Ok u1 /\
   length u1 = length [1; 0] /\ length f1 = length [1; 0]) /\
  solve_mbar_once lstsq0 scipy_minimize0 scipy_root0 check_w_normalized0
                  0%nat 1%nat 2%nat "adaptive" tol opts h =
    hbind (solver_call lstsq0 scipy_minimize0 scipy_root0 u1 [1; 0] f1 "adaptive"
                       tol opts)
          (after_solver check_w_normalized0 u1 [1; 0])
          (h ++ [Arr1 f1; Arr2 u1]) /\
  out_result (solve_mbar_once lstsq0 scipy_minimize0 scipy_root0 check_w_normalized0
                              0%nat 1%nat 2%nat "adaptive" tol opts h)
    <> Raise PreconditionError /\
  (forall o, (1 <= setdefault (opt_maximum_iterations o) 250%Z)%Z ->
     exists t r, adaptive lstsq0 u1 [1; 0] f1 tol (Some o) = (t, Ok r) /\
                 length r = length [1; 0]) /\
  forall l res,
    out_result (solve_mbar_once lstsq0 scipy_minimize0 scipy_root0 check_w_normalized0
                                0%nat 1%nat 2%nat "adaptive" tol opts h) = Ok (l, res) ->
    exists r,
      nth_error (out_heap (solve_mbar_once lstsq0 scipy_minimize0 scipy_root0
                             check_w_normalized0 0%nat 1%nat 2%nat "adaptive" tol
                             opts h)) l
        = Some (Arr1 r) /\
      length r = length [1; 0].
Proof.
  apply (@solve_mbar_once_checks_no_counts lstsq0 scipy_minimize0 scipy_root0
           check_w_normalized0 [Arr2 [[0]; [1]]; Arr1 [1; 0]; Arr1 [0; 0]]
           0%nat 1%nat 2%nat [[0]; [1]] [1; 0] [0; 0] "adaptive" (1 / 10 ^ 12)
           (Some (mkOptions None None None None)));
    first [ reflexivity
          | intros; discriminate
          | simpl; lia
          | apply zero_count_valid
          | apply Exists_cons_tl, Exists_cons_hd; lra ].
Defined.

(** C7 (as stated) fails: two states, the second without samples
    ([N = [1; 0]]), the adaptive method and an empty options dictionary.  The
    call raises nothing: two self-consistent passes lead to the estimate
    [[0; 1]], which it returns as a new array, with an entry for the state
    that has no samples. *)
Lemma solve_mbar_once_accepts_zero_count :
  let h := [Arr2 [[0]; [1]]; Arr1 [1; 0]; Arr1 [0; 0]] in
  let o := solve_mbar_once lstsq0 scipy_minimize0 scipy_root0 check_w_normalized0
             0%nat 1%nat 2%nat "adaptive" (1 / 10 ^ 12)
             (Some (mkOptions None None None None)) h in
  nth_error h 1 = Some (Arr1 [1; 0]) /\
  ~ 0 < nth 1 [1; 0] 0 /\
  out_result o = Ok (5%nat, ResAdaptive 5%nat) /\
  nth_error (out_heap o) 5 = Some (Arr1 [0; 1]) /\
  out_result o <> Raise PreconditionError.
Proof.
  intros h o.
  assert (o = mkOutcome [PdbSetTrace]
                (h ++ [Arr1 (map (fun x => x - 0) [0; 0]);
                       Arr2 (preconditioned [[0]; [1]] [1; 0]
                               (map (fun x => x - 0) [0; 0]))] ++ [Arr1 [0; 1]])
                (Ok (5%nat, ResAdaptive 5%nat))) as ->.
  { unfold o.
    rewrite (@solve_mbar_once_adaptive_returns h 0%nat 1%nat 2%nat
               [[0]; [1]] [1; 0] [0; 0] eq_refl eq_refl eq_refl
               lstsq0 scipy_minimize0 scipy_root0 check_w_normalized0
               0 (1 / 10 ^ 12) (Some (mkOptions None None None None))
               eq_refl eq_refl [PdbSetTrace] [0; 1]).
    - now rewrite <- app_assoc.
    - rewrite zero_count_anchor, zero_count_preconditioned.
      apply zero_count_adaptive.
    - reflexivity. }
  cbn [out_result out_heap].
  repeat split; try reflexivity; try discriminate.
  simpl. lra.
Qed.

(** * Further properties of the code *)

(** ** The weight matrix, the gradient and the Hessian *)

Section WeightRows.

Lemma nth_map_seq {B : Type} (F : nat -> B) (n len : nat) (d : B) :
  (n < len)%nat -> nth n (map F (seq 0 len)) d = F n.
Proof.
  intros H. rewrite (nth_indep _ d (F 0%nat)) by now rewrite length_map, length_seq.
  rewrite map_nth, seq_nth by exact H. reflexivity.
Qed.

Lemma dot_map_r (h : R -> R) (w a : vec) :
  dot w (map h a) = Rsum (zipWith (fun wi ai => wi * h ai) w a).
Proof. unfold dot. now rewrite zipWith_map_r. Qed.

(** Row [n] of the weight matrix, weighted by the counts, sums to 1. *)
Lemma W_row_normalised (u : mat) (N f : vec) (n : nat) :
  valid_inputs u N f ->
  dot N (map exp (log_W_row u N f n)) = 1.
Proof.
  intros Hv. pose proof (valid_denominator_pos n Hv) as Hpos.
  unfold log_W_row. rewrite map_map, dot_map_r.
  rewrite wexp_shift_out, logsumexp_weighted by exact Hpos.
  rewrite exp_Ropp, exp_ln by exact Hpos.
  apply Rinv_l. lra.
Qed.

End WeightRows.

(** X1. On valid inputs every row of the weight matrix is normalised by the
    counts: for each sample [n], the sum over the states of [N[k] * W[n][k]]
    is 1, whatever the estimate [f] is; and the matrix has one row per
    sample. *)
Theorem weight_rows_normalised (u : mat) (N f : vec) :
  valid_inputs u N f ->
  exists W,
    mbar_W_nk u N f = Ok W /\ length W = n_samples u /\
    forall n, (n < n_samples u)%nat -> dot N (nth n W []) = 1.
Proof.
  intros Hv. eexists. split; [apply mbar_W_nk_eq, Hv|].
  split; [now rewrite length_map, length_seq|].
  intros n Hn. rewrite nth_map_seq by exact Hn.
  now apply W_row_normalised.
Qed.

Lemma weight_rows_normalised_witness :
  let u := [[0; 0]; [1; 2]] in
  let N := [1; 1] in
  exists W,
    mbar_W_nk u N [0; 0] = Ok W /\ length W = n_samples u /\
    forall n, (n < n_samples u)%nat -> dot N (nth n W []) = 1.
Proof.
  apply (@weight_rows_normalised [[0; 0]; [1; 2]] [1; 1] [0; 0]).
  repeat split; [simpl; lia | repeat constructor; lra | constructor; lra].
Defined.

Section UpdateAndGradient.

Lemma nth_update (lnum : vec) (k : nat) :
  nth k (map (fun x => -1 * x) lnum) 0 = -1 * nth k lnum 0.
Proof.
  destruct (Nat.lt_ge_cases k (length lnum)) as [H|H].
  - now apply nth_map_lt.
  - rewrite !nth_overflow by (rewrite ?length_map; lia). lra.
Qed.

Lemma select_agree (N f f' : vec) :
  length f' = length f ->
  (forall k, 0 < nth k N 0 -> nth k f' 0 = nth k f 0) ->
  select (states_with_samples N) f' = select (states_with_samples N) f.
Proof.
  unfold states_with_samples. revert f f'.
  induction N as [|x N IH]; intros [|y f] [|y' f'] Hlen Hag;
    simpl in *; try discriminate; try reflexivity.
  injection Hlen as Hlen.
  assert (select (map positive N) f' = select (map positive N) f) as E.
  { apply IH; [exact Hlen|]. intros k Hk. exact (Hag (S k) Hk). }
  destruct (Rlt_dec 0 x) as [Hx|Hx].
  - rewrite positive_true by exact Hx. rewrite E. f_equal. exact (Hag 0%nat Hx).
  - rewrite positive_false by lra. exact E.
Qed.

End UpdateAndGradient.

(** X2. On valid inputs the gradient is determined by the self-consistent
    update [s] of the same estimate: component [k] is
    [-N[k] * (1 - exp(f[k] - s[k]))].  So the gradient vanishes at every
    state the update leaves fixed, and for a populated state a vanishing
    gradient component means that the update leaves the state fixed. *)
Theorem gradient_from_update (u : mat) (N f : vec) (k : nat) :
  valid_inputs u N f -> (k < n_states u)%nat ->
  exists g s,
    mbar_gradient u N f = Ok g /\ self_consistent_update u N f = Ok s /\
    nth k g 0 = - nth k N 0 * (1 - exp (nth k f 0 - nth k s 0)) /\
    (nth k s 0 = nth k f 0 -> nth k g 0 = 0) /\
    (0 < nth k N 0 -> nth k g 0 = 0 -> nth k s 0 = nth k f 0).
Proof.
  intros Hv Hk. eexists _, _.
  split; [apply mbar_gradient_eq, Hv|].
  split; [now apply self_consistent_update_eq|].
  rewrite (gradient_component Hv Hk), nth_update.
  set (l := nth k (log_numerator_k u (log_denominator_n u N f)) 0).
  replace (nth k f 0 - -1 * l) with (nth k f 0 + l) by lra.
  split; [lra|]. split.
  - intros E. replace (nth k f 0 + l) with 0 by lra. rewrite exp_0. lra.
  - intros HN Hg.
    assert (exp (nth k f 0 + l) = exp 0) as E by (rewrite exp_0; nra).
    apply exp_inv in E. lra.
Qed.

Lemma gradient_from_update_witness :
  let u := [[0; 0]; [1; 2]] in
  let N := [1; 1] in
  let f := [0; 0] in
  exists g s,
    mbar_gradient u N f = Ok g /\ self_consistent_update u N f = Ok s /\
    nth 1 g 0 = - nth 1 N 0 * (1 - exp (nth 1 f 0 - nth 1 s 0)) /\
    (nth 1 s 0 = nth 1 f 0 -> nth 1 g 0 = 0) /\
    (0 < nth 1 N 0 -> nth 1 g 0 = 0 -> nth 1 s 0 = nth 1 f 0).
Proof.
  apply (@gradient_from_update [[0; 0]; [1; 2]] [1; 1] [0; 0] 1%nat).
  - repeat split; [simpl; lia | repeat constructor; lra | constructor; lra].
  - simpl. lia.
Defined.

(** X3. The self-consistent update does not read the estimates of the states
    without samples: two estimates that agree on every populated state have
    the same update (which is what lets the drivers use it to fill in the
    states they left out of the solve). *)
Theorem update_ignores_empty_states (u : mat) (N f f' : vec) :
  length f' = length f ->
  (forall k, 0 < nth k N 0 -> nth k f' 0 = nth k f 0) ->
  self_consistent_update u N f' = self_consistent_update u N f.
Proof.
  intros Hlen Hag. unfold self_consistent_update, validate_inputs.
  assert (shapes_ok u N f' = shapes_ok u N f) as ->
    by (unfold shapes_ok; now rewrite Hlen).
  destruct (shapes_ok u N f); [|reflexivity].
  cbn [rbind]. now rewrite (@select_agree N f f' Hlen Hag).
Qed.

Lemma update_ignores_empty_states_witness :
  self_consistent_update [[0]; [1]] [1; 0] [0; 7] =
  self_consistent_update [[0]; [1]] [1; 0] [0; 0].
Proof.
  apply (@update_ignores_empty_states [[0]; [1]] [1; 0] [0; 0] [0; 7]).
  - reflexivity.
  - intros [|[|k]] H; simpl in *; try reflexivity; lra.
Defined.

Section DoubleSums.

Lemma Rsum_map_plus {A : Type} (g h : A -> R) (l : list A) :
  Rsum (map (fun x => g x + h x) l) = Rsum (map g l) + Rsum (map h l).
Proof. induction l as [|x l IH]; simpl; [lra | rewrite IH; lra]. Qed.

Lemma Rsum_map_zero {A : Type} (l : list A) : Rsum (map (fun _ => 0) l) = 0.
Proof. induction l as [|x l IH]; simpl; [reflexivity | rewrite IH; lra]. Qed.

Lemma Rsum_map_one {A : Type} (l : list A) : Rsum (map (fun _ => 1) l) = INR (length l).
Proof.
  induction l as [|x l IH]; [reflexivity|].
  cbn [map Rsum length]. rewrite S_INR, IH. lra.
Qed.

(** A sum over a list is the sum of its entries by index. *)
Lemma Rsum_nth (l : vec) :
  Rsum l = Rsum (map (fun k => nth k l 0) (seq 0 (length l))).
Proof.
  induction l as [|x l IH]; [reflexivity|].
  cbn [length seq map Rsum nth]. rewrite <- seq_shift, map_map. now rewrite <- IH.
Qed.

Lemma dot_nth (a b : vec) :
  length b = length a ->
  dot a b = Rsum (map (fun k => nth k a 0 * nth k b 0) (seq 0 (length a))).
Proof.
  unfold dot. revert b. induction a as [|x a IH]; intros [|y b] H;
    try discriminate; [reflexivity|].
  injection H as H.
  cbn [zipWith length seq map Rsum nth]. rewrite <- seq_shift, map_map.
  now rewrite <- IH.
Qed.

(** Summing over the states first or over the samples first. *)
Lemma sum_exchange (g : vec -> R) (W : mat) (N : vec) :
  Forall (fun w => length w = length N) W ->
  Rsum (map (fun j => nth j N 0 * Rsum (map (fun w => g w * nth j w 0) W))
            (seq 0 (length N))) =
  Rsum (map (fun w => g w * dot N w) W).
Proof.
  induction 1 as [|r W Hr _ IH].
  - cbn [map Rsum].
    rewrite (Rsum_map_ext _ (fun _ => 0)) by (intros; lra).
    apply Rsum_map_zero.
  - cbn [map Rsum]. rewrite <- IH, (@dot_nth N r Hr).
    rewrite <- Rsum_map_scale, <- Rsum_map_plus.
    apply Rsum_map_ext. intros j _. lra.
Qed.

(** The only non-zero term of a sum against the diagonal. *)
Lemma Rsum_diagonal (F : nat -> R) (i K : nat) :
  (i < K)%nat ->
  Rsum (map (fun j => if Nat.eqb i j then F j else 0) (seq 0 K)) = F i.
Proof.
  intros Hi.
  assert (forall a len, (a <= i < a + len)%nat ->
            Rsum (map (fun j => if Nat.eqb i j then F j else 0) (seq a len)) = F i) as G.
  { intros a len. revert a. induction len as [|len IH]; intros a Ha; [lia|].
    cbn [seq map Rsum]. destruct (Nat.eqb_spec i a) as [->|Hne].
    - rewrite (Rsum_map_ext _ (fun _ => 0)), Rsum_map_zero; [lra|].
      intros j Hj. apply in_seq in Hj.
      destruct (Nat.eqb_spec a j); [lia | reflexivity].
    - rewrite IH by lia. lra. }
  apply G. lia.
Qed.

End DoubleSums.

Section WeightMatrix.

Variables (u : mat) (N f : vec).
Hypothesis Hvalid : valid_inputs u N f.

Local Abbreviation W :=
  (map (fun n => map exp (log_W_row u N f n)) (seq 0 (n_samples u))).

Lemma W_rows : Forall (fun w => length w = length N) W.
Proof.
  destruct Hvalid as (Hsh & _).
  destruct (shapes_ok_inv _ _ _ Hsh) as (_ & HN & Hf).
  apply Forall_forall. intros w Hin.
  apply in_map_iff in Hin as (n & <- & _).
  unfold log_W_row. rewrite !length_map, length_vsub_col; lia.
Qed.

Lemma dot_N_W (g : vec -> R) :
  Rsum (map (fun w => g w * dot N w) W) = Rsum (map g W).
Proof.
  apply Rsum_map_ext. intros w Hin.
  apply in_map_iff in Hin as (n & <- & _).
  rewrite (W_row_normalised n Hvalid). lra.
Qed.

(** The gradient in terms of the column sums of the weight matrix. *)
Lemma gradient_from_columns (k : nat) :
  (k < n_states u)%nat ->
  nth k (gradient_of N f (log_numerator_k u (log_denominator_n u N f))) 0 =
  nth k N 0 * Rsum (map (fun w => 1 * nth k w 0) W) - nth k N 0.
Proof.
  intros Hk. rewrite (gradient_component Hvalid Hk), (exp_numerator Hvalid Hk).
  rewrite <- (W_column Hvalid Hk). unfold col.
  rewrite (Rsum_map_ext (fun w => 1 * nth k w 0) (fun w => nth k w 0))
    by (intros; lra).
  lra.
Qed.

End WeightMatrix.

(** X4. On valid inputs the components of the gradient add up to the number
    of samples minus the total count; in particular they add up to zero when
    the counts sum to the number of samples. *)
Theorem gradient_components_sum (u : mat) (N f : vec) :
  valid_inputs u N f ->
  exists g,
    mbar_gradient u N f = Ok g /\
    Rsum g = INR (n_samples u) - Rsum N /\
    (Rsum N = INR (n_samples u) -> Rsum g = 0).
Proof.
  intros Hv. eexists. split; [apply mbar_gradient_eq, Hv|].
  assert (Rsum (gradient_of N f (log_numerator_k u (log_denominator_n u N f))) =
          INR (n_samples u) - Rsum N) as E.
  { pose proof Hv as (Hsh & _).
    destruct (shapes_ok_inv _ _ _ Hsh) as (_ & HN & Hf).
    rewrite Rsum_nth, length_gradient_of, length_log_numerator_k.
    replace (Nat.min (length N) (Nat.min (length f) (length u))) with (length N)
      by lia.
    rewrite (Rsum_map_ext _
               (fun k => nth k N 0 *
                         Rsum (map (fun w => 1 * nth k w 0)
                                   (map (fun n => map exp (log_W_row u N f n))
                                        (seq 0 (n_samples u))))
                         + - nth k N 0)).
    2:{ intros k Hk. apply in_seq in Hk.
        rewrite gradient_from_columns by (unfold n_states; auto; lia). lra. }
    rewrite Rsum_map_plus, (sum_exchange (fun _ => 1)) by now apply W_rows.
    rewrite (dot_N_W Hv), Rsum_map_one, length_map, length_seq.
    rewrite (Rsum_map_ext (fun k => - nth k N 0) (fun k => -1 * nth k N 0))
      by (intros; lra).
    rewrite Rsum_map_scale, <- Rsum_nth. lra. }
  split; [exact E|]. intros HN. rewrite E, HN. lra.
Qed.

Lemma gradient_components_sum_witness :
  let u := [[0; 0]; [1; 2]] in
  let N := [1; 1] in
  exists g,
    mbar_gradient u N [0; 0] = Ok g /\
    Rsum g = INR (n_samples u) - Rsum N /\
    (Rsum N = INR (n_samples u) -> Rsum g = 0).
Proof.
  apply (@gradient_components_sum [[0; 0]; [1; 2]] [1; 1] [0; 0]).
  repeat split; [simpl; lia | repeat constructor; lra | constructor; lra].
Defined.

Section HessianEntries.

Lemma hessian_entry (W : mat) (N : vec) (i j : nat) :
  (i < length N)%nat -> (j < length N)%nat ->
  nth j (nth i (hessian_from_W W N) []) 0 =
  -1 * (Rsum (map (fun w => nth i w 0 * nth j w 0) W) * nth j N 0 * nth i N 0
        - (if Nat.eqb i j then Rsum (col i W) * nth i N 0 else 0)).
Proof.
  intros Hi Hj. unfold hessian_from_W.
  rewrite nth_map_seq by exact Hi. rewrite nth_map_seq by exact Hj. reflexivity.
Qed.

Lemma hessian_row (W : mat) (N : vec) (i : nat) :
  (i < length N)%nat ->
  nth i (hessian_from_W W N) [] =
  map (fun j =>
         -1 * (Rsum (map (fun w => nth i w 0 * nth j w 0) W) * nth j N 0 * nth i N 0
               - (if Nat.eqb i j then Rsum (col i W) * nth i N 0 else 0)))
      (seq 0 (length N)).
Proof.
  intros Hi. unfold hessian_from_W. now rewrite nth_map_seq by exact Hi.
Qed.

End HessianEntries.

(** X5. On valid inputs the Hessian is a square symmetric matrix, one row and
    one column per state. *)
Theorem hessian_symmetric (u : mat) (N f : vec) :
  valid_inputs u N f ->
  exists H,
    mbar_hessian u N f = Ok H /\ length H = n_states u /\
    (forall i, (i < n_states u)%nat -> length (nth i H []) = n_states u) /\
    forall i j, (i < n_states u)%nat -> (j < n_states u)%nat ->
      nth j (nth i H []) 0 = nth i (nth j H []) 0.
Proof.
  intros (Hsh & _). destruct (shapes_ok_inv _ _ _ Hsh) as (_ & HN & _).
  unfold n_states. rewrite <- HN.
  eexists. split; [apply mbar_hessian_eq, Hsh|].
  split; [unfold hessian_from_W; now rewrite length_map, length_seq|].
  split.
  - intros i Hi. rewrite hessian_row by exact Hi.
    now rewrite length_map, length_seq.
  - intros i j Hi Hj. rewrite !hessian_entry by assumption.
    rewrite (Rsum_map_ext (fun w => nth j w 0 * nth i w 0)
                          (fun w => nth i w 0 * nth j w 0)) by (intros; lra).
    rewrite (Nat.eqb_sym j i).
    destruct (Nat.eqb_spec i j) as [->|_]; lra.
Qed.

Lemma hessian_symmetric_witness :
  let u := [[0; 0]; [1; 2]] in
  exists H,
    mbar_hessian u [1; 1] [0; 0] = Ok H /\ length H = n_states u /\
    (forall i, (i < n_states u)%nat -> length (nth i H []) = n_states u) /\
    forall i j, (i < n_states u)%nat -> (j < n_states u)%nat ->
      nth j (nth i H []) 0 = nth i (nth j H []) 0.
Proof.
  apply (@hessian_symmetric [[0; 0]; [1; 2]] [1; 1] [0; 0]).
  repeat split; [simpl; lia | repeat constructor; lra | constructor; lra].
Defined.

(** X6. On valid inputs every row of the Hessian sums to zero: the constant
    vector is in its null space, so the Hessian is singular at every
    estimate (the Newton step is taken with a least-squares solve). *)
Theorem hessian_rows_sum_to_zero (u : mat) (N f : vec) :
  valid_inputs u N f ->
  exists H,
    mbar_hessian u N f = Ok H /\
    forall i, (i < n_states u)%nat -> Rsum (nth i H []) = 0.
Proof.
  intros Hv. pose proof Hv as (Hsh & _).
  destruct (shapes_ok_inv _ _ _ Hsh) as (_ & HN & _).
  eexists. split; [apply mbar_hessian_eq, Hsh|].
  intros i Hi. unfold n_states in Hi.
  set (W := map (fun n => map exp (log_W_row u N f n)) (seq 0 (n_samples u))).
  rewrite hessian_row by lia.
  rewrite (Rsum_map_ext _
             (fun j => (- nth i N 0) *
                       (nth j N 0 * Rsum (map (fun w => nth i w 0 * nth j w 0) W))
                       + (if Nat.eqb i j then Rsum (col i W) * nth i N 0 else 0))).
  2:{ intros j _. destruct (Nat.eqb i j); lra. }
  rewrite Rsum_map_plus, Rsum_map_scale.
  rewrite (sum_exchange (fun w => nth i w 0)) by now apply W_rows.
  unfold W. rewrite (dot_N_W Hv). fold W.
  rewrite (Rsum_diagonal (fun _ => Rsum (col i W) * nth i N 0)) by lia.
  unfold col.
  set (a := Rsum (map (fun w : vec => nth i w 0) W)).
  change (Rsum (map (fun uk : list R => nth i uk 0) W)) with a. lra.
Qed.

Lemma hessian_rows_sum_to_zero_witness :
  let u := [[0; 0]; [1; 2]] in
  exists H,
    mbar_hessian u [1; 1] [0; 0] = Ok H /\
    forall i, (i < n_states u)%nat -> Rsum (nth i H []) = 0.
Proof.
  apply (@hessian_rows_sum_to_zero [[0; 0]; [1; 2]] [1; 1] [0; 0]).
  repeat split; [simpl; lia | repeat constructor; lra | constructor; lra].
Defined.

Section ObjectiveShift.

Lemma Rsum_vshift (l : vec) (c : R) :
  Rsum (vshift l c) = Rsum l + INR (length l) * c.
Proof.
  unfold vshift. induction l as [|x l IH]; [simpl; lra|].
  cbn [map Rsum length]. rewrite S_INR, IH. lra.
Qed.

Lemma dot_vshift (N f : vec) (c : R) :
  length f = length N -> dot N (vshift f c) = dot N f + c * Rsum N.
Proof.
  unfold dot, vshift. revert f. induction N as [|x N IH]; intros [|y f] H;
    try discriminate; [simpl; lra|].
  injection H as H. cbn [map zipWith Rsum]. rewrite (IH f H). lra.
Qed.

End ObjectiveShift.

(** X7. On valid inputs [mbar_objective_and_gradient] returns the gradient
    [mbar_gradient] returns, and adding a constant [c] to every entry of [f]
    keeps that gradient and changes the objective by [c] times the number of
    samples minus the total count: the objective is shift invariant exactly
    when the counts sum to the number of samples. *)
Theorem objective_under_shift (u : mat) (N f : vec) (c : R) :
  valid_inputs u N f ->
  exists obj g,
    mbar_objective_and_gradient u N f = Ok (obj, g) /\
    mbar_gradient u N f = Ok g /\
    mbar_objective_and_gradient u N (vshift f c) =
      Ok (obj + c * (INR (n_samples u) - Rsum N), g).
Proof.
  intros Hv. pose proof Hv as (Hsh & _).
  destruct (shapes_ok_inv _ _ _ Hsh) as (_ & HN & Hf).
  eexists _, _. split; [apply mbar_objective_and_gradient_eq, Hsh|].
  split; [apply mbar_gradient_eq, Hsh|].
  rewrite mbar_objective_and_gradient_eq by now rewrite shapes_ok_shift.
  rewrite (log_denominator_n_shift c Hv).
  rewrite (log_numerator_k_shift Hv) by apply length_log_denominator_n.
  rewrite gradient_of_shift.
  rewrite Rsum_vshift, length_log_denominator_n, dot_vshift by lia.
  do 2 f_equal. lra.
Qed.

Lemma objective_under_shift_witness :
  let u := [[0; 0]; [1; 2]] in
  let N := [1; 1] in
  let f := [0; 0] in
  exists obj g,
    mbar_objective_and_gradient u N f = Ok (obj, g) /\
    mbar_gradient u N f = Ok g /\
    mbar_objective_and_gradient u N (vshift f 3) =
      Ok (obj + 3 * (INR (n_samples u) - Rsum N), g).
Proof.
  apply (@objective_under_shift [[0; 0]; [1; 2]] [1; 1] [0; 0] 3).
  repeat split; [simpl; lia | repeat constructor; lra | constructor; lra].
Defined.

Section PreconditionerOffsets.

Lemma Rmin_plus (x y c : R) : Rmin (x + c) (y + c) = Rmin x y + c.
Proof.
  unfold Rmin. destruct (Rle_dec (x + c) (y + c)), (Rle_dec x y); lra.
Qed.

Lemma amin_vshift (l : vec) (c : R) :
  l <> [] -> amin (vshift l c) = amin l + c.
Proof.
  unfold vshift. induction l as [|x l IH]; [congruence|]. intros _.
  destruct l as [|y l]; [reflexivity|].
  change (amin (map (fun x => x + c) (x :: y :: l)))
    with (Rmin (x + c) (amin (map (fun x => x + c) (y :: l)))).
  rewrite IH by discriminate.
  change (amin (x :: y :: l)) with (Rmin x (amin (y :: l))).
  apply Rmin_plus.
Qed.

Lemma zipWith_cancel (r m y : vec) :
  length r = length y -> length m = length y ->
  zipWith Rminus (zipWith Rplus r y) (zipWith Rplus m y) = zipWith Rminus r m.
Proof.
  revert r m. induction y as [|c y IH]; intros [|a r] [|b m] Hr Hm;
    try discriminate; [reflexivity|].
  injection Hr as Hr. injection Hm as Hm.
  cbn [zipWith]. rewrite IH by assumption. f_equal. lra.
Qed.

Variables (u : mat) (N f y : vec).
Hypothesis Hvalid : valid_inputs u N f.
Hypothesis Hy : length y = n_samples u.

Lemma min0_add_cols : min0 (add_cols u y) = zipWith Rplus (min0 u) y.
Proof.
  pose proof Hvalid as (Hsh & _).
  destruct (shapes_ok_inv _ _ _ Hsh) as (Hrows & _ & _).
  unfold min0. rewrite n_samples_add_cols by assumption.
  rewrite <- Hy, zipWith_seq_nth.
  apply map_ext_in. intros n Hn. apply in_seq in Hn.
  rewrite (@col_add_cols u N f y Hvalid Hy n) by lia.
  apply amin_vshift. unfold col. pose proof (valid_nonempty Hvalid).
  destruct u; [congruence | discriminate].
Qed.

(** The first step of the preconditioner removes a per-sample offset. *)
Lemma sub_cols_min0_add_cols :
  sub_cols (add_cols u y) (min0 (add_cols u y)) = sub_cols u (min0 u).
Proof.
  pose proof Hvalid as (Hsh & _).
  destruct (shapes_ok_inv _ _ _ Hsh) as (Hrows & _ & _).
  rewrite min0_add_cols. unfold sub_cols, add_cols. rewrite map_map.
  apply map_ext_in. intros r Hin.
  rewrite Forall_forall in Hrows. specialize (Hrows r Hin).
  apply zipWith_cancel; [lia|]. rewrite length_min0. lia.
Qed.

End PreconditionerOffsets.

(** X8. On valid inputs the preconditioner is blind to per-sample offsets of
    the energies: adding [y[n]] to column [n] of [u_kn], for any [y], does
    not change the matrix [precondition_u_kn] returns. *)
Theorem precondition_ignores_sample_offsets (u : mat) (N f y : vec) :
  valid_inputs u N f -> length y = n_samples u ->
  exists u',
    precondition_u_kn u N f = Ok u' /\
    precondition_u_kn (add_cols u y) N f = Ok u'.
Proof.
  intros Hv Hy. pose proof Hv as (Hsh & _).
  exists (preconditioned u N f).
  split; [now apply precondition_u_kn_eq|].
  rewrite precondition_u_kn_eq.
  - unfold preconditioned. now rewrite (@sub_cols_min0_add_cols u N f y Hv Hy).
  - rewrite shapes_ok_add_cols; auto.
    apply rectangular_iff. now destruct (shapes_ok_inv _ _ _ Hsh).
Qed.

Lemma precondition_ignores_sample_offsets_witness :
  let u := [[0; 0]; [1; 2]] in
  let N := [1; 1] in
  let f := [0; 0] in
  exists u',
    precondition_u_kn u N f = Ok u' /\
    precondition_u_kn (add_cols u [5; -3]) N f = Ok u'.
Proof.
  apply (@precondition_ignores_sample_offsets [[0; 0]; [1; 2]] [1; 1] [0; 0] [5; -3]).
  - repeat split; [simpl; lia | repeat constructor; lra | constructor; lra].
  - reflexivity.
Defined.

Section PreconditionerTwice.

Lemma zipWith_minus_zeros (r : vec) (a : nat) :
  zipWith Rminus r (map (fun _ => 0) (seq a (length r))) = r.
Proof.
  revert a. induction r as [|x r IH]; intros a; [reflexivity|].
  cbn [length seq map zipWith]. rewrite IH. f_equal. lra.
Qed.

Variables (u : mat) (N f : vec).
Hypothesis Hvalid : valid_inputs u N f.

(** After the column minima are subtracted, every column minimum is 0. *)
Lemma min0_sub_cols_min0 :
  min0 (sub_cols u (min0 u)) = map (fun _ => 0) (seq 0 (n_samples u)).
Proof.
  assert (length (map Ropp (min0 u)) = n_samples u) as Hy
    by now rewrite length_map, length_min0.
  unfold min0 at 1. rewrite (n_samples_min_shift Hvalid).
  apply map_ext_in. intros n Hn. apply in_seq in Hn.
  rewrite sub_cols_add_cols.
  rewrite (@col_add_cols u N f (map Ropp (min0 u)) Hvalid Hy n) by lia.
  rewrite amin_vshift.
  - rewrite (@nth_map_lt _ _ Ropp (min0 u) n 0 0) by (rewrite length_min0; lia).
    unfold min0. rewrite nth_map_seq by lia. lra.
  - unfold col. pose proof (valid_nonempty Hvalid).
    destruct u; [congruence | discriminate].
Qed.

Lemma sub_cols_min0_twice :
  sub_cols (sub_cols u (min0 u)) (min0 (sub_cols u (min0 u))) = sub_cols u (min0 u).
Proof.
  rewrite min0_sub_cols_min0.
  pose proof (valid_min_shift Hvalid) as (Hsh1 & _).
  destruct (shapes_ok_inv _ _ _ Hsh1) as (Hrows & _ & _).
  rewrite (n_samples_min_shift Hvalid) in Hrows.
  unfold sub_cols at 1. rewrite <- (map_id (sub_cols u (min0 u))) at 2.
  apply map_ext_in. intros r Hin.
  rewrite Forall_forall in Hrows. rewrite <- (Hrows r Hin).
  apply zipWith_minus_zeros.
Qed.

End PreconditionerTwice.

(** X9. On valid inputs preconditioning is idempotent: preconditioning the
    matrix [precondition_u_kn] returned, with the same counts and estimate,
    returns that matrix again. *)
Theorem precondition_idempotent (u : mat) (N f : vec) :
  valid_inputs u N f ->
  exists u',
    precondition_u_kn u N f = Ok u' /\ precondition_u_kn u' N f = Ok u'.
Proof.
  intros Hv. pose proof Hv as (Hsh & _).
  exists (preconditioned u N f).
  split; [now apply precondition_u_kn_eq|].
  rewrite precondition_u_kn_eq
    by (rewrite (preconditioned_shapes f Hv); exact Hsh).
  pose proof (valid_min_shift Hv) as Hv1.
  unfold preconditioned at 1 2.
  set (u1 := sub_cols u (min0 u)) in *.
  set (z := map (fun l => l - dot N f / Rsum N) (log_denominator_n u1 N f)).
  assert (length z = n_samples u1) as Hz
    by (unfold z; now rewrite length_map, length_log_denominator_n).
  rewrite (@sub_cols_min0_add_cols u1 N f z Hv1 Hz).
  unfold u1. rewrite (sub_cols_min0_twice Hv). reflexivity.
Qed.

Lemma precondition_idempotent_witness :
  let u := [[0; 0]; [1; 2]] in
  let N := [1; 1] in
  let f := [0; 0] in
  exists u',
    precondition_u_kn u N f = Ok u' /\ precondition_u_kn u' N f = Ok u'.
Proof.
  apply (@precondition_idempotent [[0; 0]; [1; 2]] [1; 1] [0; 0]).
  repeat split; [simpl; lia | repeat constructor; lra | constructor; lra].
Defined.

(** ** The estimates and the counters of the adaptive solver *)

Section AdaptivePasses.

Variable lstsq : mat -> vec -> vec.
Variables (u : mat) (N : vec).

(** What a pass computed, read back from its candidates. *)
Lemma candidates_inv (gamma : R) (f fs fn : vec) (gs gn : R) :
  candidates lstsq gamma u N f = Ok (fs, fn, gs, gn) ->
  exists g H s h0 s0,
    mbar_gradient u N f = Ok g /\ mbar_hessian u N f = Ok H /\
    index0 (lstsq H g) = Ok h0 /\
    self_consistent_update u N f = Ok s /\ index0 s = Ok s0 /\
    fs = map (fun x => x - s0) s /\
    fn = vsub f (map (fun x => gamma * x) (map (fun x => x - h0) (lstsq H g))).
Proof.
  unfold candidates.
  destruct (mbar_gradient u N f) as [g|] eqn:Eg; [|discriminate]. cbn [rbind].
  destruct (mbar_hessian u N f) as [H|] eqn:EH; [|discriminate]. cbn [rbind].
  destruct (index0 (lstsq H g)) as [h0|] eqn:Eh; [|discriminate]. cbn [rbind].
  destruct (self_consistent_update u N f) as [s|] eqn:Es; [|discriminate].
  cbn [rbind].
  destruct (index0 s) as [s0|] eqn:E0; [|discriminate]. cbn [rbind].
  destruct (mbar_gradient u N (map (fun x => x - s0) s)); [|discriminate].
  cbn [rbind].
  match goal with
  | |- context [rbind (mbar_gradient u N ?x) _] =>
      destruct (mbar_gradient u N x); [|discriminate]
  end.
  cbn [rbind]. intros E. injection E as <- <- _ _.
  exists g, H, s, h0, s0. repeat split; assumption.
Qed.

Lemma anchored_sci (s : vec) (s0 : R) :
  index0 s = Ok s0 -> nth 0 (map (fun x => x - s0) s) 0 = 0.
Proof.
  destruct s as [|x s]; [discriminate|]. intros E. injection E as <-.
  simpl. lra.
Qed.

Lemma anchored_nr (gamma h0 : R) (f l : vec) :
  index0 l = Ok h0 ->
  nth 0 (vsub f (map (fun x => gamma * x) (map (fun x => x - h0) l))) 0 = nth 0 f 0.
Proof.
  destruct l as [|x l]; [discriminate|]. intros E. injection E as <-.
  destruct f as [|y f]; simpl; [reflexivity | lra].
Qed.

(** The Newton-Raphson candidate keeps the first entry of the estimate, the
    self-consistent one has first entry 0: once a self-consistent step was
    taken the first entry stays 0. *)
Lemma selected_anchored (gamma : R) (c : vec * vec * R * R) (i : nat)
    (st : loop_state) :
  candidates lstsq gamma u N (f_k st) = Ok c ->
  sci_iter st = 0%nat \/ nth 0 (f_k st) 0 = 0 ->
  nth 0 (f_k (selected c i st)) 0 = 0.
Proof.
  destruct c as [[[fs fn] gs] gn]. intros Hc Hinv.
  destruct (candidates_inv _ _ Hc) as (g & H & s & h0 & s0 & _ & _ & Hh & _ & Hs & -> & ->).
  unfold selected. cbn [f_k].
  destruct Hinv as [Hz|Ha].
  - rewrite Hz. rewrite orb_true_r. now apply anchored_sci.
  - destruct (Rltb gs gn || (sci_iter st <? 2)%nat).
    + now apply anchored_sci.
    + rewrite anchored_nr by exact Hh. exact Ha.
Qed.

Lemma selected_counters (c : vec * vec * R * R) (i j : nat) (st : loop_state) :
  (nr_iter st + sci_iter st = j)%nat -> (Nat.min j 2 <= sci_iter st)%nat ->
  (nr_iter (selected c i st) + sci_iter (selected c i st) = S j)%nat /\
  (Nat.min (S j) 2 <= sci_iter (selected c i st))%nat /\
  (1 <= sci_iter (selected c i st))%nat /\
  iteration (selected c i st) = Some i.
Proof.
  destruct c as [[[fs fn] gs] gn]. intros Hsum Hmin.
  unfold selected. cbn [nr_iter sci_iter iteration].
  destruct (sci_iter st <? 2)%nat eqn:E.
  - rewrite orb_true_r. apply Nat.ltb_lt in E. repeat split; lia.
  - rewrite orb_false_r. apply Nat.ltb_ge in E.
    destruct (Rltb gs gn); repeat split; lia.
Qed.

Hypothesis lstsq_length : forall H g, length (lstsq H g) = length g.
Hypothesis Hrect : rectangular u = true.
Hypothesis HN : length N = length u.
Hypothesis HK : (2 <= length u)%nat.

Variables (verbose : bool) (gamma tol : R).

Local Abbreviation after := (state_after lstsq u N verbose gamma tol).

(** The counters and the first entry of the estimate after [j] passes. *)
Lemma state_after_counters (f0 : vec) (j : nat) :
  good u f0 ->
  let st := after 0 j (mkState f0 None 0 0 None None) in
  (nr_iter st + sci_iter st = j)%nat /\
  (Nat.min j 2 <= sci_iter st)%nat /\
  iteration st = match j with O => None | S i => Some i end /\
  ((1 <= j)%nat -> nth 0 (f_k st) 0 = 0 /\ (1 <= sci_iter st)%nat).
Proof.
  intros Hf. set (st0 := mkState f0 None 0 0 None None).
  assert (good u (f_k st0)) as Hg by exact Hf.
  induction j as [|j IH].
  - cbn. repeat split; try lia.
  - cbv zeta in *. rewrite state_after_last. cbn [Nat.add].
    set (sj := after 0 j st0) in *.
    assert (good u (f_k sj)) as Hj
      by apply (@state_after_good lstsq lstsq_length u N Hrect HN HK verbose gamma tol j 0 st0 Hg).
    destruct (@body_good lstsq lstsq_length u N Hrect HN HK verbose gamma tol j sj Hj)
      as (c & t & Hc & -> & _).
    destruct IH as (Hsum & Hmin & _ & Hone).
    destruct (@selected_counters c j j sj Hsum Hmin) as (H1 & H2 & H3 & H4).
    split; [exact H1|]. split; [exact H2|]. split; [exact H4|].
    intros _. split; [|exact H3].
    apply (@selected_anchored gamma c j sj Hc).
    destruct j as [|j]; [left; reflexivity | right; apply Hone; lia].
Qed.

End AdaptivePasses.

Section AdaptiveOutcome.

Variable lstsq : mat -> vec -> vec.
Hypothesis lstsq_length : forall H g, length (lstsq H g) = length g.

Variables (u : mat) (N : vec).
Hypothesis Hrect : rectangular u = true.
Hypothesis HN : length N = length u.
Hypothesis HK : (2 <= length u)%nat.

(** A call that may make at least one pass returns the estimate of its last
    pass; [brk] tells whether the loop was left by [break]. *)
Lemma adaptive_outcome (f0 : vec) (tol : R) (o : options) :
  good u f0 ->
  (1 <= setdefault (opt_maximum_iterations o) 250%Z)%Z ->
  let verbose := setdefault (opt_verbose o) false in
  let gamma := setdefault (opt_gamma o) 1 in
  let cap := Z.to_nat (setdefault (opt_maximum_iterations o) 250%Z) in
  let st := fun j => state_after lstsq u N verbose gamma tol 0 j
                                 (mkState f0 None 0 0 None None) in
  exists n t brk,
    (n < cap)%nat /\
    (forall j, (j < n)%nat -> stops tol (st j) (st (S j)) = false) /\
    stops tol (st n) (st (S n)) = brk /\
    (brk = false -> S n = cap) /\
    adaptive lstsq u N f0 tol (Some o) = (t, Ok (f_k (st (S n)))) /\
    (brk = true -> silent t).
Proof.
  intros Hf0 Hcap verbose gamma cap.
  set (st0 := mkState f0 None 0 0 None None). intros st.
  assert (good u (f_k st0)) as Hg by exact Hf0.
  destruct (@adaptive_loop_run lstsq lstsq_length u N Hrect HN HK verbose gamma tol
              cap 0 st0 Hg)
    as (n & t & brk & Hn & Hloop & Ht & Hbefore & Hlast & Hfull & Hbrk).
  assert (1 <= n)%nat as Hn1.
  { destruct brk; [now apply Hbrk|]. rewrite (Hfull eq_refl). unfold cap. lia. }
  destruct n as [|n]; [lia|].
  destruct (@state_after_bound lstsq lstsq_length u N Hrect HN HK verbose gamma tol
              n st0 Hg) as (md & it & Hmd & Hit).
  assert (exists W, mbar_W_nk u N f0 = Ok W) as [W HW].
  { eexists. apply mbar_W_nk_eq. now apply (@good_shapes u N Hrect HN f0). }
  assert (exists tail,
            adaptive lstsq u N f0 tol (Some o) =
              ((if verbose then [Stdout MsgDetermining] else []) ++
               [PdbSetTrace] ++
               (if Rltb tol (15 / 10 ^ 16) then [Stdout MsgToleranceTooTight] else []) ++
               t ++ tail ++ [], Ok (f_k (st (S n)))) /\
            (brk = true -> silent tail)) as (tail & Ha & Hq).
  { unfold adaptive. fold verbose gamma cap st0.
    destruct brk.
    - exists (if verbose
              then [Stdout (MsgConverged md (it + 1));
                    Stdout (MsgIterationCounts (it + 1)
                              (nr_iter (st (S n))) (sci_iter (st (S n))))]
                   ++ (if all_zero (f_k (st (S n))) then [Stdout MsgAllZero] else [])
              else []).
      split.
      + eapply pbind_eq; [apply when_emit|]. cbv beta.
        eapply pbind_eq; [reflexivity|]. cbv beta.
        rewrite HW, pbind_lift_ok.
        eapply pbind_eq; [apply when_emit|]. cbv beta.
        eapply pbind_eq; [exact Hloop|]. cbv beta iota zeta.
        eapply pbind_eq; [|reflexivity].
        rewrite Hmd, Hit. destruct verbose; [|reflexivity].
        unfold when at 1.
        rewrite pbind_emit, pbind_emit, when_emit. reflexivity.
      + intros _. destruct verbose; [|apply silent_nil].
        intros [E|[E|Hin]]; try discriminate.
        cbn [app] in Hin.
        destruct (all_zero (f_k (st (S n))));
          [destruct Hin as [E|[]]; discriminate | destruct Hin].
    - exists [Stdout MsgDidNotConverge;
              Stdout (MsgMaxDelta md tol (setdefault (opt_maximum_iterations o) 250%Z) it)].
      split; [|discriminate].
      eapply pbind_eq; [apply when_emit|]. cbv beta.
      eapply pbind_eq; [reflexivity|]. cbv beta.
      rewrite HW, pbind_lift_ok.
      eapply pbind_eq; [apply when_emit|]. cbv beta.
      eapply pbind_eq; [exact Hloop|]. cbv beta iota zeta.
      eapply pbind_eq; [|reflexivity].
      rewrite Hmd, Hit. rewrite pbind_emit. reflexivity. }
  exists n. eexists. exists brk.
  split; [lia|].
  split; [intros j Hj; apply Hbefore; lia|].
  split; [now apply Hlast|].
  split; [exact Hfull|].
  split; [exact Ha|].
  intros Hb.
  apply silent_app; [apply silent_when; discriminate|].
  apply silent_app; [intros [E|[]]; discriminate|].
  apply silent_app; [apply silent_when; discriminate|].
  apply silent_app; [exact Ht|].
  apply silent_app; [now apply Hq | apply silent_nil].
Qed.

End AdaptiveOutcome.

(** X10. On valid inputs with at least two states and an
    iteration cap of at least 1, [adaptive] returns an estimate with one
    entry per state whose first entry is 0, whatever the initial estimate:
    the self-consistent candidate is shifted to [f_sci[0] = 0], the first
    pass always takes it, and the Newton-Raphson candidate keeps the first
    entry because its step is shifted to [Hinvg[0] = 0]. *)
Theorem adaptive_result_anchored
    (lstsq : mat -> vec -> vec) (u : mat) (N f0 : vec) (tol : R) (o : options) :
  (forall H g, length (lstsq H g) = length g) ->
  valid_inputs u N f0 ->
  (2 <= length u)%nat ->
  (1 <= setdefault (opt_maximum_iterations o) 250%Z)%Z ->
  exists t r,
    adaptive lstsq u N f0 tol (Some o) = (t, Ok r) /\
    length r = length u /\ nth 0 r 0 = 0.
Proof.
  intros Hl Hv HK Hcap.
  destruct (valid_shapes Hv) as (Hrect & HN & Hf0).
  destruct (@adaptive_outcome lstsq Hl u N Hrect HN HK f0 tol o Hf0 Hcap)
    as (n & t & brk & _ & _ & _ & _ & Ha & _).
  exists t. eexists. split; [exact Ha|]. split.
  - apply (@state_after_good lstsq Hl u N Hrect HN HK). exact Hf0.
  - apply (@state_after_counters lstsq u N Hl Hrect HN HK
             (setdefault (opt_verbose o) false) (setdefault (opt_gamma o) 1) tol
             f0 (S n) Hf0).
    lia.
Qed.

Lemma adaptive_result_anchored_witness :
  exists t r,
    adaptive lstsq0 [[0]; [1]] [1; 1] [5; 7] (1 / 10 ^ 12)
             (Some (mkOptions None None None None)) = (t, Ok r) /\
    length r = 2%nat /\ nth 0 r 0 = 0.
Proof.
  apply (@adaptive_result_anchored lstsq0 [[0]; [1]] [1; 1] [5; 7] (1 / 10 ^ 12)
           (mkOptions None None None None)).
  - reflexivity.
  - repeat split; [simpl; lia | repeat constructor; lra | constructor; lra].
  - simpl; lia.
  - simpl; lia.
Defined.

(** X11. The loop of [adaptive], on valid inputs with at least
    two states, ends without an exception after some number [n] of passes,
    at most the length of the range; then [nr_iter + sci_iter = n], the
    first two passes are self-consistent ones ([min(n, 2) <= sci_iter]), and
    [iteration] is [n - 1], unbound when no pass was made. *)
Theorem adaptive_counters
    (lstsq : mat -> vec -> vec) (u : mat) (N f0 : vec)
    (verbose : bool) (gamma tol : R) (cap : nat) :
  (forall H g, length (lstsq H g) = length g) ->
  valid_inputs u N f0 ->
  (2 <= length u)%nat ->
  exists n t s brk,
    (n <= cap)%nat /\
    adaptive_loop lstsq verbose gamma tol u N (seq 0 cap)
                  (mkState f0 None 0 0 None None) = (t, Ok (s, brk)) /\
    (nr_iter s + sci_iter s = n)%nat /\
    (Nat.min n 2 <= sci_iter s)%nat /\
    iteration s = match n with O => None | S i => Some i end.
Proof.
  intros Hl Hv HK.
  destruct (valid_shapes Hv) as (Hrect & HN & Hf0).
  set (st0 := mkState f0 None 0 0 None None).
  assert (good u (f_k st0)) as Hg by exact Hf0.
  destruct (@adaptive_loop_run lstsq Hl u N Hrect HN HK verbose gamma tol cap 0 st0 Hg)
    as (n & t & brk & Hn & Hloop & _).
  exists n, t. eexists. exists brk.
  split; [exact Hn|]. split; [exact Hloop|].
  destruct (@state_after_counters lstsq u N Hl Hrect HN HK verbose gamma tol f0 n Hf0)
    as (H1 & H2 & H3 & _).
  auto.
Qed.

Lemma adaptive_counters_witness :
  exists n t s brk,
    (n <= 250)%nat /\
    adaptive_loop lstsq0 true 1 (1 / 10 ^ 12) [[0]; [1]] [1; 1] (seq 0 250)
                  (mkState [0; 0] None 0 0 None None) = (t, Ok (s, brk)) /\
    (nr_iter s + sci_iter s = n)%nat /\
    (Nat.min n 2 <= sci_iter s)%nat /\
    iteration s = match n with O => None | S i => Some i end.
Proof.
  apply (@adaptive_counters lstsq0 [[0]; [1]] [1; 1] [0; 0] true 1 (1 / 10 ^ 12) 250).
  - reflexivity.
  - repeat split; [simpl; lia | repeat constructor; lra | constructor; lra].
  - simpl; lia.
Defined.

(** X12. With an iteration cap of zero or less the body of the loop never
    runs: on valid inputs [adaptive] prints the did-not-converge
    warning and then raises [UnboundLocalError], since the line that reports
    [max_delta] reads a name no pass has bound. *)
Theorem adaptive_zero_cap
    (lstsq : mat -> vec -> vec) (u : mat) (N f0 : vec) (tol : R) (o : options) :
  valid_inputs u N f0 ->
  (setdefault (opt_maximum_iterations o) 250%Z <= 0)%Z ->
  adaptive lstsq u N f0 tol (Some o) =
    ((if setdefault (opt_verbose o) false then [Stdout MsgDetermining] else []) ++
     [PdbSetTrace] ++
     (if Rltb tol (15 / 10 ^ 16) then [Stdout MsgToleranceTooTight] else []) ++
     [Stdout MsgDidNotConverge],
     Raise UnboundLocalError).
Proof.
  intros (Hsh & _) Hcap. unfold adaptive. cbv zeta.
  replace (Z.to_nat (setdefault (opt_maximum_iterations o) 250%Z)) with 0%nat by lia.
  rewrite pbind_when. cbn [fst snd].
  rewrite pbind_emit. cbn [fst snd].
  rewrite mbar_W_nk_eq by exact Hsh. rewrite pbind_lift_ok.
  rewrite pbind_when. cbn [fst snd].
  cbn [seq adaptive_loop]. rewrite pbind_pret. cbv beta iota zeta.
  cbn [max_delta iteration]. rewrite pbind_emit. reflexivity.
Qed.

Lemma adaptive_zero_cap_witness :
  adaptive lstsq0 [[0]; [1]] [1; 1] [0; 0] (1 / 10 ^ 12)
           (Some (mkOptions (Some true) (Some 0%Z) None None)) =
    ([Stdout MsgDetermining] ++ [PdbSetTrace] ++
     (if Rltb (1 / 10 ^ 12) (15 / 10 ^ 16) then [Stdout MsgToleranceTooTight] else []) ++
     [Stdout MsgDidNotConverge],
     Raise UnboundLocalError).
Proof.
  apply (@adaptive_zero_cap lstsq0 [[0]; [1]] [1; 1] [0; 0] (1 / 10 ^ 12)
           (mkOptions (Some true) (Some 0%Z) None None)); [|simpl; lia].
  repeat split; [simpl; lia | repeat constructor; lra | constructor; lra].
Defined.

Section SingleState.

Variable lstsq : mat -> vec -> vec.
Hypothesis lstsq_length : forall H g, length (lstsq H g) = length g.

Lemma length_one {A : Type} (l : list A) : length l = 1%nat -> exists x, l = [x].
Proof.
  destruct l as [|x [|y l]]; try discriminate. intros _. now exists x.
Qed.

(** With a single state every candidate has one entry. *)
Lemma candidates_single (gamma : R) (u : mat) (N f : vec) :
  shapes_ok u N f = true -> length u = 1%nat ->
  exists fs fn gs gn,
    candidates lstsq gamma u N f = Ok (fs, fn, gs, gn) /\
    length fs = 1%nat /\ length fn = 1%nat.
Proof.
  intros Hsh HK.
  destruct (shapes_ok_inv _ _ _ Hsh) as (Hr & HN & Hf). unfold n_states in *.
  assert (forall f', length f' = 1%nat -> shapes_ok u N f' = true) as Hsh'.
  { intros f' Hf'. rewrite <- Hsh. unfold shapes_ok. now rewrite Hf', Hf, HK. }
  assert (forall f', length f' = 1%nat ->
            exists g, mbar_gradient u N f' = Ok g /\ length g = 1%nat) as Hgrad.
  { intros f' Hf'. eexists. split; [apply mbar_gradient_eq, Hsh', Hf'|].
    unfold gradient_of, log_numerator_k.
    rewrite !length_zipWith, length_map. unfold mat, vec in *. lia. }
  unfold candidates.
  assert (length f = 1%nat) as Hf1 by (rewrite Hf; exact HK).
  destruct (Hgrad f Hf1) as (g & -> & Hg).
  rewrite mbar_hessian_eq by exact Hsh. cbn [rbind].
  match goal with |- context [lstsq ?H g] => set (l := lstsq H g) end.
  assert (length l = 1%nat) as Hl by (unfold l; now rewrite lstsq_length).
  destruct (length_one _ Hl) as (h0 & ->). cbn [index0 rbind].
  rewrite self_consistent_update_operands by exact Hsh. cbn [rbind].
  match goal with |- context [index0 ?x] => set (s := x) end.
  assert (length s = 1%nat) as Hs.
  { unfold s, log_numerator_k. rewrite !length_map. exact HK. }
  destruct (length_one _ Hs) as (s0 & ->). cbn [index0 rbind].
  destruct (Hgrad (map (fun x => x - s0) [s0]) eq_refl) as (g1 & -> & _).
  cbn [rbind].
  match goal with |- context [mbar_gradient u N ?x] => set (fn := x) end.
  assert (length fn = 1%nat) as Hfn.
  { unfold fn, vsub. rewrite length_zipWith, !length_map. simpl. lia. }
  destruct (Hgrad fn Hfn) as (g2 & -> & _). cbn [rbind].
  eexists _, _, _, _. split; [reflexivity|]. split; [reflexivity | exact Hfn].
Qed.

(** The first pass fails at the test: [f_k[1:]] is empty. *)
Lemma iteration_single (verbose : bool) (gamma tol : R) (u : mat) (N : vec)
    (i : nat) (st : loop_state) :
  shapes_ok u N (f_k st) = true -> length u = 1%nat ->
  snd (adaptive_iteration lstsq verbose gamma tol u N i st) = Raise ValueError.
Proof.
  intros Hsh HK.
  destruct (@candidates_single gamma u N (f_k st) Hsh HK) as (fs & fn & gs & gn & Hc & Hfs & Hfn).
  destruct (length_one _ Hfs) as (x & ->).
  destruct (length_one _ Hfn) as (y & ->).
  unfold adaptive_iteration. rewrite Hc, pbind_lift_ok. cbv beta iota zeta.
  rewrite snd_pbind_trace_irrelevant.
  replace (snd (when verbose (emit (Stdout (MsgGradientNorms gs gn))))) with (Ok tt)
    by now destruct verbose.
  rewrite snd_pbind_trace_irrelevant.
  destruct (Rltb gs gn || (sci_iter st <? 2)%nat).
  - rewrite snd_pbind_trace_irrelevant.
    match goal with
    | |- context [snd (when verbose ?m)] =>
        replace (snd (when verbose m)) with (Ok tt) by now destruct verbose
    end.
    cbn. reflexivity.
  - rewrite snd_pbind_trace_irrelevant.
    match goal with
    | |- context [snd (when verbose ?m)] =>
        replace (snd (when verbose m)) with (Ok tt) by now destruct verbose
    end.
    cbn. reflexivity.
Qed.

Lemma adaptive_single_raises (u : mat) (N f0 : vec) (tol : R) (o : options) :
  shapes_ok u N f0 = true -> length u = 1%nat ->
  (1 <= setdefault (opt_maximum_iterations o) 250%Z)%Z ->
  snd (adaptive lstsq u N f0 tol (Some o)) = Raise ValueError.
Proof.
  intros Hsh HK Hcap. unfold adaptive. cbv zeta.
  rewrite (snd_pbind_ok _ (when_emit _ _)).
  rewrite (snd_pbind_ok (m := emit PdbSetTrace) _ eq_refl).
  rewrite mbar_W_nk_eq by exact Hsh. rewrite pbind_lift_ok.
  rewrite (snd_pbind_ok _ (when_emit _ _)).
  destruct (Z.to_nat (setdefault (opt_maximum_iterations o) 250%Z)) as [|cap] eqn:E;
    [lia|].
  cbn [seq adaptive_loop].
  rewrite snd_pbind_trace_irrelevant, snd_pbind_trace_irrelevant.
  rewrite iteration_single; auto.
Qed.

End SingleState.

(** X13. [adaptive] cannot be used with a single state: on valid inputs with
    one state and an iteration cap of at least 1 the first pass raises
    [ValueError], because the convergence test takes the maximum of the empty
    array [f_k[1:]]. *)
Theorem adaptive_single_state
    (lstsq : mat -> vec -> vec) (u : mat) (N f0 : vec) (tol : R) (o : options) :
  (forall H g, length (lstsq H g) = length g) ->
  valid_inputs u N f0 -> length u = 1%nat ->
  (1 <= setdefault (opt_maximum_iterations o) 250%Z)%Z ->
  snd (adaptive lstsq u N f0 tol (Some o)) = Raise ValueError.
Proof.
  intros Hl (Hsh & _) HK Hcap. now apply adaptive_single_raises.
Qed.

Lemma adaptive_single_state_witness :
  snd (adaptive lstsq0 [[0; 1]] [2] [0] (1 / 10 ^ 12)
                (Some (mkOptions None None None None))) = Raise ValueError.
Proof.
  apply (@adaptive_single_state lstsq0 [[0; 1]] [2] [0] (1 / 10 ^ 12)
           (mkOptions None None None None)).
  - reflexivity.
  - repeat split; [simpl; lia | repeat constructor; lra | constructor; lra].
  - reflexivity.
  - simpl; lia.
Defined.

Section FixedPoint.

Lemma amax_zeros (l : vec) : Forall (fun x => x = 0) l -> amax l = 0.
Proof.
  induction 1 as [|x l Hx Hl IH]; [reflexivity|].
  subst x. cbn [amax]. destruct l; [reflexivity|].
  rewrite IH. apply Rmax_left. lra.
Qed.

Lemma no_change (l : vec) : Forall (fun x => x = 0) (map Rabs (vsub l l)).
Proof.
  induction l as [|x l IH]; constructor; [|exact IH].
  replace (x - x) with 0 by lra. apply Rabs_R0.
Qed.

Lemma Reqb_refl (x : R) : Reqb x x = true.
Proof. unfold Reqb. now destruct (Req_dec_T x x). Qed.

(** An estimate that did not change passes the test: the relative change is
    0, or NaN when the new estimate is zero beyond its first entry. *)
Lemma converged_no_change (f : vec) (tol : R) :
  0 < tol -> converged (relative_change f f) tol = true.
Proof.
  intros Htol. unfold relative_change, converged.
  rewrite (amax_zeros (no_change (tl f))).
  unfold np_divide. destruct (Reqb (amax (map Rabs (tl f))) 0).
  - now rewrite Reqb_refl.
  - cbn [np_isnan np_lt orb]. apply Rltb_true.
    unfold Rdiv. now rewrite Rmult_0_l.
Qed.

Lemma map_minus_zero (l : vec) : map (fun x => x - 0) l = l.
Proof.
  induction l as [|x l IH]; [reflexivity|]. cbn [map]. rewrite IH.
  f_equal. lra.
Qed.

End FixedPoint.

(** X14. A solution of the self-consistent equations is returned as it is:
    when [self_consistent_update] maps an estimate [f0] with [f0[0] = 0] to
    itself and the tolerance is positive, [adaptive] (valid inputs, at least
    two states, a cap of at least 1) stops after its first pass, returns
    [f0] and does not print the did-not-converge warning. *)
Theorem adaptive_fixed_point
    (lstsq : mat -> vec -> vec) (u : mat) (N f0 : vec) (tol : R) (o : options) :
  (forall H g, length (lstsq H g) = length g) ->
  valid_inputs u N f0 ->
  (2 <= length u)%nat ->
  (1 <= setdefault (opt_maximum_iterations o) 250%Z)%Z ->
  0 < tol ->
  self_consistent_update u N f0 = Ok f0 -> nth 0 f0 0 = 0 ->
  exists t,
    adaptive lstsq u N f0 tol (Some o) = (t, Ok f0) /\
    ~ In (Stdout MsgDidNotConverge) t /\
    exists s brk,
      snd (adaptive_iteration lstsq (setdefault (opt_verbose o) false)
             (setdefault (opt_gamma o) 1) tol u N 0
             (mkState f0 None 0 0 None None)) = Ok (s, brk) /\
      f_k s = f0 /\ brk = true.
Proof.
  intros Hl Hv HK Hcap Htol Hfix H0.
  destruct (valid_shapes Hv) as (Hrect & HN & Hf0).
  set (verbose := setdefault (opt_verbose o) false).
  set (gamma := setdefault (opt_gamma o) 1).
  set (st0 := mkState f0 None 0 0 None None).
  assert (good u (f_k st0)) as Hg by exact Hf0.
  destruct (@body_good lstsq Hl u N Hrect HN HK verbose gamma tol 0 st0 Hg)
    as ([[[fs fn] gs] gn] & t1 & Hc & Hb & Hi & _).
  assert (f_k (body lstsq u N verbose gamma tol 0 st0) = f0) as Hfirst.
  { rewrite Hb. unfold selected. cbn [f_k sci_iter st0 Nat.ltb Nat.leb].
    rewrite orb_true_r.
    destruct (@candidates_inv _ _ _ _ _ _ _ _ _ Hc)
      as (g & H & s & h0 & s0 & _ & _ & _ & Hs & Hs0 & -> & _).
    cbn [f_k st0] in Hs. rewrite Hfix in Hs. injection Hs as <-.
    destruct f0 as [|x f0']; [discriminate|].
    injection Hs0 as <-. cbn [nth] in H0. rewrite H0.
    apply map_minus_zero. }
  assert (stops tol st0 (body lstsq u N verbose gamma tol 0 st0) = true) as Hstop.
  { unfold stops. rewrite Hfirst. cbn [f_k st0]. now apply converged_no_change. }
  destruct (@adaptive_outcome lstsq Hl u N Hrect HN HK f0 tol o Hf0 Hcap)
    as (n & t & brk & _ & Hbefore & Hlast & _ & Ha & Hsil).
  fold verbose gamma st0 in Hbefore, Hlast, Ha.
  assert (state_after lstsq u N verbose gamma tol 0 1 st0 =
          body lstsq u N verbose gamma tol 0 st0) as H1 by reflexivity.
  destruct n as [|n].
  2:{ specialize (Hbefore 0%nat ltac:(lia)). rewrite H1 in Hbefore.
      change (state_after lstsq u N verbose gamma tol 0 0 st0) with st0 in Hbefore.
      congruence. }
  rewrite H1 in Hlast, Ha.
  change (state_after lstsq u N verbose gamma tol 0 0 st0) with st0 in Hlast.
  rewrite Hstop in Hlast. subst brk. rewrite Hfirst in Ha.
  exists t. split; [exact Ha|]. split; [now apply Hsil|].
  exists (body lstsq u N verbose gamma tol 0 st0), true.
  rewrite Hi, Hstop. auto.
Qed.

Lemma fixed_point_example :
  self_consistent_update [[0]; [0]] [1; 0] [0; 0] = Ok [0; 0].
Proof.
  rewrite self_consistent_update_operands by reflexivity.
  unfold masked_log_denominator_n, masked_denominator_operands, states_with_samples,
    reduce_denominator.
  cbn [map]. rewrite (@positive_true 1) by lra. rewrite (@positive_false 0) by lra.
  cbn -[exp ln].
  replace (0 - 0 - (0 - 0)) with 0 by lra.
  rewrite exp_0. replace (1 * 1 + 0) with 1 by lra. rewrite ln_1.
  replace (- (0 + (0 - 0)) - 0 - (- (0 + (0 - 0)) - 0)) with 0 by lra.
  rewrite exp_0. replace (1 + 0) with 1 by lra. rewrite ln_1.
  repeat f_equal; lra.
Qed.

Lemma adaptive_fixed_point_witness :
  exists t,
    adaptive lstsq0 [[0]; [0]] [1; 0] [0; 0] (1 / 10 ^ 12)
             (Some (mkOptions None None None None)) = (t, Ok [0; 0]) /\
    ~ In (Stdout MsgDidNotConverge) t /\
    exists s brk,
      snd (adaptive_iteration lstsq0 false 1 (1 / 10 ^ 12) [[0]; [0]] [1; 0] 0
             (mkState [0; 0] None 0 0 None None)) = Ok (s, brk) /\
      f_k s = [0; 0] /\ brk = true.
Proof.
  apply (@adaptive_fixed_point lstsq0 [[0]; [0]] [1; 0] [0; 0] (1 / 10 ^ 12)
           (mkOptions None None None None)).
  - reflexivity.
  - repeat split; [simpl; lia | repeat constructor; lra | constructor; lra].
  - simpl; lia.
  - simpl; lia.
  - apply Rdiv_lt_0_compat; [lra | apply pow_lt; lra].
  - exact fixed_point_example.
  - reflexivity.
Defined.

(** ** The counts of a subsample *)

Section SubsampledCounts.

Lemma Int_part_div (z s : Z) : (0 < s)%Z -> Int_part (IZR z / IZR s) = (z / s)%Z.
Proof.
  intros Hs.
  pose proof (Z.div_mod z s ltac:(lia)) as Hd.
  pose proof (Z.mod_pos_bound z s Hs) as Hm.
  assert (0 < IZR s) as Hs' by now apply IZR_lt.
  assert (IZR z = IZR s * IZR (z / s) + IZR (z mod s)) as Hz
      by (rewrite <- mult_IZR, <- plus_IZR; now f_equal).
  assert (0 <= IZR (z mod s) < IZR s) as Hr
      by (split; [apply IZR_le | apply IZR_lt]; lia).
  symmetry.
  apply (@Int_part_frac_part_spec (IZR z / IZR s) (z / s)%Z (IZR (z mod s) / IZR s)).
  - split.
    + apply Rmult_le_reg_r with (IZR s); [exact Hs'|].
      unfold Rdiv. rewrite Rmult_assoc, Rinv_l by lra. lra.
    + apply Rmult_lt_reg_r with (IZR s); [exact Hs'|].
      unfold Rdiv. rewrite Rmult_assoc, Rinv_l by lra. lra.
  - rewrite Hz at 1. field. lra.
Qed.

(** The count kept for a state with [z] samples. *)
Lemma subsampled_count (z s : Z) :
  (0 < s)%Z ->
  (let q := IZR (Int_part (IZR z / IZR s)) in
   if Reqb q 0 && positive (IZR z) then 1 else q) =
  IZR (if ((z / s =? 0) && (0 <? z))%Z then 1 else z / s).
Proof.
  intros Hs. cbv zeta. rewrite Int_part_div by exact Hs.
  assert (Reqb (IZR (z / s)) 0 = (z / s =? 0)%Z) as ->.
  { unfold Reqb. destruct (Req_dec_T (IZR (z / s)) 0) as [E|E].
    - apply eq_IZR in E. rewrite E. reflexivity.
    - symmetry. apply Z.eqb_neq. intros E'. apply E. now rewrite E'. }
  assert (positive (IZR z) = (0 <? z)%Z) as ->.
  { unfold positive. destruct (Rlt_dec 0 (IZR z)) as [E|E].
    - apply lt_IZR in E. symmetry. now apply Z.ltb_lt.
    - symmetry. apply Z.ltb_ge. destruct (Z_lt_le_dec 0 z) as [L|L]; [|exact L].
      exfalso. apply E. now apply IZR_lt. }
  now destruct ((z / s =? 0) && (0 <? z))%Z.
Qed.

Lemma positive_IZR (z : Z) : positive (IZR z) = (0 <? z)%Z.
Proof.
  unfold positive. destruct (Rlt_dec 0 (IZR z)) as [E|E].
  - apply lt_IZR in E. symmetry. now apply Z.ltb_lt.
  - symmetry. apply Z.ltb_ge. destruct (Z_lt_le_dec 0 z) as [L|L]; [|exact L].
    exfalso. apply E. now apply IZR_lt.
Qed.

Lemma nth_map_IZR (k : nat) (zs : list Z) : nth k (map IZR zs) 0 = IZR (nth k zs 0%Z).
Proof. now rewrite <- (map_nth IZR). Qed.

End SubsampledCounts.

(** X15. The counts [subsample_data] returns, for integer counts [N_k0 >= 0]
    and [subsampling >= 1]: every new count is an integer between 0 and the
    old one, it is 0 exactly for the states that had no samples (so the
    states with samples are the same before and after), it is
    [N_k0[k] // subsampling] once the state has at least [subsampling]
    samples, and with [subsampling = 1] the counts are unchanged. *)
Theorem subsampled_counts_keep_states (zs : list Z) (s : Z) :
  (1 <= s)%Z -> Forall (fun z => (0 <= z)%Z) zs ->
  exists cs,
    subsampled_counts (map IZR zs) s = map IZR cs /\
    length cs = length zs /\
    (forall k, (k < length zs)%nat ->
       (0 <= nth k cs 0 <= nth k zs 0)%Z /\
       (nth k cs 0%Z = 0%Z <-> nth k zs 0%Z = 0%Z) /\
       ((s <= nth k zs 0)%Z -> nth k cs 0%Z = (nth k zs 0 / s)%Z)) /\
    where_positive (map IZR cs) = where_positive (map IZR zs) /\
    (s = 1%Z -> cs = zs) /\
    (forall random_choice u_kn0 s_n r,
       subsample_data random_choice u_kn0 (map IZR zs) s_n s = Ok r ->
       snd r = map IZR cs).
Proof.
  intros Hs Hzs.
  set (cnt := fun z => if ((z / s =? 0) && (0 <? z))%Z then 1%Z else (z / s)%Z).
  assert (forall z, (0 <= z)%Z ->
            (0 <= cnt z <= z)%Z /\ (cnt z = 0%Z <-> z = 0%Z) /\
            ((s <= z)%Z -> cnt z = (z / s)%Z) /\ (s = 1%Z -> cnt z = z)) as Hcnt.
  { intros z Hz. unfold cnt.
    pose proof (Z.div_pos z s Hz ltac:(lia)) as Hq.
    assert (z / s <= z)%Z as Hle by (apply Z.div_le_upper_bound; nia).
    assert (s <= z -> 1 <= z / s)%Z as Hge
        by (intros; apply Z.div_le_lower_bound; lia).
    assert (s = 1 -> z / s = z)%Z as Hone by (intros ->; apply Z.div_1_r).
    assert (z = 0 -> z / s = 0)%Z as Hzero by (intros ->; apply Z.div_0_l; lia).
    destruct (Z.eqb_spec (z / s) 0); destruct (Z.ltb_spec 0 z); cbn [andb];
      repeat split; intros; lia. }
  assert (subsampled_counts (map IZR zs) s = map IZR (map cnt zs)) as Hsub.
  { unfold subsampled_counts. rewrite !map_map. apply map_ext.
    intros z. apply subsampled_count. lia. }
  exists (map cnt zs).
  split; [exact Hsub|]. split; [apply length_map|].
  assert (forall k, (k < length zs)%nat -> nth k (map cnt zs) 0%Z = cnt (nth k zs 0%Z))
    as Hnth.
  { intros k Hk. rewrite (nth_indep _ 0%Z (cnt 0%Z)) by now rewrite length_map.
    apply map_nth. }
  assert (forall k, (k < length zs)%nat -> (0 <= nth k zs 0)%Z) as Hpos.
  { intros k Hk. rewrite Forall_forall in Hzs. apply Hzs, nth_In, Hk. }
  split; [|split; [|split]].
  - intros k Hk. rewrite (Hnth k Hk).
    destruct (Hcnt _ (Hpos k Hk)) as (H1 & H2 & H3 & _). auto.
  - unfold where_positive. rewrite !length_map.
    apply filter_ext_in. intros k Hk. apply in_seq in Hk.
    rewrite !nth_map_IZR, !positive_IZR, (Hnth k) by lia.
    destruct (Hcnt _ (Hpos k ltac:(lia))) as (H1 & H2 & _).
    destruct (0 <? nth k zs 0)%Z eqn:E.
    + apply Z.ltb_lt in E. apply Z.ltb_lt. lia.
    + apply Z.ltb_ge in E. apply Z.ltb_ge. lia.
  - intros Hs1. rewrite <- (map_id zs) at 2. apply map_ext_in.
    intros z Hz. rewrite Forall_forall in Hzs. now apply Hcnt; [apply Hzs|].
  - intros rc u0 s_n r. unfold subsample_data. cbv zeta.
    destruct (draw_samples _ _ _ _ _); cbn [rbind]; [|discriminate].
    intros E. injection E as <-. exact Hsub.
Qed.

Lemma subsampled_counts_keep_states_witness :
  exists cs,
    subsampled_counts (map IZR [10; 0; 3; 1]%Z) 4 = map IZR cs /\
    length cs = length [10; 0; 3; 1]%Z /\
    (forall k, (k < length [10; 0; 3; 1]%Z)%nat ->
       (0 <= nth k cs 0 <= nth k [10; 0; 3; 1] 0)%Z /\
       (nth k cs 0%Z = 0%Z <-> nth k [10; 0; 3; 1]%Z 0%Z = 0%Z) /\
       ((4 <= nth k [10; 0; 3; 1] 0)%Z -> nth k cs 0%Z = (nth k [10; 0; 3; 1] 0 / 4)%Z)) /\
    where_positive (map IZR cs) = where_positive (map IZR [10; 0; 3; 1]%Z) /\
    (4%Z = 1%Z -> cs = [10; 0; 3; 1]%Z) /\
    (forall random_choice u_kn0 s_n r,
       subsample_data random_choice u_kn0 (map IZR [10; 0; 3; 1]%Z) s_n 4 = Ok r ->
       snd r = map IZR cs).
Proof.
  apply (@subsampled_counts_keep_states [10; 0; 3; 1]%Z 4); [lia|].
  repeat constructor; lia.
Defined.

(** ** Writing an estimate back and reading it again *)

Section AssignTake.

Lemma nth_list_set_same (l : nat) (a : R) (h : vec) :
  (l < length h)%nat -> nth l (list_set l a h) 0 = a.
Proof.
  revert h. induction l as [|l IH]; intros [|x h] Hl; simpl in *; try lia.
  - reflexivity.
  - apply IH. lia.
Qed.

Lemma nth_list_set_other (l l' : nat) (a : R) (h : vec) :
  l' <> l -> nth l' (list_set l a h) 0 = nth l' h 0.
Proof.
  revert l' h. induction l as [|l IH]; intros [|l'] [|x h] Hl; simpl; try reflexivity;
    try congruence.
  apply IH. congruence.
Qed.

(** [x[idx] = vals] for distinct indices within bounds. *)
Lemma assign_distinct (idx : list nat) :
  forall (vals x : vec),
    NoDup idx -> Forall (fun k => (k < length x)%nat) idx ->
    length vals = length idx ->
    let x' := fold_left (fun acc kv => list_set (fst kv) (snd kv) acc)
                        (combine idx vals) x in
    length x' = length x /\
    map (fun k => nth k x' 0) idx = vals /\
    forall k, ~ In k idx -> nth k x' 0 = nth k x 0.
Proof.
  induction idx as [|i idx IH]; intros vals x Hnd Hin Hlen; cbv zeta.
  - destruct vals; [|discriminate]. cbn. auto.
  - destruct vals as [|v vals]; [discriminate|].
    inversion Hnd as [|? ? Hni Hnd']; subst.
    inversion Hin as [|? ? Hi Hin']; subst.
    cbn [combine fold_left fst snd].
    destruct (IH vals (list_set i v x) Hnd') as (H1 & H2 & H3).
    { rewrite length_list_set. exact Hin'. }
    { simpl in Hlen. lia. }
    cbv zeta in H1, H2, H3.
    split; [now rewrite H1, length_list_set|]. split.
    + cbn [map]. rewrite H2. f_equal.
      rewrite (H3 i Hni). now apply nth_list_set_same.
    + intros k Hk. rewrite H3 by (intros Hin2; apply Hk; now right).
      apply nth_list_set_other. intros ->. apply Hk. now left.
Qed.

Lemma where_positive_spec (N : vec) (k : nat) :
  In k (where_positive N) <-> (k < length N)%nat /\ positive (nth k N 0) = true.
Proof.
  unfold where_positive. rewrite filter_In, in_seq. intuition lia.
Qed.

Lemma where_positive_NoDup (N : vec) : NoDup (where_positive N).
Proof. unfold where_positive. apply NoDup_filter, seq_NoDup. Qed.

End AssignTake.

(** X16. The write [f_k[states_with_samples] = f_k_nonzero] followed by the
    read [f_k[states_with_samples]], as [solve_mbar_with_subsampling] does
    between its two solves: for [f_k] as long as [N_k] and one value per
    state with samples, the write succeeds, the read returns exactly the
    values written, and the entries of the states without samples are
    untouched. *)
Theorem hot_start_round_trip (N f vals : vec) :
  length f = length N -> length vals = length (where_positive N) ->
  exists f',
    assign_at (where_positive N) vals f = Ok f' /\
    take1 (where_positive N) f' = Ok vals /\
    length f' = length f /\
    forall k, positive (nth k N 0) = false -> nth k f' 0 = nth k f 0.
Proof.
  intros Hf Hv.
  assert (Forall (fun k => (k < length f)%nat) (where_positive N)) as Hin.
  { apply Forall_forall. intros k Hk. apply where_positive_spec in Hk. lia. }
  destruct (@assign_distinct (where_positive N) vals f (where_positive_NoDup N) Hin Hv)
    as (H1 & H2 & H3).
  cbv zeta in H1, H2, H3.
  assert (forall x : vec, length x = length f ->
            forallb (fun k => (k <? length x)%nat) (where_positive N) = true) as Hb.
  { intros x Hx. apply forallb_forall. intros k Hk. apply Nat.ltb_lt.
    rewrite Forall_forall in Hin. rewrite Hx. now apply Hin. }
  eexists. split; [|split; [|split]].
  - unfold assign_at. rewrite (Hb f eq_refl). cbn [negb].
    rewrite Hv, Nat.eqb_refl. reflexivity.
  - unfold take1. rewrite (Hb _ H1). now rewrite H2.
  - exact H1.
  - intros k Hk. apply H3. intros Hin'. apply where_positive_spec in Hin'.
    destruct Hin' as [_ Hp]. congruence.
Qed.

Lemma hot_start_round_trip_witness :
  length (where_positive [2; 0; 1]) = 2%nat /\
  exists f',
    assign_at (where_positive [2; 0; 1]) [5; 6] [0; 9; 0] = Ok f' /\
    take1 (where_positive [2; 0; 1]) f' = Ok [5; 6] /\
    length f' = length [0; 9; 0] /\
    forall k, positive (nth k [2; 0; 1] 0) = false -> nth k f' 0 = nth k [0; 9; 0] 0.
Proof.
  assert (where_positive [2; 0; 1] = [0; 2]%nat) as E.
  { unfold where_positive. cbn [length seq filter nth].
    rewrite (@positive_true 2), (@positive_false 0), (@positive_true 1) by lra.
    reflexivity. }
  split; [now rewrite E|].
  apply (@hot_start_round_trip [2; 0; 1] [0; 9; 0] [5; 6]); [reflexivity|].
  now rewrite E.
Defined.

(** ** Protocols of several stages *)

Section Sequencing.

Lemma hbind_assoc {A B C : Type} (m : hprog A) (k : A -> hprog B)
    (k' : B -> hprog C) (h : heap) :
  hbind (hbind m k) k' h = hbind m (fun a => hbind (k a) k') h.
Proof.
  unfold hbind. destruct (m h) as [t h1 [a|e]]; cbn; [|reflexivity].
  destruct (k a h1) as [t2 h2 [b|e]]; cbn; [|reflexivity].
  now rewrite app_assoc.
Qed.

Lemma hbind_ext {A B : Type} (m : hprog A) (k k' : A -> hprog B) (h : heap) :
  (forall a h', k a h' = k' a h') -> hbind m k h = hbind m k' h.
Proof.
  intros E. unfold hbind. destruct (out_result (m h)); [|reflexivity].
  now rewrite E.
Qed.

Lemma hbind_ext_l {A B : Type} (m m' : hprog A) (k : A -> hprog B) (h : heap) :
  m h = m' h -> hbind m k h = hbind m' k h.
Proof. intros E. unfold hbind. now rewrite E. Qed.

Lemma hbind_ret_l {A B : Type} (a : A) (k : A -> hprog B) (h : heap) :
  hbind (hret a) k h = k a h.
Proof. unfold hbind, hret. cbn. now destruct (k a h). Qed.

Lemma hbind_ret_r {A : Type} (m : hprog A) (h : heap) :
  hbind m (fun a => hret a) h = m h.
Proof.
  unfold hbind, hret. destruct (m h) as [t h1 [a|e]]; cbn; [|reflexivity].
  now rewrite app_nil_r.
Qed.

Variable lstsq : mat -> vec -> vec.
Variable scipy_minimize :
  (vec -> result (R * vec)) -> option (vec -> result mat) -> vec ->
  string -> R -> option options -> prog vec.
Variable scipy_root :
  (vec -> result vec) -> (vec -> result mat) -> vec ->
  string -> R -> option options -> prog vec.
Variable check_w_normalized : mat -> vec -> result unit.

Variables (lu lN : loc).

Local Abbreviation stages :=
  (solve_mbar_stages lstsq scipy_minimize scipy_root check_w_normalized lu lN).

(** The loop only appends to [all_results]. *)
Lemma stages_log (p : list stage) :
  forall (lf : loc) (log : list log_entry) (h : heap),
    stages p lf log h =
    hbind (stages p lf []) (fun fr => hret (fst fr, log ++ snd fr)) h.
Proof.
  induction p as [|o rest IH]; intros lf log h.
  - cbn [solve_mbar_stages]. rewrite hbind_ret_l. cbn [fst snd].
    now rewrite app_nil_r.
  - cbn [solve_mbar_stages].
    rewrite hbind_assoc. apply hbind_ext. intros fr h1.
    rewrite hbind_assoc. apply hbind_ext. intros u h2.
    rewrite hbind_assoc. apply hbind_ext. intros N h3.
    rewrite hbind_assoc. apply hbind_ext. intros f h4.
    rewrite hbind_assoc. apply hbind_ext. intros g h5.
    rewrite (IH (fst fr) (log ++ _)).
    erewrite (@hbind_ext_l _ _ (stages rest (fst fr) ([] ++ _))) by apply IH.
    rewrite hbind_assoc. apply hbind_ext. intros fr' h6.
    rewrite hbind_ret_l. cbn [fst snd app]. now rewrite <- app_assoc.
Qed.

(** The stages of [p1 ++ p2] are those of [p1] followed by those of [p2]. *)
Lemma stages_app (p1 p2 : list stage) :
  forall (lf : loc) (log : list log_entry) (h : heap),
    stages (p1 ++ p2) lf log h =
    hbind (stages p1 lf log) (fun fr => stages p2 (fst fr) (snd fr)) h.
Proof.
  induction p1 as [|o rest IH]; intros lf log h.
  - cbn [app solve_mbar_stages]. now rewrite hbind_ret_l.
  - cbn [app solve_mbar_stages].
    rewrite hbind_assoc. apply hbind_ext. intros fr h1.
    rewrite hbind_assoc. apply hbind_ext. intros u h2.
    rewrite hbind_assoc. apply hbind_ext. intros N h3.
    rewrite hbind_assoc. apply hbind_ext. intros f h4.
    rewrite hbind_assoc. apply hbind_ext. intros g h5.
    apply IH.
Qed.

End Sequencing.

(** X17. Protocols compose: [solve_mbar] with the protocol [p1 ++ p2] does
    exactly what running it with [p1] and then with [p2], started from the
    estimate the first run returned, does; the same output, the same arrays,
    the same exception if there is one, and the log is the two logs one
    after the other. *)
Theorem solve_mbar_protocols_compose
    (lstsq : mat -> vec -> vec)
    (scipy_minimize : (vec -> result (R * vec)) -> option (vec -> result mat) ->
                      vec -> string -> R -> option options -> prog vec)
    (scipy_root : (vec -> result vec) -> (vec -> result mat) -> vec ->
                  string -> R -> option options -> prog vec)
    (check_w_normalized : mat -> vec -> result unit)
    (lu lN lf : loc) (p1 p2 : list stage) (h : heap) :
  solve_mbar lstsq scipy_minimize scipy_root check_w_normalized
             lu lN lf (Some (p1 ++ p2)) h =
  (fr1 <== solve_mbar lstsq scipy_minimize scipy_root check_w_normalized
                      lu lN lf (Some p1) ;;
   fr2 <== solve_mbar lstsq scipy_minimize scipy_root check_w_normalized
                      lu lN (fst fr1) (Some p2) ;;
   hret (fst fr2, snd fr1 ++ snd fr2)) h.
Proof.
  unfold solve_mbar. cbn [setdefault].
  rewrite stages_app. apply hbind_ext. intros fr h1.
  apply stages_log.
Qed.

(** ** The estimate a solver returns *)

Section ReturnedEstimate.

Variable lstsq : mat -> vec -> vec.
Hypothesis lstsq_length : forall H g, length (lstsq H g) = length g.

(** Whenever [adaptive] returns, at least one pass was made on at least two
    states, and the first entry of the estimate is 0. *)
Lemma adaptive_ok_anchored (u : mat) (N f0 : vec) (tol : R)
    (opts : option options) (r : vec) :
  shapes_ok u N f0 = true -> (1 <= length u)%nat ->
  snd (adaptive lstsq u N f0 tol opts) = Ok r ->
  nth 0 r 0 = 0 /\ length r = length u.
Proof.
  intros Hsh HK E. destruct opts as [o|]; [|discriminate].
  destruct (Z_le_gt_dec (setdefault (opt_maximum_iterations o) 250%Z) 0) as [Hc|Hc].
  { rewrite (@adaptive_without_passes lstsq u N f0 tol o Hsh Hc) in E. discriminate. }
  destruct (Nat.eq_dec (length u) 1) as [H1|H1].
  { rewrite adaptive_single_raises in E by (auto; lia). discriminate. }
  pose proof (rectangular_of_shapes _ _ _ Hsh) as Hrect.
  destruct (shapes_ok_inv _ _ _ Hsh) as (_ & HN & Hf).
  assert (2 <= length u)%nat as HK2 by lia.
  destruct (@adaptive_outcome lstsq lstsq_length u N Hrect HN HK2 f0 tol o Hf
              ltac:(lia)) as (n & t & brk & _ & _ & _ & _ & Ha & _).
  rewrite Ha in E. cbn [snd] in E. injection E as <-. split.
  - apply (@state_after_counters lstsq u N lstsq_length Hrect HN HK2
             (setdefault (opt_verbose o) false) (setdefault (opt_gamma o) 1) tol
             f0 (S n) Hf).
    lia.
  - apply (@state_after_good lstsq lstsq_length u N Hrect HN HK2). exact Hf.
Qed.

Variable scipy_minimize :
  (vec -> result (R * vec)) -> option (vec -> result mat) -> vec ->
  string -> R -> option options -> prog vec.
Variable scipy_root :
  (vec -> result vec) -> (vec -> result mat) -> vec ->
  string -> R -> option options -> prog vec.
Variable check_w_normalized : mat -> vec -> result unit.

Variables (h : heap) (lu lN lf : loc) (u : mat) (N f : vec).
Hypothesis Hu : nth_error h lu = Some (Arr2 u).
Hypothesis HN : nth_error h lN = Some (Arr1 N).
Hypothesis Hf : nth_error h lf = Some (Arr1 f).

Variables (f0 : R) (method : string) (tol : R) (opts : option options).
Hypothesis Hshapes : shapes_ok u N f = true.
Hypothesis Hf0 : index0 f = Ok f0.

Local Abbreviation f1 := (map (fun x => x - f0) f).
Local Abbreviation u1 := (preconditioned u N f1).
Local Abbreviation h2 := (h ++ [Arr1 f1; Arr2 u1]).

(** The solver [solve_mbar_once] dispatches to, on the arrays it prepared. *)
Local Abbreviation dispatch :=
  (let pad (x : vec) := 0 :: x in
   let grad x := g <- mbar_gradient u1 N (pad x) ;; Ok (tl g) in
   let grad_and_obj x :=
     og <- mbar_objective_and_gradient u1 N (pad x) ;; Ok (fst og, tl (snd og)) in
   let hess x := H <- mbar_hessian u1 N (pad x) ;; Ok (map (@tl R) (tl H)) in
   if mem_string method minimizers then
     let hess := if mem_string method ["L-BFGS-B"; "CG"]%string
                 then None else Some hess in
     xw <== hlift (catch_warnings
                     (scipy_minimize grad_and_obj hess (tl f1) method tol opts)) ;;
     l <== alloc (Arr1 (pad (fst xw))) ;;
     hret (l, ResScipy (fst xw), snd xw)
   else if String.eqb method "adaptive" then
     rw <== hlift (catch_warnings (adaptive lstsq u1 N f1 tol opts)) ;;
     l <== alloc (Arr1 (fst rw)) ;;
     hret (l, ResAdaptive l, snd rw)
   else
     xw <== hlift (catch_warnings
                     (scipy_root grad hess (tl f1) method tol opts)) ;;
     l <== alloc (Arr1 (pad (fst xw))) ;;
     hret (l, ResScipy (fst xw), snd xw)).

(** The call up to the dispatch on [method]. *)
Lemma solve_mbar_once_prefix :
  solve_mbar_once lstsq scipy_minimize scipy_root check_w_normalized
                  lu lN lf method tol opts h =
  hbind dispatch
        (fun x =>
           let '(f_k_nonzero, results, w) := x in
           hbind (if (0 <? w)%nat then
                    hbind (hlift (repeat ShowWarning w, Ok tt)) (fun _ =>
                    hbind (load1 f_k_nonzero) (fun fr =>
                    hbind (hlift (lift (mbar_W_nk u1 N fr))) (fun W =>
                    hbind (hlift (lift (check_w_normalized W N))) (fun _ =>
                    hlift (emit (Stdout MsgWeightsConverged))))))
                  else hret tt)
                 (fun _ => hret (f_k_nonzero, results))) h2.
Proof.
  rewrite (@solve_mbar_once_runs_solver h lu lN lf u N f Hu HN Hf lstsq
             scipy_minimize scipy_root check_w_normalized f0 method tol opts
             Hshapes Hf0).
  reflexivity.
Qed.

(** What the dispatch leaves behind when it returns: a new array whose first
    entry is 0, and [results] is that array or the rest of it. *)
Lemma dispatch_returns (l : loc) (res : solver_results) (w : nat) :
  out_result (dispatch h2) = Ok (l, res, w) ->
  l = length h2 /\
  exists r, out_heap (dispatch h2) = h2 ++ [Arr1 r] /\
            nth 0 r 0 = 0 /\ (1 <= length r)%nat /\
            match res with
            | ResAdaptive l' => l' = l /\ String.eqb method "adaptive" = true
            | ResScipy x => r = 0 :: x
            end.
Proof.
  cbv zeta.
  assert (forall (p : prog vec) (l : loc) (x : vec) (w : nat),
            out_result
              ((xw <== hlift (catch_warnings p) ;;
                l <== alloc (Arr1 (0 :: fst xw)) ;;
                hret (l, ResScipy (fst xw), snd xw)) h2) = Ok (l, ResScipy x, w) ->
            l = length h2 /\
            out_heap
              ((xw <== hlift (catch_warnings p) ;;
                l <== alloc (Arr1 (0 :: fst xw)) ;;
                hret (l, ResScipy (fst xw), snd xw)) h2) = h2 ++ [Arr1 (0 :: x)])
    as Hscipy.
  { intros [t [x'|e]] l' x w'; unfold hbind, hlift, catch_warnings, alloc, hret;
      cbn; [|discriminate].
    intros E. injection E as <- <- _. auto. }
  assert (forall (p : prog vec) (l l' : loc) (w : nat),
            out_result
              ((xw <== hlift (catch_warnings p) ;;
                l <== alloc (Arr1 (0 :: fst xw)) ;;
                hret (l, ResScipy (fst xw), snd xw)) h2) <> Ok (l, ResAdaptive l', w))
    as Hscipy'.
  { intros [t [x'|e]] l0 l' w'; unfold hbind, hlift, catch_warnings, alloc, hret;
      cbn; discriminate. }
  destruct (mem_string method minimizers).
  - destruct res as [l'|x]; intros E; [now apply Hscipy' in E|].
    destruct (Hscipy _ _ _ _ E) as [-> ->].
    split; [reflexivity|]. exists (0 :: x). cbn. repeat split; lia.
  - destruct (String.eqb method "adaptive") eqn:Em.
    + destruct (adaptive lstsq u1 N f1 tol opts) as [t [r|e]] eqn:Ea;
        unfold hbind, hlift, catch_warnings, alloc, hret; cbn;
        [|discriminate].
      intros E. injection E as <- <- _.
      split; [reflexivity|]. exists r. split; [reflexivity|].
      assert (shapes_ok u1 N f1 = true) as Hs1.
      { rewrite (@preconditioned_shape u N f1 f1) by now apply shapes_ok_anchor.
        now apply shapes_ok_anchor. }
      assert (1 <= length u1)%nat as HK1.
      { destruct (shapes_ok_inv _ _ _ Hs1) as (_ & _ & Hl). rewrite <- Hl.
        rewrite length_map. destruct f; [discriminate | simpl; lia]. }
      destruct (@adaptive_ok_anchored u1 N f1 tol opts r Hs1 HK1) as [H0 Hlen].
      { now rewrite Ea. }
      split; [exact H0|]. split; [lia|]. auto.
    + destruct res as [l'|x]; intros E; [now apply Hscipy' in E|].
      destruct (Hscipy _ _ _ _ E) as [-> ->].
      split; [reflexivity|]. exists (0 :: x). cbn. repeat split; lia.
Qed.

Lemma solve_mbar_once_returns (l : loc) (res : solver_results) :
  out_result (solve_mbar_once lstsq scipy_minimize scipy_root check_w_normalized
                              lu lN lf method tol opts h) = Ok (l, res) ->
  exists r,
    nth_error (out_heap (solve_mbar_once lstsq scipy_minimize scipy_root
                           check_w_normalized lu lN lf method tol opts h)) l
      = Some (Arr1 r) /\
    nth 0 r 0 = 0 /\ (1 <= length r)%nat /\ (length h <= l)%nat /\
    match res with
    | ResAdaptive l' => l' = l /\ String.eqb method "adaptive" = true
    | ResScipy x => r = 0 :: x
    end.
Proof.
  rewrite solve_mbar_once_prefix.
  destruct (dispatch h2) as [t h3 [[[l0 res0] w]|e]] eqn:Ed.
  2:{ erewrite (@hbind_stop _ _ _ _ h2 h3 t e) by exact Ed. discriminate. }
  erewrite (@hbind_step _ _ _ _ h2 h3 t (l0, res0, w)) by exact Ed.
  cbn [out_result out_heap]. cbv beta iota zeta.
  intros Hres.
  destruct (@dispatch_returns l0 res0 w) as (Hl0 & r & Hh3 & H0 & Hlen & Hr).
  { now rewrite Ed. }
  rewrite Ed in Hh3. cbn [out_heap] in Hh3. subst h3 l0.
  destruct (@frame_after_solver check_w_normalized (S (length h2)) u1 N w
              (length h2) res0 (h2 ++ [Arr1 r])) as (_ & Hold & HQ).
  { rewrite !length_app. simpl. lia. }
  specialize (HQ _ Hres). injection HQ as -> ->.
  exists r. split.
  - rewrite Hold by (auto; lia). apply nth_error_fresh.
  - repeat split; auto. rewrite length_app. lia.
Qed.

End ReturnedEstimate.

Section LogShape.

Variable lstsq : mat -> vec -> vec.
Variable scipy_minimize :
  (vec -> result (R * vec)) -> option (vec -> result mat) -> vec ->
  string -> R -> option options -> prog vec.
Variable scipy_root :
  (vec -> result vec) -> (vec -> result mat) -> vec ->
  string -> R -> option options -> prog vec.
Variable check_w_normalized : mat -> vec -> result unit.

Variables (n : nat) (lu lN : loc).

(** The entries a run over the protocol [p] adds to the log, and where the
    estimate it returns lives. *)
Lemma frame_stages_log (p : list stage) :
  forall (lf : loc) (log : list log_entry),
    frame n (fun _ => False)
      (fun r => exists new,
         snd r = log ++ new /\ length new = (2 * length p)%nat /\
         (forall i, (i < length p)%nat ->
            (exists res, nth_error new (2 * i) = Some (LogResults res)) /\
            (exists x, nth_error new (2 * i + 1) = Some (LogGradientNorm x) /\
                       0 <= x)) /\
         (p = [] -> fst r = lf) /\ (p <> [] -> (n <= fst r)%nat) /\
         ((n <= lf)%nat -> (n <= fst r)%nat))
      (solve_mbar_stages lstsq scipy_minimize scipy_root check_w_normalized
                         lu lN p lf log).
Proof.
  induction p as [|o rest IH]; intros lf log; cbn [solve_mbar_stages].
  - apply frame_ret. exists []. cbn. rewrite app_nil_r.
    repeat split; auto; try lia; congruence.
  - eapply frame_bind; [apply frame_solve_mbar_once|]. intros [l0 r0] Hl.
    cbn [fst snd] in *.
    eapply frame_bind; [apply frame_load2|]. intros u _.
    eapply frame_bind; [apply frame_load1|]. intros N _.
    eapply frame_bind; [apply frame_load1|]. intros f _.
    eapply frame_bind; [apply frame_lift|]. intros g _.
    eapply frame_weaken; [|apply IH].
    intros [l r] (new & Hnew & Hlen & Hent & _ & _ & Hfresh). cbn [fst snd] in *.
    exists ([LogResults r0; LogGradientNorm (sqrt (dot g g))] ++ new).
    split; [now rewrite Hnew, <- app_assoc|].
    split; [rewrite length_app; cbn [length]; lia|].
    split; [|split; [discriminate | split; auto]].
    intros [|i] Hi.
    + cbn. split; [now eexists|]. eexists. split; [reflexivity | apply sqrt_pos].
    + replace (2 * S i)%nat with (S (S (2 * i))) by lia.
      replace (S (S (2 * i)) + 1)%nat with (S (S (2 * i + 1))) by lia.
      cbn [app nth_error]. apply Hent. cbn [length] in Hi. lia.
Qed.

End LogShape.

Section StageInversion.

Lemma hbind_ok_inv_k {A B : Type} (m : hprog A) (k : A -> hprog B) (h : heap)
    (b : B) :
  out_result (hbind m k h) = Ok b ->
  exists a, out_result (m h) = Ok a /\ out_result (k a (out_heap (m h))) = Ok b.
Proof.
  unfold hbind. destruct (out_result (m h)) as [a|e]; cbn; [eauto | discriminate].
Qed.

Lemma load2_inv (l : loc) (h : heap) (u : mat) :
  out_result (load2 l h) = Ok u ->
  nth_error h l = Some (Arr2 u) /\ out_heap (load2 l h) = h.
Proof.
  unfold load2. destruct (nth_error h l) as [[v|m]|]; cbn; try discriminate.
  intros E. injection E as <-. auto.
Qed.

Lemma load1_inv (l : loc) (h : heap) (v : vec) :
  out_result (load1 l h) = Ok v ->
  nth_error h l = Some (Arr1 v) /\ out_heap (load1 l h) = h.
Proof.
  unfold load1. destruct (nth_error h l) as [[w|m]|]; cbn; try discriminate.
  intros E. injection E as <-. auto.
Qed.

End StageInversion.

(** X18. What [solve_mbar] returns.  The log has two entries for every stage
    of the protocol.  With an empty protocol the call returns the caller's
    own [f_k_nonzero] and an empty log.  Otherwise the first stage is a call
    of [solve_mbar_once] on the caller's arrays that returned an estimate
    and [results]; the log starts with these [results], followed by the norm
    of [mbar_gradient] at that estimate; the rest of the log and the
    estimate returned are those of [solve_mbar] run with the remaining
    stages from the estimate of the first stage, and the array returned was
    allocated during the call. *)
Theorem solve_mbar_log_shape
    (lstsq : mat -> vec -> vec)
    (scipy_minimize : (vec -> result (R * vec)) -> option (vec -> result mat) ->
                      vec -> string -> R -> option options -> prog vec)
    (scipy_root : (vec -> result vec) -> (vec -> result mat) -> vec ->
                  string -> R -> option options -> prog vec)
    (check_w_normalized : mat -> vec -> result unit)
    (lu lN lf : loc) (p : list stage) (h : heap) (l : loc) (log : list log_entry) :
  out_result (solve_mbar lstsq scipy_minimize scipy_root check_w_normalized
                         lu lN lf (Some p) h) = Ok (l, log) ->
  length log = (2 * length p)%nat /\
  match p with
  | [] => l = lf /\ log = []
  | o :: rest =>
      let once :=
        solve_mbar_once lstsq scipy_minimize scipy_root check_w_normalized
          lu lN lf (setdefault (stage_method o) "hybr"%string)
          (setdefault (stage_tol o) (1 / 10 ^ 12)) (stage_options o) h in
      exists l1 res1 u N f g log',
        out_result once = Ok (l1, res1) /\
        nth_error (out_heap once) lu = Some (Arr2 u) /\
        nth_error (out_heap once) lN = Some (Arr1 N) /\
        nth_error (out_heap once) l1 = Some (Arr1 f) /\
        mbar_gradient u N f = Ok g /\
        out_result (solve_mbar lstsq scipy_minimize scipy_root check_w_normalized
                               lu lN l1 (Some rest) (out_heap once)) = Ok (l, log') /\
        log = LogResults res1 :: LogGradientNorm (sqrt (dot g g)) :: log' /\
        (length h <= l)%nat
  end.
Proof.
  intros E. unfold solve_mbar in E. cbn [setdefault] in E.
  destruct (@frame_stages_log lstsq scipy_minimize scipy_root check_w_normalized
              (length h) lu lN p lf [] h (le_n _)) as (_ & _ & HQ).
  destruct (HQ _ E) as (new & Hnew & Hlen & _ & _ & Hcons & _).
  cbn [fst snd app] in *. subst new. split; [exact Hlen|].
  destruct p as [|o rest].
  - cbn in E. injection E as <- <-. auto.
  - cbn [solve_mbar_stages] in E. cbv zeta.
    destruct (hbind_ok_inv_k _ _ _ E) as ([l1 res1] & E1 & E2). clear E.
    cbn [fst snd] in E2.
    destruct (hbind_ok_inv_k _ _ _ E2) as (u & Eu & E3). clear E2.
    destruct (load2_inv _ _ Eu) as (Hu & Hhu). rewrite Hhu in E3.
    destruct (hbind_ok_inv_k _ _ _ E3) as (N & EN & E4). clear E3.
    destruct (load1_inv _ _ EN) as (HN & HhN). rewrite HhN in E4.
    destruct (hbind_ok_inv_k _ _ _ E4) as (f & Ef & E5). clear E4.
    destruct (load1_inv _ _ Ef) as (Hf & Hhf). rewrite Hhf in E5.
    destruct (hbind_ok_inv_k _ _ _ E5) as (g & Eg & E6). clear E5.
    cbn [hlift lift out_result out_heap snd] in Eg, E6.
    rewrite stages_log in E6.
    destruct (hbind_ok_inv_k _ _ _ E6) as ([l' log'] & E7 & E8).
    cbn in E8. injection E8 as <- <-.
    exists l1, res1, u, N, f, g, log'.
    repeat split; try assumption.
    apply Hcons. discriminate.
Qed.

Section StubRun.

Variable lstsq : mat -> vec -> vec.
Variable scipy_minimize :
  (vec -> result (R * vec)) -> option (vec -> result mat) -> vec ->
  string -> R -> option options -> prog vec.
Variable check_w_normalized : mat -> vec -> result unit.

Variables (h : heap) (lu lN lf : loc) (u : mat) (N f : vec).
Hypothesis Hu : nth_error h lu = Some (Arr2 u).
Hypothesis HN : nth_error h lN = Some (Arr1 N).
Hypothesis Hf : nth_error h lf = Some (Arr1 f).
Variables (f0 : R) (method : string) (tol : R) (opts : option options).
Hypothesis Hshapes : shapes_ok u N f = true.
Hypothesis Hf0 : index0 f = Ok f0.
Hypothesis Hmin : mem_string method minimizers = false.
Hypothesis Hada : String.eqb method "adaptive" = false.

Local Abbreviation f1 := (map (fun x => x - f0) f).
Local Abbreviation u1 := (preconditioned u N f1).

(** A root finder that returns its starting point at once: the call
    returns the anchored initial estimate in a new array. *)
Lemma solve_mbar_once_root_stub :
  solve_mbar_once lstsq scipy_minimize scipy_root0 check_w_normalized
                  lu lN lf method tol opts h =
  mkOutcome [] (h ++ [Arr1 f1; Arr2 u1; Arr1 (0 :: tl f1)])
            (Ok (S (S (length h)), ResScipy (tl f1))).
Proof.
  rewrite (@solve_mbar_once_prefix lstsq scipy_minimize scipy_root0
             check_w_normalized h lu lN lf u N f Hu HN Hf f0 method tol opts
             Hshapes Hf0).
  cbv zeta. rewrite Hmin, Hada.
  unfold hbind, hlift, catch_warnings, scipy_root0, pret, alloc, hret.
  cbn [fst snd out_result out_heap out_trace filter length Nat.ltb Nat.leb app].
  rewrite length_app. cbn [length]. rewrite <- app_assoc. cbn [app].
  replace (length h + 2)%nat with (S (S (length h))) by lia.
  reflexivity.
Qed.

End StubRun.

Lemma solve_mbar_stub_example :
  exists log,
    out_result (solve_mbar lstsq0 scipy_minimize0 scipy_root0 check_w_normalized0
                  0%nat 1%nat 2%nat (Some [mkStage None None None])
                  [Arr2 [[0]; [1]]; Arr1 [1; 1]; Arr1 [0; 0]]) = Ok (5%nat, log).
Proof.
  unfold solve_mbar.
  cbn [setdefault solve_mbar_stages stage_method stage_tol stage_options].
  erewrite hbind_step.
  2:{ apply (@solve_mbar_once_root_stub lstsq0 scipy_minimize0 check_w_normalized0
               [Arr2 [[0]; [1]]; Arr1 [1; 1]; Arr1 [0; 0]] 0%nat 1%nat 2%nat
               [[0]; [1]] [1; 1] [0; 0] eq_refl eq_refl eq_refl 0);
        reflexivity. }
  cbn [out_result fst snd length app map tl].
  erewrite hbind_step by (apply load2_ok; reflexivity).
  cbn [out_result].
  erewrite hbind_step by (apply load1_ok; reflexivity).
  cbn [out_result].
  erewrite hbind_step by (apply load1_ok; reflexivity).
  cbn [out_result].
  rewrite mbar_gradient_eq by reflexivity.
  eexists. reflexivity.
Qed.

Lemma solve_mbar_log_shape_witness :
  let h := [Arr2 [[0]; [1]]; Arr1 [1; 1]; Arr1 [0; 0]] in
  let once :=
    solve_mbar_once lstsq0 scipy_minimize0 scipy_root0 check_w_normalized0
      0%nat 1%nat 2%nat "hybr" (1 / 10 ^ 12) None h in
  exists log,
    out_result (solve_mbar lstsq0 scipy_minimize0 scipy_root0 check_w_normalized0
                           0%nat 1%nat 2%nat (Some [mkStage None None None]) h)
      = Ok (5%nat, log) /\
    length log = 2%nat /\
    exists l1 res1 u N f g log',
      out_result once = Ok (l1, res1) /\
      nth_error (out_heap once) 0 = Some (Arr2 u) /\
      nth_error (out_heap once) 1 = Some (Arr1 N) /\
      nth_error (out_heap once) l1 = Some (Arr1 f) /\
      mbar_gradient u N f = Ok g /\
      out_result (solve_mbar lstsq0 scipy_minimize0 scipy_root0 check_w_normalized0
                             0%nat 1%nat l1 (Some []) (out_heap once)) = Ok (5%nat, log') /\
      log = LogResults res1 :: LogGradientNorm (sqrt (dot g g)) :: log' /\
      (length h <= 5)%nat.
Proof.
  intros h once. destruct solve_mbar_stub_example as [log E].
  exists log. split; [exact E|].
  exact (@solve_mbar_log_shape lstsq0 scipy_minimize0 scipy_root0 check_w_normalized0
           0%nat 1%nat 2%nat [mkStage None None None] h 5%nat log E).
Defined.

Lemma hbind_ok_inv {A B : Type} (m : hprog A) (k : A -> hprog B) (h : heap) (b : B) :
  out_result (hbind m k h) = Ok b -> exists a, out_result (m h) = Ok a.
Proof.
  unfold hbind. destruct (out_result (m h)) as [a|e]; cbn; [eauto | discriminate].
Qed.

(** Validation passes only on three arrays of the right rank. *)
Lemma validate_inputs_mem_inv (lu lN lf : loc) (h : heap) (x : loc * loc * loc) :
  out_result (validate_inputs_mem lu lN lf h) = Ok x ->
  exists u N f, nth_error h lu = Some (Arr2 u) /\
                nth_error h lN = Some (Arr1 N) /\
                nth_error h lf = Some (Arr1 f).
Proof.
  unfold validate_inputs_mem, hbind, load2, load1.
  destruct (nth_error h lu) as [[v|u]|]; cbn; try discriminate.
  destruct (nth_error h lN) as [[N|m]|]; cbn; try discriminate.
  destruct (nth_error h lf) as [[f|m]|]; cbn; try discriminate.
  intros _. now exists u, N, f.
Qed.

(** X21. Every solver path of [solve_mbar_once] fixes the first free energy
    at zero: whenever the call returns, with whatever method, the estimate
    it returns is a new array with at least one entry whose first entry is
    0.  For the adaptive method [results] is that same array; for the scipy
    methods the estimate is scipy's [x] with a zero put in front. *)
Theorem solve_mbar_once_anchored
    (lstsq : mat -> vec -> vec)
    (scipy_minimize : (vec -> result (R * vec)) -> option (vec -> result mat) ->
                      vec -> string -> R -> option options -> prog vec)
    (scipy_root : (vec -> result vec) -> (vec -> result mat) -> vec ->
                  string -> R -> option options -> prog vec)
    (check_w_normalized : mat -> vec -> result unit)
    (h : heap) (lu lN lf : loc) (method : string) (tol : R)
    (opts : option options) (l : loc) (res : solver_results) :
  (forall H g, length (lstsq H g) = length g) ->
  out_result (solve_mbar_once lstsq scipy_minimize scipy_root check_w_normalized
                              lu lN lf method tol opts h) = Ok (l, res) ->
  exists r,
    nth_error (out_heap (solve_mbar_once lstsq scipy_minimize scipy_root
                           check_w_normalized lu lN lf method tol opts h)) l
      = Some (Arr1 r) /\
    nth 0 r 0 = 0 /\ (1 <= length r)%nat /\ (length h <= l)%nat /\
    match res with
    | ResAdaptive l' => l' = l /\ String.eqb method "adaptive" = true
    | ResScipy x => r = 0 :: x
    end.
Proof.
  intros Hl E.
  assert (exists u N f, nth_error h lu = Some (Arr2 u) /\
                        nth_error h lN = Some (Arr1 N) /\
                        nth_error h lf = Some (Arr1 f)) as (u & N & f & Hu & HN & Hf).
  { unfold solve_mbar_once in E. apply hbind_ok_inv in E. destruct E as [x E].
    now apply validate_inputs_mem_inv in E. }
  destruct (shapes_ok u N f) eqn:Hsh.
  2:{ exfalso. revert E. unfold solve_mbar_once.
      erewrite hbind_stop
        by (rewrite (@validate_inputs_mem_spec h lu lN lf u N f Hu HN Hf), Hsh;
            reflexivity).
      discriminate. }
  destruct (index0 f) as [f0|e] eqn:Hf0.
  2:{ exfalso. revert E. unfold solve_mbar_once.
      erewrite hbind_silent
        by (rewrite (@validate_inputs_mem_spec h lu lN lf u N f Hu HN Hf), Hsh;
            reflexivity).
      cbv beta iota zeta. hstep. rewrite Hf0.
      erewrite hbind_stop by reflexivity. discriminate. }
  exact (@solve_mbar_once_returns lstsq Hl scipy_minimize scipy_root
           check_w_normalized h lu lN lf u N f Hu HN Hf f0 method tol opts
           Hsh Hf0 l res E).
Qed.

Lemma solve_mbar_once_anchored_witness :
  let h := [Arr2 [[0]; [1]]; Arr1 [1; 1]; Arr1 [3; 4]] in
  let x := tl (map (fun y => y - 3) [3; 4]) in
  exists r,
    nth_error (out_heap (solve_mbar_once lstsq0 scipy_minimize0 scipy_root0
                           check_w_normalized0 0%nat 1%nat 2%nat "hybr"
                           (1 / 10 ^ 12) None h)) 5
      = Some (Arr1 r) /\
    nth 0 r 0 = 0 /\ (1 <= length r)%nat /\ (length h <= 5)%nat /\
    r = 0 :: x.
Proof.
  intros h x.
  apply (@solve_mbar_once_anchored lstsq0 scipy_minimize0 scipy_root0
           check_w_normalized0 h 0%nat 1%nat 2%nat "hybr" (1 / 10 ^ 12) None
           5%nat (ResScipy x)).
  - reflexivity.
  - rewrite (@solve_mbar_once_root_stub lstsq0 scipy_minimize0 check_w_normalized0
               h 0%nat 1%nat 2%nat [[0]; [1]] [1; 1] [3; 4] eq_refl eq_refl eq_refl
               3 "hybr" (1 / 10 ^ 12) None eq_refl eq_refl eq_refl eq_refl).
    reflexivity.
Defined.

(** ** The driver with subsampling *)

Section SubsamplingDriver.

Lemma list_set_app {A : Type} (l : nat) (a : A) (h h' : list A) :
  (l < length h)%nat -> list_set l a (h ++ h') = list_set l a h ++ h'.
Proof.
  revert l. induction h as [|x h IH]; intros [|l] Hl; simpl in *; try lia.
  - reflexivity.
  - now rewrite IH by lia.
Qed.

(** The last command decides what a sequence returns and leaves behind. *)
Lemma hbind_post {A B : Type} (R : B -> heap -> Prop) (m : hprog A)
    (k : A -> hprog B) :
  (forall a h' b, out_result (k a h') = Ok b -> R b (out_heap (k a h'))) ->
  forall h b, out_result (hbind m k h) = Ok b -> R b (out_heap (hbind m k h)).
Proof.
  intros Hk h b. unfold hbind.
  destruct (out_result (m h)) as [a|e]; cbn; [apply Hk | discriminate].
Qed.

(** [f_k = self_consistent_update(...); f_k -= f_k[0]; return f_k], the end
    of the driver, given the update. *)
Lemma anchor_and_return (r : vec) (h : heap) (l : loc) :
  out_result ((f_k <== alloc (Arr1 r) ;;
               r0 <== hlift (lift (index0 r)) ;;
               _ <== store f_k (Arr1 (map (fun x => x - r0) r)) ;;
               hret f_k) h) = Ok l ->
  l = length h /\
  exists r0, index0 r = Ok r0 /\
    out_heap ((f_k <== alloc (Arr1 r) ;;
               r0 <== hlift (lift (index0 r)) ;;
               _ <== store f_k (Arr1 (map (fun x => x - r0) r)) ;;
               hret f_k) h) = h ++ [Arr1 (map (fun x => x - r0) r)].
Proof.
  unfold hbind, alloc, hlift, lift, store, hret.
  destruct r as [|x r]; cbn; [discriminate|].
  intros E. injection E as <-. split; [reflexivity|].
  exists x. split; [reflexivity|]. now rewrite list_set_last.
Qed.

Variable lstsq : mat -> vec -> vec.
Variable scipy_minimize :
  (vec -> result (R * vec)) -> option (vec -> result mat) -> vec ->
  string -> R -> option options -> prog vec.
Variable scipy_root :
  (vec -> result vec) -> (vec -> result mat) -> vec ->
  string -> R -> option options -> prog vec.
Variable check_w_normalized : mat -> vec -> result unit.
Variable random_choice : nat -> list nat -> nat -> result (list nat).

Variables (solver_protocol subsampling_protocol : option (list stage)).
Variables (subsampling : option Z) (x_kindices : option (list Z)).

Local Abbreviation driver :=
  (solve_mbar_with_subsampling lstsq scipy_minimize scipy_root check_w_normalized
     random_choice).

(** Whatever came before, the array returned is the shifted update. *)
Lemma driver_post (lu lN lf : loc) (h : heap) (l : loc) :
  out_result (driver lu lN lf solver_protocol subsampling_protocol
                     subsampling x_kindices h) = Ok l ->
  exists r,
    nth_error (out_heap (driver lu lN lf solver_protocol subsampling_protocol
                                subsampling x_kindices h)) l = Some (Arr1 r) /\
    nth 0 r 0 = 0 /\ (1 <= length r)%nat.
Proof.
  revert h l. unfold solve_mbar_with_subsampling.
  apply (@hbind_post _ _ (fun l hp => exists r, nth_error hp l = Some (Arr1 r) /\
                                        nth 0 r 0 = 0 /\ (1 <= length r)%nat)).
  intros N0 h0. cbv zeta.
  apply (@hbind_post _ _ (fun l hp => exists r, nth_error hp l = Some (Arr1 r) /\
                                        nth 0 r 0 = 0 /\ (1 <= length r)%nat)).
  intros fnz h1.
  apply (@hbind_post _ _ (fun l hp => exists r, nth_error hp l = Some (Arr1 r) /\
                                        nth 0 r 0 = 0 /\ (1 <= length r)%nat)).
  intros _ h2.
  apply (@hbind_post _ _ (fun l hp => exists r, nth_error hp l = Some (Arr1 r) /\
                                        nth 0 r 0 = 0 /\ (1 <= length r)%nat)).
  intros u h3.
  apply (@hbind_post _ _ (fun l hp => exists r, nth_error hp l = Some (Arr1 r) /\
                                        nth 0 r 0 = 0 /\ (1 <= length r)%nat)).
  intros N h4.
  apply (@hbind_post _ _ (fun l hp => exists r, nth_error hp l = Some (Arr1 r) /\
                                        nth 0 r 0 = 0 /\ (1 <= length r)%nat)).
  intros f h5.
  apply (@hbind_post _ _ (fun l hp => exists r, nth_error hp l = Some (Arr1 r) /\
                                        nth 0 r 0 = 0 /\ (1 <= length r)%nat)).
  intros r h6 l E. cbv beta in E |- *.
  destruct (anchor_and_return r h6 E) as (Hl & r0 & Hr0 & Hh).
  exists (map (fun x => x - r0) r).
  split.
  { etransitivity; [exact (f_equal (fun hp => nth_error hp l) Hh)|].
    rewrite Hl. apply nth_error_fresh. }
  destruct r as [|x r]; [discriminate|]. injection Hr0 as <-.
  cbn. split; [lra | lia].
Qed.

Variables (h : heap) (lu lN lf : loc) (u : mat) (N f : vec) (k : nat).
Hypothesis Hu : nth_error h lu = Some (Arr2 u).
Hypothesis HN : nth_error h lN = Some (Arr1 N).
Hypothesis Hf : nth_error h lf = Some (Arr1 f).
Hypothesis Hdiff : lf <> lN.
Hypothesis Hshapes : shapes_ok u N f = true.
Hypothesis Hone : where_positive N = [k].

Local Abbreviation f' := (list_set k 0 f).
Local Abbreviation r :=
  (map (fun x => -1 * x) (log_numerator_k u (masked_log_denominator_n u N f'))).

(** With a single state that has samples no solver is called. *)
Lemma driver_single_state_run :
  exists r0,
    index0 r = Ok r0 /\
    driver lu lN lf solver_protocol subsampling_protocol subsampling x_kindices h =
    mkOutcome [] (list_set lf (Arr1 f') h ++ [Arr1 [0]; Arr1 (map (fun x => x - r0) r)])
              (Ok (S (length h))).
Proof.
  destruct (shapes_ok_inv _ _ _ Hshapes) as (_ & HlN & Hlf).
  assert (k < length f)%nat as Hk.
  { assert (In k (where_positive N)) as Hin by (rewrite Hone; now left).
    apply where_positive_spec in Hin. lia. }
  assert (lf < length h)%nat as Hlf' by (apply nth_error_Some; congruence).
  assert (lu <> lf) as Hul by (intros ->; congruence).
  assert (shapes_ok u N f' = true) as Hsh'.
  { rewrite <- Hshapes. unfold shapes_ok. now rewrite length_list_set. }
  assert (exists r0, index0 r = Ok r0) as [r0 Hr0].
  { assert (forall l : vec, length l = length u -> exists r0, index0 l = Ok r0) as Hne.
    { intros [|x l] Hlen; [simpl in Hlen; unfold mat, vec in *; lia | now exists x]. }
    apply Hne. unfold log_numerator_k. now rewrite !length_map. }
  exists r0. split; [exact Hr0|].
  unfold solve_mbar_with_subsampling.
  erewrite hbind_silent by (apply load1_ok; exact HN).
  cbv beta zeta. rewrite Hone. cbn [length Nat.eqb].
  erewrite hbind_silent by apply alloc_ok. cbv beta.
  set (h1 := h ++ [Arr1 [0]]).
  set (h2 := list_set lf (Arr1 f') h1).
  assert (assign_mem lf [k] (length h) h1 = mkOutcome [] h2 (Ok tt)) as Hassign.
  { unfold assign_mem.
    erewrite hbind_silent by (apply load1_ok; unfold h1; apply nth_error_fresh).
    cbv beta.
    erewrite hbind_silent
      by (apply load1_ok; unfold h1; apply nth_error_extend; exact Hf).
    cbv beta.
    assert (assign_at [k] [0] f = Ok f') as ->.
    { unfold assign_at. cbn [forallb]. apply Nat.ltb_lt in Hk. rewrite Hk.
      reflexivity. }
    erewrite hbind_silent by apply hlift_ok. reflexivity. }
  erewrite hbind_silent by exact Hassign. cbv beta.
  assert (nth_error h2 lu = Some (Arr2 u)) as Hu2.
  { unfold h2. rewrite nth_error_list_set_other by exact Hul.
    unfold h1. now apply nth_error_extend. }
  assert (nth_error h2 lN = Some (Arr1 N)) as HN2.
  { unfold h2. rewrite nth_error_list_set_other by congruence.
    unfold h1. now apply nth_error_extend. }
  assert (nth_error h2 lf = Some (Arr1 f')) as Hf2.
  { unfold h2. apply nth_error_list_set_same. unfold h1. rewrite length_app. lia. }
  erewrite hbind_silent by (apply load2_ok; exact Hu2). cbv beta.
  erewrite hbind_silent by (apply load1_ok; exact HN2). cbv beta.
  erewrite hbind_silent by (apply load1_ok; exact Hf2). cbv beta.
  rewrite self_consistent_update_operands by exact Hsh'.
  erewrite hbind_silent by apply hlift_ok. cbv beta.
  erewrite hbind_silent by apply alloc_ok. cbv beta.
  rewrite Hr0.
  erewrite hbind_silent by apply hlift_ok. cbv beta.
  unfold hbind, store, hret. cbn [out_result out_heap out_trace app].
  rewrite list_set_last.
  assert (length h2 = S (length h)) as ->.
  { unfold h2, h1. rewrite length_list_set, length_app. simpl. lia. }
  unfold h2, h1. rewrite list_set_app by exact Hlf'.
  rewrite <- app_assoc. reflexivity.
Qed.

End SubsamplingDriver.

(** X19. On valid inputs with exactly one state that has samples,
    [solve_mbar_with_subsampling] calls no solver and prints nothing,
    whatever the protocols and the subsampling arguments are: it writes 0
    into the caller's [f_k] at that
    state, leaves [u_kn] and [N_k] as they are, and returns in a new array
    the self-consistent update of that [f_k], shifted so that its first
    entry is 0. *)
Theorem subsampling_single_populated_state
    (lstsq : mat -> vec -> vec)
    (scipy_minimize : (vec -> result (R * vec)) -> option (vec -> result mat) ->
                      vec -> string -> R -> option options -> prog vec)
    (scipy_root : (vec -> result vec) -> (vec -> result mat) -> vec ->
                  string -> R -> option options -> prog vec)
    (check_w_normalized : mat -> vec -> result unit)
    (random_choice : nat -> list nat -> nat -> result (list nat))
    (solver_protocol subsampling_protocol : option (list stage))
    (subsampling : option Z) (x_kindices : option (list Z))
    (h : heap) (lu lN lf : loc) (u : mat) (N f : vec) (k : nat) :
  nth_error h lu = Some (Arr2 u) ->
  nth_error h lN = Some (Arr1 N) ->
  nth_error h lf = Some (Arr1 f) ->
  lf <> lN ->
  valid_inputs u N f ->
  where_positive N = [k] ->
  let o := solve_mbar_with_subsampling lstsq scipy_minimize scipy_root
             check_w_normalized random_choice lu lN lf
             solver_protocol subsampling_protocol subsampling x_kindices h in
  exists r r0,
    self_consistent_update u N (list_set k 0 f) = Ok r /\ index0 r = Ok r0 /\
    out_trace o = [] /\ out_result o = Ok (S (length h)) /\
    nth_error (out_heap o) (S (length h)) = Some (Arr1 (map (fun x => x - r0) r)) /\
    nth_error (out_heap o) lf = Some (Arr1 (list_set k 0 f)) /\
    nth_error (out_heap o) lu = Some (Arr2 u) /\
    nth_error (out_heap o) lN = Some (Arr1 N).
Proof.
  intros Hu HN Hf Hdiff (Hsh & _) Hone o.
  destruct (@driver_single_state_run lstsq scipy_minimize scipy_root
              check_w_normalized random_choice solver_protocol subsampling_protocol
              subsampling x_kindices h lu lN lf u N f k Hu HN Hf Hdiff Hsh Hone)
    as (r0 & Hr0 & Hrun).
  assert (lf < length h)%nat as Hlf by (apply nth_error_Some; congruence).
  assert (lu <> lf) as Hul by (intros ->; congruence).
  eexists. exists r0.
  split.
  { apply self_consistent_update_operands.
    rewrite <- Hsh. unfold shapes_ok. now rewrite length_list_set. }
  split; [exact Hr0|].
  unfold o. rewrite Hrun. cbn [out_trace out_result out_heap].
  split; [reflexivity|]. split; [reflexivity|].
  set (h' := list_set lf (Arr1 (list_set k 0 f)) h).
  assert (length h' = length h) as Hlen by apply length_list_set.
  split.
  { rewrite nth_error_app2 by lia. now replace (S (length h) - length h')%nat with 1%nat by lia. }
  split.
  { apply nth_error_extend. now apply nth_error_list_set_same. }
  split.
  { apply nth_error_extend. unfold h'. now rewrite nth_error_list_set_other. }
  apply nth_error_extend. unfold h'. rewrite nth_error_list_set_other by congruence.
  exact HN.
Qed.

Lemma single_state_example : where_positive [0; 2] = [1%nat].
Proof.
  unfold where_positive. cbn [length seq filter nth].
  rewrite (@positive_false 0), (@positive_true 2) by lra. reflexivity.
Qed.

Lemma subsampling_single_populated_state_witness :
  let h := [Arr2 [[0; 1]; [2; 3]]; Arr1 [0; 2]; Arr1 [7; 8]] in
  let o := solve_mbar_with_subsampling lstsq0 scipy_minimize0 scipy_root0
             check_w_normalized0 random_choice0 0%nat 1%nat 2%nat
             None None (Some 4%Z) None h in
  exists r r0,
    self_consistent_update [[0; 1]; [2; 3]] [0; 2] (list_set 1 0 [7; 8]) = Ok r /\
    index0 r = Ok r0 /\
    out_trace o = [] /\ out_result o = Ok 4%nat /\
    nth_error (out_heap o) 4 = Some (Arr1 (map (fun x => x - r0) r)) /\
    nth_error (out_heap o) 2 = Some (Arr1 (list_set 1 0 [7; 8])) /\
    nth_error (out_heap o) 0 = Some (Arr2 [[0; 1]; [2; 3]]) /\
    nth_error (out_heap o) 1 = Some (Arr1 [0; 2]).
Proof.
  apply (@subsampling_single_populated_state lstsq0 scipy_minimize0 scipy_root0
           check_w_normalized0 random_choice0 None None (Some 4%Z) None
           [Arr2 [[0; 1]; [2; 3]]; Arr1 [0; 2]; Arr1 [7; 8]] 0%nat 1%nat 2%nat
           [[0; 1]; [2; 3]] [0; 2] [7; 8] 1%nat);
    try reflexivity.
  - discriminate.
  - repeat split; [simpl; lia | repeat constructor; lra |].
    apply Exists_cons_tl, Exists_cons_hd. lra.
  - exact single_state_example.
Defined.

(** X20. Whenever [solve_mbar_with_subsampling] returns, whichever way it
    took, the array it returns is a new one (not the caller's [f_k], which
    it has overwritten in place), it has at least one entry, and its first
    entry is 0: the last two statements recompute every free energy by a
    self-consistent update and subtract the first one. *)
Theorem subsampling_result_anchored
    (lstsq : mat -> vec -> vec)
    (scipy_minimize : (vec -> result (R * vec)) -> option (vec -> result mat) ->
                      vec -> string -> R -> option options -> prog vec)
    (scipy_root : (vec -> result vec) -> (vec -> result mat) -> vec ->
                  string -> R -> option options -> prog vec)
    (check_w_normalized : mat -> vec -> result unit)
    (random_choice : nat -> list nat -> nat -> result (list nat))
    (solver_protocol subsampling_protocol : option (list stage))
    (subsampling : option Z) (x_kindices : option (list Z))
    (h : heap) (lu lN lf : loc) (l : loc) :
  out_result (solve_mbar_with_subsampling lstsq scipy_minimize scipy_root
                check_w_normalized random_choice lu lN lf
                solver_protocol subsampling_protocol subsampling x_kindices h)
    = Ok l ->
  exists r,
    nth_error (out_heap (solve_mbar_with_subsampling lstsq scipy_minimize scipy_root
                           check_w_normalized random_choice lu lN lf
                           solver_protocol subsampling_protocol subsampling
                           x_kindices h)) l = Some (Arr1 r) /\
    nth 0 r 0 = 0 /\ (1 <= length r)%nat /\ (length h <= l)%nat.
Proof.
  intros E.
  destruct (@driver_post lstsq scipy_minimize scipy_root check_w_normalized
              random_choice solver_protocol subsampling_protocol subsampling
              x_kindices lu lN lf h l E) as (r & Hr & H0 & Hlen).
  exists r. repeat split; auto.
  destruct (@frame_solve_mbar_with_subsampling (length h) (fun l' => l' = lf)
              lstsq scipy_minimize scipy_root check_w_normalized random_choice
              lu lN lf solver_protocol subsampling_protocol subsampling x_kindices
              (fun _ => eq_refl) h (le_n _)) as (_ & _ & HQ).
  now apply HQ.
Qed.

Lemma subsampling_result_anchored_witness :
  let h := [Arr2 [[0; 1]; [2; 3]]; Arr1 [0; 2]; Arr1 [7; 8]] in
  exists r,
    nth_error (out_heap (solve_mbar_with_subsampling lstsq0 scipy_minimize0
                           scipy_root0 check_w_normalized0 random_choice0
                           0%nat 1%nat 2%nat None None None None h)) 4
      = Some (Arr1 r) /\
    nth 0 r 0 = 0 /\ (1 <= length r)%nat /\ (length h <= 4)%nat.
Proof.
  intros h.
  apply (@subsampling_result_anchored lstsq0 scipy_minimize0 scipy_root0
           check_w_normalized0 random_choice0 None None None None h
           0%nat 1%nat 2%nat 4%nat).
  destruct (@driver_single_state_run lstsq0 scipy_minimize0 scipy_root0
              check_w_normalized0 random_choice0 None None None None
              h 0%nat 1%nat 2%nat [[0; 1]; [2; 3]] [0; 2] [7; 8] 1%nat
              eq_refl eq_refl eq_refl ltac:(discriminate) eq_refl
              single_state_example) as (r0 & _ & Hrun).
  rewrite Hrun. reflexivity.
Defined.
